(** * company-radar: ingestion pipeline and subgraph assembly

    A shallow embedding of [backend/ingest.py] (streaming reader, record
    classifier, batching writer, two-pass orchestrator) and of
    [backend/app/repositories/graph_repository.py] (subgraph assembler,
    search with fallback), followed by the properties the specification
    states about them; then of the rest of the two files and of their
    callers (read queries, wiring, routes, status providers), with further
    properties of the code. *)

From Stdlib Require Import Strings.Byte.
From stdpp Require Import base numbers list strings gmap.

Set Warnings "-register-all,-clear-no-such-hyp".
Open Scope string_scope.
Open Scope list_scope.

(** ** Python values

    The values [ijson] hands to the pipeline: [None], booleans, integers,
    decimals (every non-integral JSON number), strings, lists and dicts.
    A dict keeps its items in insertion order; [dict_get] is [dict.get]. *)

Inductive value : Type :=
| VNone
| VBool (b : bool)
| VInt (n : Z)
| VDecimal (mantissa exponent : Z)
| VStr (s : string)
| VList (l : list value)
| VDict (d : list (string * value)).

Definition dict := list (string * value).

Definition value_eq_dec : ∀ a b : value, {a = b} + {a ≠ b}.
Proof.
  fix IH 1. intros a b.
  decide equality.
  - apply Bool.bool_dec.
  - apply Z.eq_dec.
  - apply Z.eq_dec.
  - apply Z.eq_dec.
  - apply String.string_dec.
  - apply (List.list_eq_dec IH).
  - apply List.list_eq_dec. intros [k1 v1] [k2 v2].
    destruct (String.string_dec k1 k2) as [->|Hk]; [|right; congruence].
    destruct (IH v1 v2) as [->|Hv]; [left; reflexivity|right; congruence].
Defined.

#[global] Instance value_eq_decision : EqDecision value := value_eq_dec.

(** Python truthiness ([bool(v)]). *)
Definition truthy (v : value) : bool :=
  match v with
  | VNone => false
  | VBool b => b
  | VInt n => negb (n =? 0)%Z
  | VDecimal m _ => negb (m =? 0)%Z
  | VStr s => negb (String.eqb s "")
  | VList l => match l with [] => false | _ => true end
  | VDict d => match d with [] => false | _ => true end
  end.

(** [a or b] *)
Definition py_or (a b : value) : value := if truthy a then a else b.

(** [d.get(k)]: the value stored under [k], [None] when there is none. *)
Fixpoint dict_get (d : dict) (k : string) : value :=
  match d with
  | [] => VNone
  | (k', v) :: d' => if String.eqb k' k then v else dict_get d' k
  end.

(** [v == s] for a string literal [s]. *)
Definition eq_str (v : value) (s : string) : bool :=
  match v with VStr s' => String.eqb s' s | _ => false end.

(** Exceptions that can leave the modelled functions. *)
Inductive exn : Type :=
| AttributeError   (* [.get] on a value that is not a dict *)
| JSONError        (* raised by the streaming decoder *)
| Neo4jError       (* store-level query error *)
| DriverError.     (* any other failure of the store connection *)

Inductive result (A : Type) : Type :=
| Ok (a : A)
| Raise (e : exn).
Arguments Ok {A} a.
Arguments Raise {A} e.

#[global] Instance result_bind : MBind result := λ A B k r,
  match r with Ok a => k a | Raise e => Raise e end.
#[global] Instance result_ret : MRet result := λ A a, Ok a.
#[global] Instance result_fmap : FMap result := λ A B f r,
  match r with Ok a => Ok (f a) | Raise e => Raise e end.

(** ** Record classifier ([ingest.py], lines 45-86) *)

Module Classifier.

(** [prop_first]: the first element of the list stored under [key] in the
    record's properties.  [props.get] raises when [properties] is a
    truthy value other than a dict. *)
Definition prop_first (entity : dict) (key : string) : result value :=
  let props := py_or (dict_get entity "properties") (VDict []) in
  match props with
  | VDict p =>
      match dict_get p key with
      | VList (x :: _) => Ok x
      | _ => Ok VNone
      end
  | _ => Raise AttributeError
  end.

(** The row dict built by [to_node_row]. *)
Record node_row := NodeRow {
  nr_id : value;
  nr_schema : value;
  nr_name : value;
  nr_datasets : value;
  nr_modified_at : value
}.

Definition to_node_row (entity : dict) : result node_row :=
  name ← prop_first entity "name";
  Ok {| nr_id := dict_get entity "id";
        nr_schema := dict_get entity "schema";
        nr_name := name;
        nr_datasets := py_or (dict_get entity "datasets") (VList []);
        nr_modified_at :=
          py_or (dict_get entity "modifiedAt") (dict_get entity "modified_at") |}.

Inductive rel_type := DIRECTORSHIP | OWNERSHIP.

(** The row dict built by [to_rel_row]. *)
Record rel_row := RelRow {
  rr_id : value;
  rr_schema : value;
  rr_source_id : value;
  rr_target_id : value;
  rr_datasets : value;
  rr_modified_at : value
}.

Definition to_rel_row (entity : dict) : result (option (rel_type * rel_row)) :=
  let schema := dict_get entity "schema" in
  ends ←
    (if eq_str schema "Directorship" then
       s ← prop_first entity "director";
       t ← prop_first entity "organization";
       Ok (Some (s, t, DIRECTORSHIP))
     else if eq_str schema "Ownership" then
       s ← prop_first entity "owner";
       t ← prop_first entity "asset";
       Ok (Some (s, t, OWNERSHIP))
     else Ok None);
  match ends with
  | None => Ok None
  | Some (source_id, target_id, rel_type) =>
      if negb (truthy source_id) || negb (truthy target_id) then Ok None
      else Ok (Some (rel_type,
             {| rr_id := dict_get entity "id";
                rr_schema := schema;
                rr_source_id := source_id;
                rr_target_id := target_id;
                rr_datasets := py_or (dict_get entity "datasets") (VList []);
                rr_modified_at :=
                  py_or (dict_get entity "modifiedAt")
                        (dict_get entity "modified_at") |}))
  end.

(** The properties bag [prop_first] reads: the dict under ["properties"],
    or the empty dict when that entry is missing or falsy. *)
Definition properties_are (entity p : dict) : Prop :=
  py_or (dict_get entity "properties") (VDict []) = VDict p.

(** "The first value of a property": the head of the list stored under
    the key, nothing otherwise. *)
Definition first_value (p : dict) (key : string) : value :=
  match dict_get p key with
  | VList (x :: _) => x
  | _ => VNone
  end.

(** A value that is not a non-empty list: a scalar, a dict, an empty
    list, or nothing at all. *)
Definition no_first (v : value) : Prop :=
  match v with VList (_ :: _) => False | _ => True end.

(** The edge row of a record, given its two endpoints. *)
Definition edge_row_of (entity : dict) (s t : value) : rel_row :=
  {| rr_id := dict_get entity "id"; rr_schema := dict_get entity "schema";
     rr_source_id := s; rr_target_id := t;
     rr_datasets := py_or (dict_get entity "datasets") (VList []);
     rr_modified_at :=
       py_or (dict_get entity "modifiedAt") (dict_get entity "modified_at") |}.

End Classifier.

(** ** Streaming source reader ([ingest.py], lines 9-42) *)

Module Reader.

Definition is_ws (b : Byte.byte) : bool :=
  let n := Byte.to_N b in
  (n =? 9)%N || (n =? 10)%N || (n =? 13)%N || (n =? 32)%N.

(** The [for b in chunk] loop of [_first_non_ws_byte]. *)
Fixpoint first_non_ws (chunk : list Byte.byte) : option Byte.byte :=
  match chunk with
  | [] => None
  | b :: rest => if is_ws b then first_non_ws rest else Some b
  end.

Definition peek_bytes : nat := 4096.

Definition _first_non_ws_byte (file : list Byte.byte) : option Byte.byte :=
  first_non_ws (take peek_bytes file).

(** What a generator produces: the items it yields and, when it ends by
    raising, the exception. *)
Definition stream (A : Type) : Type := (list A * option exn)%type.

Definition as_dict (v : value) : option dict :=
  match v with VDict d => Some d | _ => None end.

Definition is_object (v : value) : bool :=
  match v with VDict _ => true | _ => false end.

Definition open_bracket : Byte.byte := Byte.x5b.

Section iter_entities.
(** [ijson.items(f, prefix, multiple_values)], the decoder of the
    [ijson] package: the values found under [prefix], decoded
    incrementally from the bytes of the file. *)
Variable ijson_items : list Byte.byte → string → bool → stream value.

Definition iter_entities (file : list Byte.byte) : stream dict :=
  match _first_non_ws_byte file with
  | None => ([], None)
  | Some first =>
      if (Byte.to_N first =? 91)%N then
        let '(items, e) := ijson_items file "item" false in
        (omap as_dict items, e)
      else
        let '(items, e) := ijson_items file "" true in
        (omap as_dict items, e)
  end.
End iter_entities.

(** A stand-in decoder for examples: whatever the mode, two objects with a
    number between them. *)
Definition toy_items (file : list Byte.byte) (prefix : string) (multiple_values : bool)
  : stream value :=
  ([VDict [("id", VStr "C1")]; VInt 7; VDict [("id", VStr "P1")]], None).

End Reader.

(** ** The graph store, as far as the two bulk-upsert statements see it

    [UNWIND $batch AS row MERGE (x {key}) SET x.p = ...]: for each row, in
    order, the elements that match the key are overwritten in place, and
    when none matches one is created and then set.  (Cypher runs [MERGE]
    for every row before [SET] for any; the result is the same, since
    [SET] leaves the key of [MERGE] alone.)

    The store holds nodes with one of the labels [Company] and [Person]
    and relationships of the types [DIRECTORSHIP] and [OWNERSHIP], with
    the properties the statements read and write; a property that is not
    set is [None].  Nothing is ever deleted, so a node is identified by
    its position in creation order.  Identifiers are compared
    structurally, and the store accepts every row: a failing connection
    and values the store cannot hold are outside the model. *)

Section merge_set.
Context {E A K : Type} `{EqDecision K}.
Variables (ekey : E → K) (akey : A → K) (set : E → A → A) (new : E → A).

Definition hit (e : E) (a : A) : bool := bool_decide (akey a = ekey e).

Definition set_if_hit (e : E) (a : A) : A := if hit e a then set e a else a.

Definition merge_set (l : list A) (e : E) : list A :=
  if existsb (hit e) l then set_if_hit e <$> l else l ++ [set e (new e)].

(** What a sequence of upserts does to an element that is in the list. *)
Definition set_all (es : list E) (a : A) : A :=
  foldl (λ a e, set_if_hit e a) a es.
End merge_set.

Module Store.
Import Classifier.

Inductive label := Company | Person.

#[global] Instance label_eq_dec : EqDecision label.
Proof. solve_decision. Defined.

#[global] Instance rel_type_eq_dec : EqDecision rel_type.
Proof. solve_decision. Defined.

Record node := Node {
  n_label : label;
  n_ftm_id : value;
  n_schema : value;
  n_name : value;
  n_datasets : value;
  n_modified_at : value
}.

Record rel := Rel {
  r_type : rel_type;
  r_src : nat;
  r_tgt : nat;
  r_ftm_id : value;
  r_schema : value;
  r_datasets : value;
  r_modified_at : value
}.

Record store := Store { nodes : list node; rels : list rel }.

Definition empty : store := {| nodes := []; rels := [] |}.

(** *** [NODE_CYPHER]: [MERGE (n:<label> {ftm_id: row.id}) SET n.schema = ...] *)

Definition node_key (n : node) : label * value := (n_label n, n_ftm_id n).

Definition row_key (e : label * node_row) : label * value := (e.1, nr_id e.2).

Definition node_set (e : label * node_row) (n : node) : node :=
  {| n_label := n_label n;
     n_ftm_id := n_ftm_id n;
     n_schema := nr_schema e.2;
     n_name := nr_name e.2;
     n_datasets := nr_datasets e.2;
     n_modified_at := nr_modified_at e.2 |}.

Definition node_new (e : label * node_row) : node :=
  {| n_label := e.1; n_ftm_id := nr_id e.2; n_schema := VNone;
     n_name := VNone; n_datasets := VNone; n_modified_at := VNone |}.

Definition merge_node : list node → label * node_row → list node :=
  merge_set row_key node_key node_set node_new.

Definition NODE_CYPHER (l : label) (batch : list node_row) (st : store) : store :=
  {| nodes := foldl merge_node (nodes st) (pair l <$> batch);
     rels := rels st |}.

(** *** [REL_CYPHER] *)

(** [MATCH (x:<label> {ftm_id: id})]: the nodes found. *)
Definition match_nodes (l : label) (id : value) (ns : list node) : list nat :=
  omap (λ p : nat * node,
          if bool_decide (node_key p.2 = (l, id)) then Some p.1 else None)
       (imap pair ns).

(** [OPTIONAL MATCH]: one row per match, and one row with null when
    there is none. *)
Definition optional_match {A} (found : list A) : list (option A) :=
  match found with [] => [None] | _ => Some <$> found end.

Definition coalesce {A} (a b : option A) : option A :=
  match a with Some _ => a | None => b end.

(** The two [OPTIONAL MATCH] clauses on one identifier followed by
    [coalesce(xP, xC)]. *)
Definition endpoint (ns : list node) (id : value) : list (option nat) :=
  p ← optional_match (match_nodes Person id ns);
  c ← optional_match (match_nodes Company id ns);
  [coalesce p c].

(** The rows that pass [WHERE src IS NOT NULL AND tgt IS NOT NULL]. *)
Definition rel_table (ty : rel_type) (ns : list node) (row : rel_row)
  : list (rel_type * rel_row * nat * nat) :=
  src ← endpoint ns (rr_source_id row);
  tgt ← endpoint ns (rr_target_id row);
  match src, tgt with
  | Some s, Some t => [(ty, row, s, t)]
  | _, _ => []
  end.

(** [MERGE (src)-[r:<type> {ftm_id: row.id}]->(tgt) SET r.schema = ...] *)

Definition rel_key (r : rel) : rel_type * nat * nat * value :=
  (r_type r, r_src r, r_tgt r, r_ftm_id r).

Definition table_key (e : rel_type * rel_row * nat * nat)
  : rel_type * nat * nat * value :=
  let '(ty, row, s, t) := e in (ty, s, t, rr_id row).

Definition rel_set (e : rel_type * rel_row * nat * nat) (r : rel) : rel :=
  let '(_, row, _, _) := e in
  {| r_type := r_type r; r_src := r_src r; r_tgt := r_tgt r;
     r_ftm_id := r_ftm_id r;
     r_schema := rr_schema row;
     r_datasets := rr_datasets row;
     r_modified_at := rr_modified_at row |}.

Definition rel_new (e : rel_type * rel_row * nat * nat) : rel :=
  let '(ty, row, s, t) := e in
  {| r_type := ty; r_src := s; r_tgt := t; r_ftm_id := rr_id row;
     r_schema := VNone; r_datasets := VNone; r_modified_at := VNone |}.

Definition merge_rel : list rel → rel_type * rel_row * nat * nat → list rel :=
  merge_set table_key rel_key rel_set rel_new.

Definition REL_CYPHER (ty : rel_type) (batch : list rel_row) (st : store) : store :=
  {| nodes := nodes st;
     rels := foldl merge_rel (rels st) (batch ≫= rel_table ty (nodes st)) |}.

#[global] Instance node_row_eq_dec : EqDecision node_row.
Proof. solve_decision. Defined.

#[global] Instance rel_row_eq_dec : EqDecision rel_row.
Proof. solve_decision. Defined.

#[global] Instance node_eq_dec : EqDecision node.
Proof. solve_decision. Defined.

(** *** The graph without the store's numbering of nodes *)

(** An edge with its two end nodes in place of their positions. *)
Definition edge_view (ns : list node) (r : rel)
  : rel_type * option node * option node * value * value * value * value :=
  (r_type r, ns !! r_src r, ns !! r_tgt r,
   r_ftm_id r, r_schema r, r_datasets r, r_modified_at r).

(** Two stores hold the same nodes, and the same edges between the same
    nodes. *)
Definition same_graph (s1 s2 : store) : Prop :=
  (∀ n, n ∈ nodes s1 ↔ n ∈ nodes s2)
  ∧ (∀ v, v ∈ edge_view (nodes s1) <$> rels s1
          ↔ v ∈ edge_view (nodes s2) <$> rels s2).

(** The positions [i] of [ns] and [i'] of [ns'] hold the same node, and
    are the same position when either is below [base]. *)
Definition same_node (base : nat) (ns ns' : list node) (i i' : nat) : Prop :=
  (∃ n, ns !! i = Some n ∧ ns' !! i' = Some n)
  ∧ ((i < base ∨ i' < base)%nat → i = i').

(** Every edge of the store joins two of its nodes. *)
Definition rels_in_range (st : store) : Prop :=
  ∀ r, r ∈ rels st →
       (r_src r < length (nodes st))%nat ∧ (r_tgt r < length (nodes st))%nat.

End Store.

(** ** Batching writer and two-pass orchestrator ([ingest.py], lines 155-287) *)

Module Ingest.
Import Classifier Store Reader.

(** What the pipeline asks of the driver session: run one of the two
    bulk-upsert statements on a batch, in one write transaction. *)
Class Session (S : Type) := {
  run_node_cypher : label → list node_row → S → S;
  run_rel_cypher : rel_type → list rel_row → S → S
}.

(** The session on the store executes the statements. *)
#[global] Instance store_session : Session store := {|
  run_node_cypher := NODE_CYPHER;
  run_rel_cypher := REL_CYPHER
|}.

(** A session that only records the writes it is asked for. *)
Inductive write :=
| WNodes (l : label) (batch : list node_row)
| WRels (ty : rel_type) (batch : list rel_row).

#[global] Instance log_session : Session (list write) := {|
  run_node_cypher l batch log := log ++ [WNodes l batch];
  run_rel_cypher ty batch log := log ++ [WRels ty batch]
|}.

Section pipeline.
Context {Sess : Type} `{Session Sess}.

(** [flush_nodes]: the session after the write transaction, and the batch
    list as the call leaves it ([batch.clear()]). *)
Definition flush_nodes (session : Sess) (l : label) (batch : list node_row)
  : Sess * list node_row :=
  match batch with
  | [] => (session, batch)
  | _ => (run_node_cypher l batch session, [])
  end.

Definition flush_rels (session : Sess) (ty : rel_type) (batch : list rel_row)
  : Sess * list rel_row :=
  match batch with
  | [] => (session, batch)
  | _ => (run_rel_cypher ty batch session, [])
  end.

(** The variables of the loop of [import_nodes], with the session. *)
Record node_pass := NodePass {
  np_session : Sess;
  company_batch : list node_row;
  person_batch : list node_row;
  companies : nat;
  persons : nat
}.

(** One iteration of [for entity in iter_entities(path)] in
    [import_nodes]. *)
Definition import_nodes_step (batch_size : Z) (s : node_pass) (entity : dict)
  : result node_pass :=
  let schema := dict_get entity "schema" in
  if negb (eq_str schema "Company" || eq_str schema "Person") then Ok s
  else
    row ← to_node_row entity;
    if negb (truthy (nr_id row)) then Ok s
    else if eq_str schema "Company" then
      let batch := company_batch s ++ [row] in
      let '(session, batch) :=
        if (batch_size <=? Z.of_nat (length batch))%Z
        then flush_nodes (np_session s) Company batch
        else (np_session s, batch) in
      Ok {| np_session := session; company_batch := batch;
            person_batch := person_batch s;
            companies := S (companies s); persons := persons s |}
    else
      let batch := person_batch s ++ [row] in
      let '(session, batch) :=
        if (batch_size <=? Z.of_nat (length batch))%Z
        then flush_nodes (np_session s) Person batch
        else (np_session s, batch) in
      Ok {| np_session := session; company_batch := company_batch s;
            person_batch := batch;
            companies := companies s; persons := S (persons s) |}.

(** The loop; an exception leaves it with the session as the flushes so
    far made it. *)
Fixpoint import_nodes_loop (batch_size : Z) (entities : list dict) (s : node_pass)
  : Sess * result node_pass :=
  match entities with
  | [] => (np_session s, Ok s)
  | entity :: rest =>
      match import_nodes_step batch_size s entity with
      | Ok s' => import_nodes_loop batch_size rest s'
      | Raise e => (np_session s, Raise e)
      end
  end.

Definition import_nodes (entities : stream dict) (session : Sess) (batch_size : Z)
  : Sess * result (nat * nat) :=
  let init := {| np_session := session; company_batch := []; person_batch := [];
                 companies := 0; persons := 0 |} in
  match import_nodes_loop batch_size entities.1 init with
  | (session, Raise e) => (session, Raise e)
  | (session, Ok s) =>
      match entities.2 with
      | Some e => (session, Raise e)
      | None =>
          let '(session, _) := flush_nodes session Company (company_batch s) in
          let '(session, _) := flush_nodes session Person (person_batch s) in
          (session, Ok (companies s, persons s))
      end
  end.

Record rel_pass := RelPass {
  rp_session : Sess;
  directorship_batch : list rel_row;
  ownership_batch : list rel_row;
  directorships : nat;
  ownerships : nat
}.

(** One iteration of the loop of [import_relationships]. *)
Definition import_relationships_step (batch_size : Z) (s : rel_pass) (entity : dict)
  : result rel_pass :=
  let schema := dict_get entity "schema" in
  if negb (eq_str schema "Directorship" || eq_str schema "Ownership") then Ok s
  else
    parsed ← to_rel_row entity;
    match parsed with
    | None => Ok s
    | Some (rel_type, row) =>
        if negb (truthy (rr_id row)) then Ok s
        else
          match rel_type with
          | DIRECTORSHIP =>
              let batch := directorship_batch s ++ [row] in
              let '(session, batch) :=
                if (batch_size <=? Z.of_nat (length batch))%Z
                then flush_rels (rp_session s) DIRECTORSHIP batch
                else (rp_session s, batch) in
              Ok {| rp_session := session; directorship_batch := batch;
                    ownership_batch := ownership_batch s;
                    directorships := S (directorships s);
                    ownerships := ownerships s |}
          | OWNERSHIP =>
              let batch := ownership_batch s ++ [row] in
              let '(session, batch) :=
                if (batch_size <=? Z.of_nat (length batch))%Z
                then flush_rels (rp_session s) OWNERSHIP batch
                else (rp_session s, batch) in
              Ok {| rp_session := session;
                    directorship_batch := directorship_batch s;
                    ownership_batch := batch;
                    directorships := directorships s;
                    ownerships := S (ownerships s) |}
          end
    end.

Fixpoint import_relationships_loop (batch_size : Z) (entities : list dict)
    (s : rel_pass) : Sess * result rel_pass :=
  match entities with
  | [] => (rp_session s, Ok s)
  | entity :: rest =>
      match import_relationships_step batch_size s entity with
      | Ok s' => import_relationships_loop batch_size rest s'
      | Raise e => (rp_session s, Raise e)
      end
  end.

Definition import_relationships (entities : stream dict) (session : Sess)
    (batch_size : Z) : Sess * result (nat * nat) :=
  let init := {| rp_session := session; directorship_batch := [];
                 ownership_batch := []; directorships := 0; ownerships := 0 |} in
  match import_relationships_loop batch_size entities.1 init with
  | (session, Raise e) => (session, Raise e)
  | (session, Ok s) =>
      match entities.2 with
      | Some e => (session, Raise e)
      | None =>
          let '(session, _) :=
            flush_rels session DIRECTORSHIP (directorship_batch s) in
          let '(session, _) := flush_rels session OWNERSHIP (ownership_batch s) in
          (session, Ok (directorships s, ownerships s))
      end
  end.

(** What a run reports: the two pairs of counters [main] prints. *)
Record summary := Summary {
  nodes_count : nat * nat;      (* Company, Person *)
  rels_count : nat * nat        (* Directorship, Ownership *)
}.

(** The body of [main] after [ensure_indexes], which creates indexes and
    no data: pass 1, then pass 2 over the same file.  An exception in
    pass 1 ends the run before pass 2. *)
Definition ingest (entities : stream dict) (batch_size : Z) (session : Sess)
  : Sess * result summary :=
  match import_nodes entities session batch_size with
  | (session, Raise e) => (session, Raise e)
  | (session, Ok ns) =>
      match import_relationships entities session batch_size with
      | (session, Raise e) => (session, Raise e)
      | (session, Ok rs) => (session, Ok {| nodes_count := ns; rels_count := rs |})
      end
  end.

(** Running a write on a session. *)
Definition run (session : Sess) (w : write) : Sess :=
  match w with
  | WNodes l batch => run_node_cypher l batch session
  | WRels ty batch => run_rel_cypher ty batch session
  end.

End pipeline.

Arguments node_pass Sess : clear implicits.
Arguments rel_pass Sess : clear implicits.

(** Running recorded writes on a session, in order. *)
Definition replay {Sess : Type} `{Session Sess} (log : list write) (session : Sess)
  : Sess :=
  foldl run session log.

(** The state of a pass over a recording session, moved to the session
    that replays the record from [session]. *)
Definition np_replay {Sess : Type} `{Session Sess} (session : Sess)
    (s : node_pass (list write)) : node_pass Sess :=
  {| np_session := replay (np_session s) session;
     company_batch := company_batch s; person_batch := person_batch s;
     companies := companies s; persons := persons s |}.

Definition rp_replay {Sess : Type} `{Session Sess} (session : Sess)
    (s : rel_pass (list write)) : rel_pass Sess :=
  {| rp_session := replay (rp_session s) session;
     directorship_batch := directorship_batch s;
     ownership_batch := ownership_batch s;
     directorships := directorships s; ownerships := ownerships s |}.

(** The writes a run asks for, in order. *)
Definition writes (entities : stream dict) (batch_size : Z) : list write :=
  (ingest entities batch_size ([] : list write)).1.

Definition node_writes (entities : stream dict) (batch_size : Z) : list write :=
  (import_nodes entities ([] : list write) batch_size).1.

Definition rel_writes (entities : stream dict) (batch_size : Z) : list write :=
  (import_relationships entities ([] : list write) batch_size).1.

Definition is_node_write (w : write) : bool :=
  match w with WNodes _ _ => true | WRels _ _ => false end.

(** The node rows of a log, each with the label of its statement, in the
    order the store sees them. *)
Definition node_events (log : list write) : list (label * node_row) :=
  w ← log; match w with WNodes l batch => pair l <$> batch | WRels _ _ => [] end.

(** The rows of the relationship writes of a log that reach [MERGE], the
    endpoints looked up among the nodes [ns]. *)
Definition rel_events (ns : list node) (log : list write)
  : list (rel_type * rel_row * nat * nat) :=
  w ← log;
  match w with
  | WNodes _ _ => []
  | WRels ty batch => batch ≫= rel_table ty ns
  end.

(** The rows among [evs] that carry the tag [l]. *)
Definition rows_for {L R : Type} `{EqDecision L} (l : L) (evs : list (L * R)) : list R :=
  omap (λ e : L * R, if decide (e.1 = l) then Some e.2 else None) evs.

(** The edge rows of a log, each with the type of its statement. *)
Definition rel_rows (log : list write) : list (rel_type * rel_row) :=
  w ← log; match w with WRels ty batch => pair ty <$> batch | WNodes _ _ => [] end.

(** The number of rows of type [ty] for which the relationship writes of a
    log create or update an edge, the nodes being [ns]. *)
Definition edges_upserted (ty : rel_type) (ns : list node) (log : list write) : nat :=
  length (filter (λ e : rel_type * rel_row * nat * nat, e.1.1.1 = ty)
                 (rel_events ns log)).

(** The records pass 1 looks at, and those pass 2 looks at. *)
Definition is_node_record (entity : dict) : bool :=
  let schema := dict_get entity "schema" in
  eq_str schema "Company" || eq_str schema "Person".

Definition is_edge_record (entity : dict) : bool :=
  let schema := dict_get entity "schema" in
  eq_str schema "Directorship" || eq_str schema "Ownership".

(** What identifies a record of the input: its schema and identifier. *)
Definition record_key (entity : dict) : value * value :=
  (dict_get entity "schema", dict_get entity "id").

(** Two inputs hold the records of each schema and identifier in the same
    order. *)
Definition same_order_per_key (es es' : list dict) : Prop :=
  ∀ k, filter (λ e, record_key e = k) es = filter (λ e, record_key e = k) es'.

Definition label_schema (l : label) : string :=
  match l with Company => "Company" | Person => "Person" end.

Definition type_schema (ty : rel_type) : string :=
  match ty with DIRECTORSHIP => "Directorship" | OWNERSHIP => "Ownership" end.

(** Type and identifier of an edge row. *)
Definition rel_row_key (x : rel_type * rel_row) : rel_type * value :=
  (x.1, rr_id x.2).

(** The node row pass 1 sends to the store for a record, if any. *)
Definition node_row_of (entity : dict) : option (label * node_row) :=
  let schema := dict_get entity "schema" in
  if eq_str schema "Company" || eq_str schema "Person" then
    match to_node_row entity with
    | Ok row =>
        if truthy (nr_id row)
        then Some (if eq_str schema "Company" then Company else Person, row)
        else None
    | Raise _ => None
    end
  else None.

(** The edge row pass 2 sends to the store for a record, if any. *)
Definition rel_row_of (entity : dict) : option (rel_type * rel_row) :=
  let schema := dict_get entity "schema" in
  if eq_str schema "Directorship" || eq_str schema "Ownership" then
    match to_rel_row entity with
    | Ok (Some (ty, row)) => if truthy (rr_id row) then Some (ty, row) else None
    | _ => None
    end
  else None.

End Ingest.

(** ** Subgraph assembler ([graph_repository.py], lines 87-153) *)

Module Assembler.

(** One record of the 2-hop query, as [record.data()] returns it. *)
Record row := Row {
  root_id : option string;
  root_name : option string;
  person_id : option string;
  person_name : option string;
  other_company_id : option string;
  other_company_name : option string;
  role_to_root : option string;
  role_to_other : option string
}.

Inductive node_type := company | person.

Record gnode := GNode {
  id : string;
  name : option string;
  type : node_type
}.

Record link := Link {
  source : string;
  target : string;
  role : option string
}.

(** Truthiness of an [Optional[str]]. *)
Definition nonempty (o : option string) : bool :=
  match o with
  | Some s => negb (String.eqb s "")
  | None => false
  end.

(** [role or None] *)
Definition or_none (o : option string) : option string :=
  if nonempty o then o else None.

(** A dict that keeps insertion order: lookup, update of a present key. *)
Fixpoint od_get {V} (d : list (string * V)) (k : string) : option V :=
  match d with
  | [] => None
  | (k', v) :: d' => if String.eqb k' k then Some v else od_get d' k
  end.

Fixpoint od_alter {V} (f : V → V) (k : string) (d : list (string * V))
  : list (string * V) :=
  match d with
  | [] => []
  | (k', v) :: d' =>
      if String.eqb k' k then (k', f v) :: d' else (k', v) :: od_alter f k d'
  end.

Definition set_name (nm : option string) (n : gnode) : gnode :=
  {| id := id n; name := nm; type := type n |}.

(** [_add_node] reads and writes [nodes_by_id] only. *)
Definition _add_node (node_id name : option string) (node_type : node_type)
    (nodes_by_id : list (string * gnode)) : list (string * gnode) :=
  match node_id with
  | None => nodes_by_id
  | Some i =>
      if String.eqb i "" then nodes_by_id
      else
        match od_get nodes_by_id i with
        | Some n =>
            if negb (nonempty (Assembler.name n)) && nonempty name
            then od_alter (set_name name) i nodes_by_id
            else nodes_by_id
        | None =>
            nodes_by_id ++ [(i, {| id := i; name := name; type := node_type |})]
        end
  end.

(** [_add_link] reads and writes [links_set] and [links]. *)
Definition _add_link (source target role : option string)
    (ls : gset (string * string * option string) * list link)
  : gset (string * string * option string) * list link :=
  let '(links_set, links) := ls in
  match source, target with
  | Some s, Some t =>
      if String.eqb s "" || String.eqb t "" then ls
      else
        let key := (s, t, or_none role) in
        if bool_decide (key ∈ links_set) then ls
        else ({[ key ]} ∪ links_set,
              links ++ [{| source := s; target := t; role := or_none role |}])
  | _, _ => ls
  end.

(** The three variables the closures share. *)
Record acc := Acc {
  nodes_by_id : list (string * gnode);
  links_of : gset (string * string * option string) * list link
}.

(** The body of [for row in rows]. *)
Definition fold_row (a : acc) (r : row) : acc :=
  let n := nodes_by_id a in
  let n := _add_node (root_id r) (root_name r) company n in
  let n := _add_node (person_id r) (person_name r) person n in
  let n := _add_node (other_company_id r) (other_company_name r) company n in
  let l := links_of a in
  let l := _add_link (person_id r) (root_id r) (role_to_root r) l in
  let l := _add_link (person_id r) (other_company_id r) (role_to_other r) l in
  {| nodes_by_id := n; links_of := l |}.

Definition init : acc := {| nodes_by_id := []; links_of := (∅, []) |}.

Record view := View { v_nodes : list gnode; v_links : list link }.

(** [get_company_graph], given what the read transaction returned. *)
Definition get_company_graph (read : result (list row)) : result view :=
  rows ← read;
  let a := foldl fold_row init rows in
  Ok {| v_nodes := snd <$> nodes_by_id a; v_links := (links_of a).2 |}.

(** The calls of [_add_node] a row makes, in order. *)
Definition sightings (r : row) : list (option string * option string * node_type) :=
  [(root_id r, root_name r, company);
   (person_id r, person_name r, person);
   (other_company_id r, other_company_name r, company)].

Definition add_sighting (d : list (string * gnode))
    (s : option string * option string * node_type) : list (string * gnode) :=
  _add_node s.1.1 s.1.2 s.2 d.

(** The calls of [_add_link] a row makes, in order. *)
Definition candidates (r : row)
  : list (option string * option string * option string) :=
  [(person_id r, root_id r, role_to_root r);
   (person_id r, other_company_id r, role_to_other r)].

(** The node dict has one entry per key, and a node sits under its own
    identifier. *)
Definition nodes_wf (d : list (string * gnode)) : Prop :=
  NoDup d.*1 ∧ ∀ k g, (k, g) ∈ d → id g = k.

(** The node [i] is missing or has no name yet. *)
Definition nameless (d : list (string * gnode)) (i : string) : Prop :=
  match od_get d i with
  | Some g => nonempty (name g) = false
  | None => True
  end.

(** The set holds exactly the triples of the list, and the list holds
    none of them twice. *)
Definition links_wf (ls : gset (string * string * option string) * list link) : Prop :=
  NoDup ls.2
  ∧ ∀ s t r, (s, t, r) ∈ ls.1 ↔ {| source := s; target := t; role := r |} ∈ ls.2.

(** The link a call of [_add_link] stands for, when it has both ends. *)
Definition link_of (c : option string * option string * option string) : option link :=
  match c with
  | (Some s, Some t, rl) =>
      if String.eqb s "" || String.eqb t "" then None
      else Some {| source := s; target := t; role := or_none rl |}
  | _ => None
  end.

End Assembler.

(** ** Search with fallback ([graph_repository.py], lines 59-85) *)

Module Search.

Record hit := Hit { h_id : value; h_name : value; h_score : value }.

(** The two statements of [search_companies] with their parameters. *)
Inductive statement :=
| fulltext_cypher (q : string) (limit : Z)
    (* fulltext index over company names *)
| fallback_cypher (q : string) (limit : Z).
    (* [toLower(c.name) CONTAINS toLower($q)], score 0.0, [LIMIT $limit] *)

Section search.
(** The store's answer to a read transaction. *)
Variable store_read : statement → result (list hit).

(** [session.execute_read]; the session keeps the statements it ran. *)
Definition execute_read (ran : list statement) (c : statement)
  : list statement * result (list hit) :=
  (ran ++ [c], store_read c).

Definition search_companies (query : string) (limit : Z)
    (ran : list statement) : list statement * result (list hit) :=
  match execute_read ran (fulltext_cypher (query +:+ "*") limit) with
  | (ran1, Ok rows) => (ran1, Ok rows)
  | (ran1, Raise Neo4jError) => execute_read ran1 (fallback_cypher query limit)
  | (ran1, Raise e) => (ran1, Raise e)
  end.
End search.

End Search.

(** ** Sample records

    The records of the end-to-end scenario of the specification, and a few
    irregular ones. *)

Module Samples.

Definition acme : dict :=
  [("id", VStr "C1"); ("schema", VStr "Company");
   ("properties", VDict [("name", VList [VStr "Acme"])])].

Definition jane : dict :=
  [("id", VStr "P1"); ("schema", VStr "Person");
   ("properties", VDict [("name", VList [VStr "Jane"])])].

Definition d1 : dict :=
  [("id", VStr "D1"); ("schema", VStr "Directorship");
   ("properties", VDict [("director", VList [VStr "P1"]);
                         ("organization", VList [VStr "C1"])])].

Definition john : dict :=
  [("id", VStr "P2"); ("schema", VStr "Person");
   ("properties", VDict [("name", VList [VStr "John"])])].

(** A second directorship record with the identifier of [d1], of another
    director and from a dataset. *)
Definition d1_john : dict :=
  [("id", VStr "D1"); ("schema", VStr "Directorship");
   ("datasets", VList [VStr "register"]);
   ("properties", VDict [("director", VList [VStr "P2"]);
                         ("organization", VList [VStr "C1"])])].

(** The company of [acme] under another name. *)
Definition acme_renamed : dict :=
  [("id", VStr "C1"); ("schema", VStr "Company");
   ("properties", VDict [("name", VList [VStr "Acme Holding"])])].

(** The input of the end-to-end scenario. *)
Definition scenario : Reader.stream dict := ([acme; jane; d1], None).

(** The row of [d1], and a row whose director is not in the input. *)
Definition d1_row : Classifier.rel_row :=
  {| Classifier.rr_id := VStr "D1"; Classifier.rr_schema := VStr "Directorship";
     Classifier.rr_source_id := VStr "P1"; Classifier.rr_target_id := VStr "C1";
     Classifier.rr_datasets := VList []; Classifier.rr_modified_at := VNone |}.


(** The store with the two nodes of the scenario and no edge. *)
Definition two_nodes : Store.store :=
  {| Store.nodes :=
       [ {| Store.n_label := Store.Company; Store.n_ftm_id := VStr "C1";
            Store.n_schema := VStr "Company"; Store.n_name := VStr "Acme";
            Store.n_datasets := VList []; Store.n_modified_at := VNone |};
         {| Store.n_label := Store.Person; Store.n_ftm_id := VStr "P1";
            Store.n_schema := VStr "Person"; Store.n_name := VStr "Jane";
            Store.n_datasets := VList []; Store.n_modified_at := VNone |} ];
     Store.rels := [] |}.

(** A company whose name is a bare string, not a list. *)
Definition bare_name : dict :=
  [("id", VStr "C2"); ("schema", VStr "Company");
   ("properties", VDict [("name", VStr "Bare Ltd")])].

(** A directorship whose director is a bare string. *)
Definition bare_director : dict :=
  [("id", VStr "D2"); ("schema", VStr "Directorship");
   ("properties", VDict [("director", VStr "P1");
                         ("organization", VList [VStr "C1"])])].

(** Two rows of the 2-hop query for the same director: the first lacks
    the person's name, the second has it. *)
Definition row_nameless : Assembler.row :=
  {| Assembler.root_id := Some "C1"; Assembler.root_name := Some "Acme";
     Assembler.person_id := Some "P1"; Assembler.person_name := None;
     Assembler.other_company_id := None; Assembler.other_company_name := None;
     Assembler.role_to_root := Some "director"; Assembler.role_to_other := None |}.

Definition row_named : Assembler.row :=
  {| Assembler.root_id := Some "C1"; Assembler.root_name := Some "Acme";
     Assembler.person_id := Some "P1"; Assembler.person_name := Some "Jane";
     Assembler.other_company_id := None; Assembler.other_company_name := None;
     Assembler.role_to_root := Some "director"; Assembler.role_to_other := None |}.

(** A store without the fulltext index: the fulltext statement fails with a
    query error, the substring statement finds Acme. *)
Definition no_index (c : Search.statement) : result (list Search.hit) :=
  match c with
  | Search.fulltext_cypher _ _ => Raise Neo4jError
  | Search.fallback_cypher _ _ =>
      Ok [{| Search.h_id := VStr "C1"; Search.h_name := VStr "Acme";
             Search.h_score := VDecimal 0 (-1) |}]
  end.

End Samples.

(** ** A run over a file ([ingest.py], lines 253-287) *)

Module Run.
Import Classifier Store Reader Ingest.

(** The number of rows a write transaction carries. *)
Definition batch_len (w : write) : nat :=
  match w with
  | WNodes _ batch => length batch
  | WRels _ batch => length batch
  end.

(** The most rows a flush can find in a batch: [batch_size], and one when
    [batch_size] is below one. *)
Definition batch_cap (batch_size : Z) : nat := Z.to_nat (Z.max 1 batch_size).

(** A write with at least one row and at most [batch_cap] rows. *)
Definition sized (batch_size : Z) (w : write) : Prop :=
  (1 ≤ batch_len w ≤ batch_cap batch_size)%nat.

(** What the loop of a pass keeps: the writes so far are sized, and each
    of the two batches has room for a row. *)
Definition node_pass_sized (batch_size : Z) (s : node_pass (list write)) : Prop :=
  Forall (sized batch_size) (np_session s)
  ∧ (length (company_batch s) < batch_cap batch_size)%nat
  ∧ (length (person_batch s) < batch_cap batch_size)%nat.

Definition rel_pass_sized (batch_size : Z) (s : rel_pass (list write)) : Prop :=
  Forall (sized batch_size) (rp_session s)
  ∧ (length (directorship_batch s) < batch_cap batch_size)%nat
  ∧ (length (ownership_batch s) < batch_cap batch_size)%nat.

(** The rows of the writes so far and of the two batches all satisfy [P]. *)
Definition node_pass_from (P : label * node_row → Prop)
    (s : node_pass (list write)) : Prop :=
  Forall P (node_events (np_session s))
  ∧ Forall P (pair Company <$> company_batch s)
  ∧ Forall P (pair Person <$> person_batch s).

Definition rel_pass_from (P : rel_type * rel_row → Prop)
    (s : rel_pass (list write)) : Prop :=
  Forall P (rel_rows (rp_session s))
  ∧ Forall P (pair DIRECTORSHIP <$> directorship_batch s)
  ∧ Forall P (pair OWNERSHIP <$> ownership_batch s).

(** A record whose properties [prop_first] can read: a dict, or a missing
    or falsy entry. *)
Definition readable (entity : dict) : Prop := ∃ p, properties_are entity p.

(** The records either pass looks at. *)
Definition is_record (entity : dict) : bool :=
  is_node_record entity || is_edge_record entity.

Section main.
Variable ijson_items : list Byte.byte → string → bool → stream value.
Context {Sess : Type} `{Session Sess}.

(** [main] between [ensure_indexes] and [driver.close()]: the two passes,
    each reading the file through [iter_entities]. *)
Definition main (file : list Byte.byte) (batch_size : Z) (session : Sess)
  : Sess * result summary :=
  ingest (iter_entities ijson_items file) batch_size session.
End main.

End Run.

(** ** The assembled view ([graph_repository.py], lines 123-153) *)

Module View.
Import Assembler.

(** The identifier a call of [_add_node] registers, if any. *)
Definition sighted (s : option string * option string * node_type) : option string :=
  match s.1.1 with
  | Some i => if String.eqb i "" then None else Some i
  | None => None
  end.

(** A call of [_add_node] that finds its node there, and named unless the
    call brings no name either. *)
Definition settled (d : list (string * gnode))
    (s : option string * option string * node_type) : Prop :=
  match sighted s with
  | Some i =>
      ∃ g, od_get d i = Some g
           ∧ (nonempty (name g) = true ∨ nonempty s.1.2 = false)
  | None => True
  end.

End View.

(** ** The store as the read queries see it

    A property graph: nodes with labels and properties, relationships with
    a type, two end nodes (positions in the node list) and properties.  A
    property that is not set reads as null ([None]).  [of_store] is the
    graph the two bulk-upsert statements of [ingest.py] leave: one label
    per node, and on nodes and relationships the properties those
    statements write. *)

Module Graph.
Import Classifier Store.

Record pnode := PNode { p_labels : list string; p_props : dict }.

Record prel := PRel {
  e_type : string;
  e_src : nat;
  e_tgt : nat;
  e_props : dict
}.

Record graph := Graph { g_nodes : list pnode; g_rels : list prel }.

Definition label_name (l : label) : string :=
  match l with Company => "Company" | Person => "Person" end.

Definition type_name (ty : rel_type) : string :=
  match ty with DIRECTORSHIP => "DIRECTORSHIP" | OWNERSHIP => "OWNERSHIP" end.

Definition of_node (n : node) : pnode :=
  {| p_labels := [label_name (n_label n)];
     p_props := [("ftm_id", n_ftm_id n); ("schema", n_schema n);
                 ("name", n_name n); ("datasets", n_datasets n);
                 ("modified_at", n_modified_at n)] |}.

Definition of_rel (r : rel) : prel :=
  {| e_type := type_name (r_type r); e_src := r_src r; e_tgt := r_tgt r;
     e_props := [("ftm_id", r_ftm_id r); ("schema", r_schema r);
                 ("datasets", r_datasets r); ("modified_at", r_modified_at r)] |}.

Definition of_store (st : store) : graph :=
  {| g_nodes := of_node <$> nodes st; g_rels := of_rel <$> rels st |}.

End Graph.

(** ** The read queries ([graph_repository.py], lines 32-57 and 99-121)

    The rows come in the order of the node and relationship lists; the
    store promises no order, and nothing below depends on it beyond what
    [LIMIT] cuts off. *)

Module Repository.
Import Graph.

Record CompanyStaticDetails := Details {
  company_id : value;
  name : value;
  address : value
}.

(** [(c:Company {ftm_id: $id})] and [(p:Person)]. *)
Definition is_company (id : string) (n : pnode) : Prop :=
  "Company" ∈ p_labels n ∧ dict_get (p_props n) "ftm_id" = VStr id.

Definition is_person (n : pnode) : Prop := "Person" ∈ p_labels n.

#[global] Instance is_company_dec id n : Decision (is_company id n).
Proof. unfold is_company. apply _. Defined.

#[global] Instance is_person_dec n : Decision (is_person n).
Proof. unfold is_person. apply _. Defined.

(** [MATCH (c:Company {ftm_id: $id})]: the nodes found, with their
    positions. *)
Definition match_company (g : graph) (id : string) : list (nat * pnode) :=
  filter (λ x, is_company id x.2) (imap pair (g_nodes g)).

(** [coalesce(a, b)] and [head(l)] of Cypher; [head] of a value that is no
    list is a type error. *)
Definition coalesce_v (a b : value) : value :=
  match a with VNone => b | _ => a end.

Definition head_v (v : value) : result value :=
  match v with
  | VNone => Ok VNone
  | VList [] => Ok VNone
  | VList (x :: _) => Ok x
  | _ => Raise Neo4jError
  end.

(** [RETURN c.ftm_id AS company_id, c.name AS name,
    coalesce(c.address, head(coalesce(c.addresses, []))) AS address] *)
Definition details_record (c : pnode) : result CompanyStaticDetails :=
  a ← match dict_get (p_props c) "address" with
      | VNone => head_v (coalesce_v (dict_get (p_props c) "addresses") (VList []))
      | a => Ok a
      end;
  Ok {| company_id := dict_get (p_props c) "ftm_id";
        name := dict_get (p_props c) "name";
        address := a |}.

(** [get_company_details]: [LIMIT 1], [.single()], [if not row: return
    None]. *)
Definition get_company_details (g : graph) (id : string)
  : result (option CompanyStaticDetails) :=
  match match_company g id with
  | [] => Ok None
  | (_, c) :: _ => Some <$> details_record c
  end.

(** One record of [get_company_network]. *)
Record officer := Officer {
  o_name : value;
  o_role : value;
  o_start_date : value
}.

(** [MATCH (p:Person)-[r:DIRECTORSHIP]->(c:Company {ftm_id: $id})
    RETURN p.name AS name, r.role AS role, r.start_date AS start_date] *)
Definition get_company_network (g : graph) (id : string) : list officer :=
  r ← g_rels g;
  match g_nodes g !! e_src r, g_nodes g !! e_tgt r with
  | Some p, Some c =>
      if decide (e_type r = "DIRECTORSHIP" ∧ is_person p ∧ is_company id c)
      then [ {| o_name := dict_get (p_props p) "name";
                o_role := dict_get (e_props r) "role";
                o_start_date := dict_get (e_props r) "start_date" |} ]
      else []
  | _, _ => []
  end.

(** One record of the 2-hop query of [get_company_graph], as the store
    returns it. *)
Record vrow := VRow {
  v_root_id : value;
  v_root_name : value;
  v_person_id : value;
  v_person_name : value;
  v_other_company_id : value;
  v_other_company_name : value;
  v_role_to_root : value;
  v_role_to_other : value
}.

(** [a <> b] is true: neither is null and they differ. *)
Definition differs (a b : value) : Prop := a ≠ VNone ∧ b ≠ VNone ∧ a ≠ b.

#[global] Instance differs_dec a b : Decision (differs a b).
Proof. unfold differs. apply _. Defined.

(** [(p:Person)-[r1:DIRECTORSHIP]->(root)]: the person's position, the
    person and the relationship. *)
Definition directors (g : graph) (root : nat) : list (nat * pnode * prel) :=
  r ← g_rels g;
  match g_nodes g !! e_src r with
  | Some p =>
      if decide (e_type r = "DIRECTORSHIP" ∧ e_tgt r = root ∧ is_person p)
      then [(e_src r, p, r)] else []
  | None => []
  end.

(** [(p)-[r2:DIRECTORSHIP]->(c2:Company) WHERE c2 IS NULL OR c2.ftm_id <>
    root.ftm_id]; [c2] is not null in a match. *)
Definition other_companies (g : graph) (root : pnode) (p : nat)
  : list (prel * nat * pnode) :=
  r ← g_rels g;
  match g_nodes g !! e_tgt r with
  | Some c2 =>
      if decide (e_type r = "DIRECTORSHIP" ∧ e_src r = p
                 ∧ "Company" ∈ p_labels c2
                 ∧ differs (dict_get (p_props c2) "ftm_id")
                           (dict_get (p_props root) "ftm_id"))
      then [(r, e_tgt r, c2)] else []
  | None => []
  end.

Section graph_query.
(** [elementId(n)]: the store's own identifier of the node at a
    position. *)
Variable elementId : nat → string.

(** [coalesce(n.ftm_id, elementId(n))] *)
Definition node_id (i : nat) (n : pnode) : value :=
  coalesce_v (dict_get (p_props n) "ftm_id") (VStr (elementId i)).

(** The query: [MATCH] the root, [OPTIONAL MATCH] its directors, [OPTIONAL
    MATCH] the other companies of each, [LIMIT 500]. *)
Definition graph_query (g : graph) (id : string) : list vrow :=
  take 500
    (root ← match_company g id;
     d ← Store.optional_match (directors g root.1);
     o ← Store.optional_match
           (match d with
            | Some (p, _, _) => other_companies g root.2 p
            | None => []
            end);
     [ {| v_root_id := dict_get (p_props root.2) "ftm_id";
          v_root_name := dict_get (p_props root.2) "name";
          v_person_id :=
            match d with Some (i, p, _) => node_id i p | None => VNone end;
          v_person_name :=
            match d with
            | Some (_, p, _) => dict_get (p_props p) "name"
            | None => VNone
            end;
          v_other_company_id :=
            match o with Some (_, i, c2) => node_id i c2 | None => VNone end;
          v_other_company_name :=
            match o with
            | Some (_, _, c2) => dict_get (p_props c2) "name"
            | None => VNone
            end;
          v_role_to_root :=
            match d with
            | Some (_, _, r1) => dict_get (e_props r1) "role"
            | None => VNone
            end;
          v_role_to_other :=
            match o with
            | Some (r2, _, _) => dict_get (e_props r2) "role"
            | None => VNone
            end |} ]).

(** The assembler is modelled for rows of strings and nulls. *)
Definition textual (v : value) : Prop :=
  match v with VNone | VStr _ => True | _ => False end.

Definition text (v : value) : option string :=
  match v with VStr s => Some s | _ => None end.

(** A link of the star around the company [id]: it starts at a Person with
    a DIRECTORSHIP relationship to a Company node carrying [id], and ends
    at [id] with the role of that relationship, or at another Company the
    person has a DIRECTORSHIP relationship to, with the role of that
    one. *)
Definition star_link (g : graph) (id : string) (l : Assembler.link) : Prop :=
  ∃ r1 p root,
    r1 ∈ g_rels g ∧ e_type r1 = "DIRECTORSHIP"
    ∧ g_nodes g !! e_src r1 = Some p ∧ is_person p
    ∧ g_nodes g !! e_tgt r1 = Some root ∧ is_company id root
    ∧ node_id (e_src r1) p = VStr (Assembler.source l)
    ∧ ((Assembler.target l = id
        ∧ Assembler.role l
          = Assembler.or_none (text (dict_get (e_props r1) "role")))
       ∨ ∃ r2 c2,
           r2 ∈ g_rels g ∧ e_type r2 = "DIRECTORSHIP"
           ∧ e_src r2 = e_src r1
           ∧ g_nodes g !! e_tgt r2 = Some c2 ∧ "Company" ∈ p_labels c2
           ∧ node_id (e_tgt r2) c2 = VStr (Assembler.target l)
           ∧ Assembler.target l ≠ id
           ∧ Assembler.role l
             = Assembler.or_none (text (dict_get (e_props r2) "role"))).

(** The rows the assembler is modelled for. *)
Definition textual_row (r : vrow) : Prop :=
  textual (v_root_id r) ∧ textual (v_root_name r)
  ∧ textual (v_person_id r) ∧ textual (v_person_name r)
  ∧ textual (v_other_company_id r) ∧ textual (v_other_company_name r)
  ∧ textual (v_role_to_root r) ∧ textual (v_role_to_other r).

Definition to_row (r : vrow) : Assembler.row :=
  {| Assembler.root_id := text (v_root_id r);
     Assembler.root_name := text (v_root_name r);
     Assembler.person_id := text (v_person_id r);
     Assembler.person_name := text (v_person_name r);
     Assembler.other_company_id := text (v_other_company_id r);
     Assembler.other_company_name := text (v_other_company_name r);
     Assembler.role_to_root := text (v_role_to_root r);
     Assembler.role_to_other := text (v_role_to_other r) |}.

(** [get_company_graph] on a graph: the query, then the assembly. *)
Definition company_graph (g : graph) (id : string) : result Assembler.view :=
  Assembler.get_company_graph (Ok (to_row <$> graph_query g id)).

End graph_query.

End Repository.

(** ** Company status ([app/models/company.py],
    [app/services/status_provider.py])

    Strings are the UTF-8 encodings of Python's; [needle in s] and
    [s.endswith(suffix)] hold of the encodings when they hold of the
    strings.  The half second both providers sleep is left out. *)

Module Status.

Inductive CompanyStatus :=
| ACTIVE | INSOLVENT | LIQUIDATION | WARNING | UNKNOWN | DELETED.

(** [needle in s] *)
Fixpoint contains (needle s : string) : bool :=
  match s with
  | EmptyString => String.prefix needle s
  | String _ s' => String.prefix needle s || contains needle s'
  end.

(** [s.endswith(suffix)] *)
Fixpoint endswith (s suffix : string) : bool :=
  match s with
  | EmptyString => String.eqb s suffix
  | String _ s' => String.eqb s suffix || endswith s' suffix
  end.

(** [x or ""] for an optional string. *)
Definition or_empty (x : option string) : string := default "" x.

Module MockStatusProvider.
(** [casefold] is [str.casefold]. *)
Definition check_status (casefold : string → string)
    (company_id name : option string) : CompanyStatus :=
  let normalized_name := casefold (or_empty name) in
  if contains "insolvenz" normalized_name then INSOLVENT
  else if contains "liquidation" normalized_name
          || contains "abwicklung" normalized_name then LIQUIDATION
  else if contains "löschung" normalized_name
          || contains "loeschung" normalized_name then DELETED
  else if endswith (or_empty company_id) "9" then WARNING
  else ACTIVE.
End MockStatusProvider.

Module NorthDataStatusProvider.
Definition check_status (company_id name : option string) : CompanyStatus :=
  UNKNOWN.
End NorthDataStatusProvider.

(** [needle] occurs in [s]. *)
Definition occurs (needle s : string) : Prop :=
  ∃ before after, s = before +:+ needle +:+ after.

End Status.

(** ** Indexes and the two search statements ([ingest.py], lines 140-152;
    [graph_repository.py], lines 59-79) *)

Module Database.
Import Graph Repository Search.

(** A database: its graph and the names of its indexes. *)
Record database := Database { db_graph : graph; db_indexes : gset string }.

(** [ensure_indexes]: [CREATE INDEX <name> IF NOT EXISTS] for the two
    indexes on [ftm_id]. *)
Definition ensure_indexes (db : database) : database :=
  {| db_graph := db_graph db;
     db_indexes := {[ "person_ftm_id"; "company_ftm_id" ]} ∪ db_indexes db |}.

(** The score [0.0]. *)
Definition zero_score : value := VDecimal 0 (-1).

Section statements.
(** [toLower] of Cypher on strings, and the answer of the fulltext index
    over company names to a query. *)
Variable toLower : string → string.
Variable query_nodes : graph → string → Z → result (list hit).

(** [MATCH (c:Company) WHERE toLower(c.name) CONTAINS toLower($q)
    RETURN c.ftm_id AS id, c.name AS name, 0.0 AS score]; a name that is
    null fails the test, one that is no string is a type error. *)
Definition substring_hit (q : string) (c : pnode) : result (list hit) :=
  if decide ("Company" ∈ p_labels c) then
    match dict_get (p_props c) "name" with
    | VStr nm =>
        Ok (if Status.contains (toLower q) (toLower nm)
            then [ {| h_id := dict_get (p_props c) "ftm_id";
                      h_name := VStr nm; h_score := zero_score |} ]
            else [])
    | VNone => Ok []
    | _ => Raise Neo4jError
    end
  else Ok [].

Fixpoint substring_hits (q : string) (cs : list pnode) : result (list hit) :=
  match cs with
  | [] => Ok []
  | c :: cs =>
      hs ← substring_hit q c;
      rest ← substring_hits q cs;
      Ok (hs ++ rest)
  end.

(** What the database answers to the statements of [search_companies]:
    [db.index.fulltext.queryNodes("companyNameIndex", ...)] is a query
    error when there is no index of that name. *)
Definition store_read (db : database) (c : statement) : result (list hit) :=
  match c with
  | fulltext_cypher q limit =>
      if decide ("companyNameIndex" ∈ db_indexes db)
      then query_nodes (db_graph db) q limit
      else Raise Neo4jError
  | fallback_cypher q limit =>
      take (Z.to_nat limit) <$> substring_hits q (g_nodes (db_graph db))
  end.
End statements.

End Database.

(** ** Wiring ([app/dependencies.py], [graph_repository.py], lines 15-25
    and 155-157) *)

Module Dependencies.

(** [os.getenv] *)
Definition environ := string → option string.

Inductive provider := MockStatusProvider | NorthDataStatusProvider.

Section env.
(** [str.strip] and [str.lower]. *)
Variables strip lower : string → string.

Definition _env_truthy (env : environ) (name : string) (default : bool) : bool :=
  match env name with
  | None => default
  | Some raw => bool_decide (lower (strip raw) ∈ ["1"; "true"; "yes"; "y"; "on"])
  end.

Definition get_status_provider (env : environ) : provider :=
  if _env_truthy env "USE_MOCK_DATA" true then MockStatusProvider
  else NorthDataStatusProvider.
End env.







End Dependencies.

(** ** Routes ([app/routers/companies.py]) *)

Module Router.
Import Graph Repository Status.

Record CompanyCheckResponse := Response {
  r_company_id : string;
  r_name : string;
  r_address : option string;
  r_status : CompanyStatus
}.

(** What a route answers: a body, an [HTTPException], or the failure any
    other exception ends in. *)
Inductive reply (A : Type) : Type :=
| Reply (a : A)
| HTTPException (status_code : Z) (detail : string)
| InternalError.
Arguments Reply {A} a.
Arguments HTTPException {A} status_code detail.
Arguments InternalError {A}.

Definition check_status (casefold : string → string) (p : Dependencies.provider)
    (company_id name : option string) : CompanyStatus :=
  match p with
  | Dependencies.MockStatusProvider =>
      MockStatusProvider.check_status casefold company_id name
  | Dependencies.NorthDataStatusProvider =>
      NorthDataStatusProvider.check_status company_id name
  end.

(** [live_check_company], for names and addresses that are strings or
    null.  [CompanyCheckResponse] declares [name: str]: the model class
    refuses a null name. *)
Definition live_check_company (casefold : string → string) (g : graph)
    (p : Dependencies.provider) (id : string) : reply CompanyCheckResponse :=
  match get_company_details g id with
  | Raise _ => InternalError
  | Ok None => HTTPException 404 "Company not found"
  | Ok (Some details) =>
      let status := check_status casefold p (Some id) (text (name details)) in
      match name details with
      | VStr n =>
          Reply {| r_company_id := id; r_name := n;
                   r_address := text (address details); r_status := status |}
      | _ => InternalError
      end
  end.

(** [get_company_network] *)
Definition network (g : graph) (id : string) : string * list officer :=
  (id, get_company_network g id).

(** The two mock datasets of [/hr-ai-mock]. *)
Inductive dataset := ororatech_data | hochtief_data.

(** [itertools.cycle(items)] after [n] calls of [next]: the items are
    handed out in turn, over and over. *)
Definition cycle_next {A} (items : list A) (n : nat) : option A * nat :=
  (items !! (n mod length items), S n).

(** [get_handelsregister_ai_mock]: the next item of the cycle the module
    creates when it is loaded, whatever the identifier. *)
Definition get_handelsregister_ai_mock (id : string) (calls : nat)
  : option dataset * nat :=
  cycle_next [ororatech_data; hochtief_data] calls.

(** The answers to a sequence of requests. *)
Fixpoint mock_replies (ids : list string) (calls : nat) : list (option dataset) :=
  match ids with
  | [] => []
  | id :: ids =>
      let '(r, calls) := get_handelsregister_ai_mock id calls in
      r :: mock_replies ids calls
  end.

End Router.

(** ** Sample graph

    The store the end-to-end scenario leaves, as the read queries see it,
    and a stand-in for [elementId]. *)

Module Examples.

Definition acme_graph : Graph.graph :=
  Graph.of_store (Ingest.ingest Samples.scenario 5000 Store.empty).1.

Definition element_id (i : nat) : string := "4:company-radar:0".

(** A stand-in for [str.casefold], [str.lower] and [str.strip] in examples:
    ASCII letters to lower case, and nothing stripped. *)
Definition ascii_lower (s : string) : string :=
  String.string_of_list_ascii
    (List.map (λ c, let n := Ascii.nat_of_ascii c in
                    if (65 <=? n)%nat && (n <=? 90)%nat
                    then Ascii.ascii_of_nat (n + 32) else c)
              (String.list_ascii_of_string s)).

(** Rows of the 2-hop query for one director of Acme: as director, as
    owner, as director again, without a role, with an empty role, and a
    row without a person. *)
Definition role_row (person role : option string) : Assembler.row :=
  {| Assembler.root_id := Some "C1"; Assembler.root_name := Some "Acme";
     Assembler.person_id := person; Assembler.person_name := None;
     Assembler.other_company_id := None; Assembler.other_company_name := None;
     Assembler.role_to_root := role; Assembler.role_to_other := None |}.

Definition role_rows : list Assembler.row :=
  [role_row (Some "P1") (Some "director"); role_row (Some "P1") (Some "owner");
   role_row (Some "P1") (Some "director"); role_row (Some "P1") None;
   role_row (Some "P1") (Some ""); role_row None (Some "director")].

(** A stand-in decoder whose values tell the mode it was called in. *)
Definition mode_items (file : list Byte.byte) (prefix : string)
    (multiple_values : bool) : Reader.stream value :=
  if multiple_values
  then ([VDict [("mode", VStr "values"); ("prefix", VStr prefix)]; VStr "x"], None)
  else ([VInt 7; VDict [("mode", VStr "array"); ("prefix", VStr prefix)]], None).

(** A Company record whose properties are a string, and one whose name is
    a number. *)
Definition text_properties : dict :=
  [("id", VStr "C3"); ("schema", VStr "Company"); ("properties", VStr "x")].


End Examples.

(** * Properties *)

(** ** Upserts

    Facts about [MERGE ... SET ...] that hold for nodes and relationships
    alike: [SET] leaves the key alone, a created element has the key of its
    row, and a later [SET] overwrites an earlier one entirely. *)

Section merge_set_facts.
Context {E A K : Type} `{EqDecision K}.
Variables (ekey : E → K) (akey : A → K) (set : E → A → A) (new : E → A).
Hypothesis set_key : ∀ e a, akey (set e a) = akey a.
Hypothesis new_key : ∀ e, akey (new e) = ekey e.
Hypothesis set_set : ∀ e e' a, set e (set e' a) = set e a.

Local Abbreviation is_hit := (hit ekey akey).
Local Abbreviation step := (set_if_hit ekey akey set).
Local Abbreviation upsert := (merge_set ekey akey set new).
Local Abbreviation final := (set_all ekey akey set).

Lemma hit_iff e a : is_hit e a = true ↔ akey a = ekey e.
Proof. unfold hit. by rewrite bool_decide_eq_true. Qed.

Lemma step_key e a : akey (step e a) = akey a.
Proof. unfold set_if_hit. by destruct (is_hit e a). Qed.

Lemma existsb_hit l e : existsb (is_hit e) l = true ↔ ekey e ∈ akey <$> l.
Proof.
  rewrite existsb_exists, list_elem_of_fmap. split.
  - intros (a & Ha%list_elem_of_In & Hh%hit_iff). eauto.
  - intros (a & Hk & Ha%list_elem_of_In). exists a. by rewrite hit_iff.
Qed.

Lemma step_keys e (l : list A) : akey <$> (step e <$> l) = akey <$> l.
Proof.
  rewrite <- list_fmap_compose. apply list_fmap_ext. intros _ a _. apply step_key.
Qed.

Lemma upsert_covered l e : ekey e ∈ akey <$> l → upsert l e = step e <$> l.
Proof. intros Hc%existsb_hit. unfold merge_set. by rewrite Hc. Qed.

Lemma upsert_fresh l e :
  ekey e ∉ akey <$> l → upsert l e = l ++ [set e (new e)].
Proof.
  intros Hc. unfold merge_set.
  destruct (existsb (is_hit e) l) eqn:Hex; [|done].
  by apply existsb_hit in Hex.
Qed.

Lemma upsert_keys l e k :
  k ∈ akey <$> upsert l e ↔ k ∈ akey <$> l ∨ k = ekey e.
Proof.
  destruct (decide (ekey e ∈ akey <$> l)) as [Hc|Hc].
  - rewrite upsert_covered, step_keys by done. naive_solver.
  - rewrite upsert_fresh by done.
    rewrite fmap_app, elem_of_app. simpl.
    by rewrite list_elem_of_singleton, set_key, new_key.
Qed.

Lemma foldl_upsert_keys es l k :
  k ∈ akey <$> foldl upsert l es ↔ k ∈ akey <$> l ∨ k ∈ ekey <$> es.
Proof.
  revert l. induction es as [|e es IH]; intros l; simpl.
  - rewrite elem_of_nil. naive_solver.
  - rewrite IH, upsert_keys, elem_of_cons. naive_solver.
Qed.

Lemma final_cons e es a : final (e :: es) a = final es (step e a).
Proof. reflexivity. Qed.

Lemma final_key es a : akey (final es a) = akey a.
Proof.
  revert a. induction es as [|e es IH]; intros a; [done|].
  by rewrite final_cons, IH, step_key.
Qed.

Lemma set_step e e' a : set e (step e' a) = set e a.
Proof. unfold set_if_hit. destruct (is_hit e' a); [apply set_set|done]. Qed.

Lemma set_final e es a : set e (final es a) = set e a.
Proof.
  revert a. induction es as [|e' es IH]; intros a; [done|].
  by rewrite final_cons, IH, set_step.
Qed.

Lemma final_snoc es e a : final (es ++ [e]) a = step e (final es a).
Proof. unfold set_all. by rewrite foldl_app. Qed.

Lemma final_app es1 es2 a : final (es1 ++ es2) a = final es2 (final es1 a).
Proof. unfold set_all. by rewrite foldl_app. Qed.

Lemma final_no_hit es a : (∀ e, e ∈ es → ekey e ≠ akey a) → final es a = a.
Proof.
  revert a. induction es as [|e es IH]; intros a Hes; [done|].
  rewrite final_cons. unfold set_if_hit.
  destruct (is_hit e a) eqn:Hh.
  - apply hit_iff in Hh. destruct (Hes e); [apply elem_of_cons; by left|done].
  - apply IH. intros e' He'. apply Hes, elem_of_cons. by right.
Qed.

Lemma foldl_upsert_covered es l :
  (∀ e, e ∈ es → ekey e ∈ akey <$> l) → foldl upsert l es = final es <$> l.
Proof.
  revert l. induction es as [|e es IH]; intros l Hes; simpl.
  - by rewrite list_fmap_id.
  - rewrite upsert_covered by (apply Hes, elem_of_cons; by left).
    rewrite IH.
    + rewrite <- list_fmap_compose. apply list_fmap_ext. by intros _ a _.
    + intros e' He'. rewrite step_keys. apply Hes, elem_of_cons. by right.
Qed.

(** Every element of the list is as the upserts that hit it leave it. *)
Lemma final_fixed es l a : a ∈ foldl upsert l es → final es a = a.
Proof.
  revert a. induction es as [|e es IH] using rev_ind; intros a; [done|].
  rewrite foldl_app, final_snoc. simpl.
  destruct (decide (ekey e ∈ akey <$> foldl upsert l es)) as [Hc|Hc].
  - rewrite upsert_covered by done.
    intros (a' & -> & Ha')%list_elem_of_fmap. specialize (IH _ Ha').
    unfold set_if_hit at 2 3. destruct (is_hit e a') eqn:Hh.
    + apply hit_iff in Hh. unfold set_if_hit.
      rewrite (proj2 (hit_iff _ _)) by (by rewrite final_key, set_key).
      by rewrite set_final, set_set.
    + rewrite IH. unfold set_if_hit. by rewrite Hh.
  - rewrite upsert_fresh by done.
    intros [Ha|Ha%list_elem_of_singleton]%elem_of_app.
    + rewrite (IH _ Ha). unfold set_if_hit.
      destruct (is_hit e a) eqn:Hh; [|done].
      apply hit_iff in Hh. destruct Hc. rewrite <- Hh.
      apply list_elem_of_fmap. eauto.
    + subst a. rewrite final_no_hit.
      * unfold set_if_hit. rewrite (proj2 (hit_iff _ _)); [apply set_set|].
        by rewrite set_key, new_key.
      * intros e' He' Hk. rewrite set_key, new_key in Hk. apply Hc.
        rewrite foldl_upsert_keys. right. rewrite <- Hk.
        apply list_elem_of_fmap. eauto.
Qed.

(** Upserting the same rows again changes nothing. *)
Lemma foldl_upsert_idem es l :
  foldl upsert (foldl upsert l es) es = foldl upsert l es.
Proof.
  rewrite foldl_upsert_covered.
  - rewrite <- (list_fmap_id (foldl upsert l es)) at 2.
    apply list_fmap_ext. intros i a Ha. simpl.
    eapply final_fixed, list_elem_of_lookup_2, Ha.
  - intros e He. apply foldl_upsert_keys. right.
    apply list_elem_of_fmap. eauto.
Qed.

(** An element carries what the last row with its key set. *)
Lemma last_hit_wins es1 e es2 l a :
  a ∈ foldl upsert l (es1 ++ e :: es2) →
  akey a = ekey e →
  (∀ e', e' ∈ es2 → ekey e' ≠ ekey e) →
  set e a = a.
Proof.
  intros Ha Hk Hes2. pose proof (final_fixed _ _ _ Ha) as Hfix.
  rewrite final_app, final_cons in Hfix.
  rewrite final_no_hit in Hfix.
  - unfold set_if_hit in Hfix. rewrite (proj2 (hit_iff _ _)) in Hfix.
    + rewrite <- Hfix at 1. by rewrite set_set.
    + by rewrite final_key.
  - intros e' He'. rewrite step_key, final_key, Hk. by apply Hes2.
Qed.

(** No key is stored twice unless it was before. *)
Lemma foldl_upsert_NoDup es l :
  NoDup (akey <$> l) → NoDup (akey <$> foldl upsert l es).
Proof.
  revert l. induction es as [|e es IH]; intros l Hl; [done|].
  simpl. apply IH.
  destruct (decide (ekey e ∈ akey <$> l)) as [Hc|Hc].
  - by rewrite upsert_covered, step_keys.
  - rewrite upsert_fresh, fmap_app by done. apply NoDup_app. split_and!; [done|..].
    + intros k Hk [->|[]%elem_of_nil]%elem_of_cons.
      by rewrite set_key, new_key in Hk.
    + apply NoDup_singleton.
Qed.

(** The last row with a given key, when some row has it. *)
Lemma last_with_key es k :
  k ∈ ekey <$> es →
  ∃ es1 e es2, es = es1 ++ e :: es2 ∧ ekey e = k ∧ ∀ e', e' ∈ es2 → ekey e' ≠ k.
Proof.
  induction es as [|e es IH]; [by intros ?%elem_of_nil|].
  rewrite fmap_cons. intros Hk.
  destruct (decide (k ∈ ekey <$> es)) as [Hin|Hnin].
  - destruct (IH Hin) as (es1 & e' & es2 & -> & He' & Hes2).
    by exists (e :: es1), e', es2.
  - apply elem_of_cons in Hk as [->|Hk]; [|done].
    exists [], e, es. split_and!; [done..|].
    intros e' He' Hk. apply Hnin. rewrite <- Hk. apply list_elem_of_fmap. eauto.
Qed.

(** *** Reordering the rows

    What follows needs one more fact: [MERGE] creates an element from the
    key of the row alone. *)

Hypothesis new_ext : ∀ e e', ekey e = ekey e' → new e = new e'.

(** An element is as the last row with its key sets it. *)
Lemma final_last es a :
  final es a =
    match last (filter (λ e, ekey e = akey a) es) with
    | Some e => set e a
    | None => a
    end.
Proof.
  induction es as [|e es IH] using rev_ind; [done|].
  rewrite final_snoc, filter_app. unfold set_if_hit.
  destruct (is_hit e (final es a)) eqn:Hh.
  - apply hit_iff in Hh. rewrite final_key in Hh.
    rewrite (filter_cons_True _ e) by done.
    by rewrite filter_nil, last_snoc, set_final.
  - assert (ekey e ≠ akey a) as Hne.
    { intros Hk. rewrite <- (final_key es a) in Hk.
      symmetry in Hk. apply hit_iff in Hk. congruence. }
    rewrite (filter_cons_False _ e) by done.
    by rewrite filter_nil, app_nil_r.
Qed.

Lemma final_same_order es es' a :
  (∀ k, filter (λ e, ekey e = k) es = filter (λ e, ekey e = k) es') →
  final es a = final es' a.
Proof. intros Hf. by rewrite !final_last, Hf. Qed.

(** The elements after the upserts: those that were there, as the rows
    leave them, and one for each key that was not. *)
Lemma elem_of_foldl_upsert es l a :
  a ∈ foldl upsert l es ↔
    (∃ a0, a0 ∈ l ∧ a = final es a0)
    ∨ (∃ e, e ∈ es ∧ (ekey e ∉ akey <$> l) ∧ a = final es (new e)).
Proof.
  revert a. induction es as [|e es IH] using rev_ind; intros a.
  { simpl. split; [left; eauto|].
    intros [(a0 & Ha0 & ->)|(e & []%elem_of_nil & _)]. done. }
  rewrite foldl_app. simpl.
  assert (∀ a', a' ∈ foldl upsert l es →
                ekey e ∉ akey <$> foldl upsert l es → step e a' = a') as Hmiss.
  { intros a' Ha' Hc. unfold set_if_hit.
    destruct (is_hit e a') eqn:Hh; [|done].
    apply hit_iff in Hh. destruct Hc. rewrite <- Hh. apply list_elem_of_fmap. eauto. }
  assert (ekey e ∉ akey <$> foldl upsert l es → final es (new e) = new e) as Hnew.
  { intros Hc. apply final_no_hit. intros e' He' Hk. apply Hc.
    rewrite foldl_upsert_keys. right. rewrite <- (new_key e), <- Hk.
    apply list_elem_of_fmap. eauto. }
  assert (step e (new e) = set e (new e)) as Hstep.
  { unfold set_if_hit. by rewrite (proj2 (hit_iff _ _)) by apply new_key. }
  destruct (decide (ekey e ∈ akey <$> foldl upsert l es)) as [Hc|Hc].
  - rewrite upsert_covered by done. rewrite list_elem_of_fmap. split.
    + intros (a' & -> & [(a0 & Ha0 & ->)|(e1 & He1 & Hk1 & ->)]%IH).
      * left. exists a0. by rewrite final_snoc.
      * right. exists e1. rewrite final_snoc.
        split_and!; [apply elem_of_app; by left|done..].
    + intros [(a0 & Ha0 & ->)|(e1 & He1 & Hk1 & ->)]; rewrite final_snoc.
      * eexists. split; [done|]. apply IH. eauto.
      * apply elem_of_app in He1 as [He1|He1%list_elem_of_singleton]; [|subst e1].
        -- eexists. split; [done|]. apply IH. eauto.
        -- apply foldl_upsert_keys in Hc as [Hc|Hc]; [done|].
           apply list_elem_of_fmap in Hc as (e0 & Hk0 & He0).
           rewrite (new_ext e e0 Hk0).
           eexists. split; [done|]. apply IH. right. exists e0.
           split_and!; [done| |done]. by rewrite <- Hk0.
  - rewrite upsert_fresh by done. rewrite elem_of_app, list_elem_of_singleton.
    assert (ekey e ∉ akey <$> l) as Hl.
    { intros Hin. apply Hc, foldl_upsert_keys. by left. }
    split.
    + intros [Ha| ->].
      * pose proof (Hmiss a Ha Hc) as Hs.
        apply IH in Ha as [(a0 & Ha0 & ->)|(e1 & He1 & Hk1 & ->)].
        -- left. exists a0. by rewrite final_snoc.
        -- right. exists e1. rewrite final_snoc.
           split_and!; [apply elem_of_app; by left|done..].
      * right. exists e. rewrite final_snoc, Hnew, Hstep by done.
        split_and!; [apply elem_of_app; right; by apply list_elem_of_singleton|done..].
    + intros [(a0 & Ha0 & ->)|(e1 & He1 & Hk1 & ->)]; rewrite final_snoc.
      * assert (final es a0 ∈ foldl upsert l es) as Hin by (apply IH; eauto).
        left. by rewrite Hmiss.
      * apply elem_of_app in He1 as [He1|He1%list_elem_of_singleton]; [|subst e1].
        -- assert (final es (new e1) ∈ foldl upsert l es) as Hin
             by (apply IH; eauto).
           left. by rewrite Hmiss.
        -- right. by rewrite Hnew, Hstep.
Qed.

(** The elements that were there keep their places. *)
Lemma lookup_foldl_upsert es l i a0 :
  l !! i = Some a0 → foldl upsert l es !! i = Some (final es a0).
Proof.
  revert l a0. induction es as [|e es IH]; intros l a0 Hi; [done|].
  rewrite final_cons. simpl. apply IH.
  destruct (decide (ekey e ∈ akey <$> l)) as [Hc|Hc].
  - rewrite upsert_covered by done. by rewrite list_lookup_fmap, Hi.
  - rewrite upsert_fresh by done.
    rewrite lookup_app_l by (by eapply lookup_lt_Some).
    rewrite Hi. f_equal. unfold set_if_hit.
    destruct (is_hit e a0) eqn:Hh; [|done].
    apply hit_iff in Hh. destruct Hc. rewrite <- Hh.
    apply list_elem_of_fmap. exists a0. split; [done|by eapply list_elem_of_lookup_2].
Qed.

(** An element beyond them has a key none of them had. *)
Lemma lookup_foldl_upsert_new es l i a :
  foldl upsert l es !! i = Some a → (length l ≤ i)%nat → akey a ∉ akey <$> l.
Proof.
  revert l. induction es as [|e es IH]; intros l Hi Hlen.
  { simpl in Hi. apply lookup_lt_Some in Hi. lia. }
  simpl in Hi.
  destruct (decide (ekey e ∈ akey <$> l)) as [Hc|Hc].
  - rewrite upsert_covered in Hi by done.
    apply IH in Hi; [|by rewrite length_fmap]. by rewrite step_keys in Hi.
  - rewrite upsert_fresh in Hi by done.
    destruct (decide (i = length l)) as [->|Hne].
    + erewrite lookup_foldl_upsert in Hi; last first.
      { rewrite lookup_app_r, Nat.sub_diag by done. done. }
      injection Hi as <-. by rewrite final_key, set_key, new_key.
    + apply IH in Hi; [|rewrite length_app; simpl; lia].
      intros Hin. apply Hi. rewrite fmap_app. apply elem_of_app. by left.
Qed.

(** A reordering that keeps the rows of each key in their order leaves the
    same elements. *)
Lemma foldl_upsert_same_order es es' l a :
  (∀ k, filter (λ e, ekey e = k) es = filter (λ e, ekey e = k) es') →
  a ∈ foldl upsert l es → a ∈ foldl upsert l es'.
Proof.
  intros Hf. rewrite !elem_of_foldl_upsert.
  intros [(a0 & Ha0 & ->)|(e & He & Hk & ->)].
  - left. exists a0. split; [done|]. by apply final_same_order.
  - right. exists e. split_and!; [|done|by apply final_same_order].
    assert (e ∈ filter (λ e', ekey e' = ekey e) es) as Hin
      by by apply list_elem_of_filter.
    rewrite Hf in Hin. by apply list_elem_of_filter in Hin as [_ ?].
Qed.

End merge_set_facts.

(** ** Record classifier *)

Module ClassifierFacts.
Import Classifier Store Ingest.

Lemma eq_str_true v s : eq_str v s = true → v = VStr s.
Proof.
  destruct v; simpl; try discriminate.
  intros H. apply String.eqb_eq in H. by subst.
Qed.

Lemma prop_first_ok entity p key :
  properties_are entity p → prop_first entity key = Ok (first_value p key).
Proof.
  unfold properties_are, prop_first, first_value. intros ->.
  destruct (dict_get p key) as [| | | | |[|x l]|]; reflexivity.
Qed.

Lemma prop_first_raises entity :
  (∀ p, ¬ properties_are entity p) → ∀ key, prop_first entity key = Raise AttributeError.
Proof.
  unfold properties_are, prop_first. intros H key.
  destruct (py_or _ _) as [| | | | | |p]; try reflexivity.
  by destruct (H p).
Qed.

Lemma first_value_no_first p key :
  no_first (dict_get p key) → first_value p key = VNone.
Proof.
  unfold first_value, no_first.
  by destruct (dict_get p key) as [| | | | |[|x l]|].
Qed.
Lemma eq_str_other v s s' : eq_str v s = true → s ≠ s' → eq_str v s' = false.
Proof.
  intros H%eq_str_true Hne. subst v. simpl.
  by apply String.eqb_neq.
Qed.

Lemma to_rel_row_directorship entity p :
  properties_are entity p →
  eq_str (dict_get entity "schema") "Directorship" = true →
  to_rel_row entity =
    Ok (let s := first_value p "director" in
        let t := first_value p "organization" in
        if truthy s && truthy t then Some (DIRECTORSHIP, edge_row_of entity s t)
        else None).
Proof.
  intros Hp H. unfold to_rel_row. rewrite H.
  rewrite !(prop_first_ok _ _ _ Hp). simpl.
  destruct (truthy (first_value p "director")),
           (truthy (first_value p "organization")); reflexivity.
Qed.

Lemma to_rel_row_ownership entity p :
  properties_are entity p →
  eq_str (dict_get entity "schema") "Ownership" = true →
  to_rel_row entity =
    Ok (let s := first_value p "owner" in
        let t := first_value p "asset" in
        if truthy s && truthy t then Some (OWNERSHIP, edge_row_of entity s t)
        else None).
Proof.
  intros Hp H. unfold to_rel_row. rewrite H.
  rewrite (eq_str_other _ _ "Directorship" H) by done.
  rewrite !(prop_first_ok _ _ _ Hp). simpl.
  destruct (truthy (first_value p "owner")),
           (truthy (first_value p "asset")); reflexivity.
Qed.

(** The classifier on a record whose properties [prop_first] can read. *)
Lemma classifier_readable {Sess : Type} {session : Session Sess} (entity p : dict) :
  properties_are entity p →
  let schema := dict_get entity "schema" in
  let datasets := py_or (dict_get entity "datasets") (VList []) in
  let modified_at :=
    py_or (dict_get entity "modifiedAt") (dict_get entity "modified_at") in
  let edge_row s t :=
    {| rr_id := dict_get entity "id"; rr_schema := schema;
       rr_source_id := s; rr_target_id := t;
       rr_datasets := datasets; rr_modified_at := modified_at |} in
  (eq_str schema "Company" || eq_str schema "Person" = true →
     to_node_row entity =
       Ok {| nr_id := dict_get entity "id"; nr_schema := schema;
             nr_name := first_value p "name";
             nr_datasets := datasets; nr_modified_at := modified_at |}
     ∧ to_rel_row entity = Ok None
     ∧ (truthy (dict_get entity "id") = false →
        ∀ batch_size (s : node_pass Sess), import_nodes_step batch_size s entity = Ok s))
  ∧ (eq_str schema "Directorship" = true →
     to_rel_row entity =
       Ok (let s := first_value p "director" in
           let t := first_value p "organization" in
           if truthy s && truthy t then Some (DIRECTORSHIP, edge_row s t)
           else None)
     ∧ ∀ batch_size (s : node_pass Sess), import_nodes_step batch_size s entity = Ok s)
  ∧ (eq_str schema "Ownership" = true →
     to_rel_row entity =
       Ok (let s := first_value p "owner" in
           let t := first_value p "asset" in
           if truthy s && truthy t then Some (OWNERSHIP, edge_row s t)
           else None)
     ∧ ∀ batch_size (s : node_pass Sess), import_nodes_step batch_size s entity = Ok s)
  ∧ (eq_str schema "Company" || eq_str schema "Person"
       || eq_str schema "Directorship" || eq_str schema "Ownership" = false →
     to_rel_row entity = Ok None
     ∧ ∀ batch_size (s : node_pass Sess), import_nodes_step batch_size s entity = Ok s).
Proof.
  intros Hp. cbn zeta. split_and!.
  - intros Hs. split_and!.
    + unfold to_node_row. by rewrite (prop_first_ok _ _ _ Hp).
    + unfold to_rel_row.
      apply orb_true_iff in Hs as [Hs|Hs];
        by rewrite (eq_str_other _ _ "Directorship" Hs),
                   (eq_str_other _ _ "Ownership" Hs).
    + intros Hid bs s. unfold import_nodes_step. rewrite Hs. simpl.
      unfold to_node_row. rewrite (prop_first_ok _ _ _ Hp). simpl.
      by rewrite Hid.
  - intros Hs. split; [by apply to_rel_row_directorship|].
    intros bs s. unfold import_nodes_step.
    by rewrite (eq_str_other _ _ "Company" Hs), (eq_str_other _ _ "Person" Hs).
  - intros Hs. split; [by apply to_rel_row_ownership|].
    intros bs s. unfold import_nodes_step.
    by rewrite (eq_str_other _ _ "Company" Hs), (eq_str_other _ _ "Person" Hs).
  - intros Hs. apply orb_false_iff in Hs as [Hs H4].
    apply orb_false_iff in Hs as [Hs H3]. split.
    + unfold to_rel_row. by rewrite H3, H4.
    + intros bs s. unfold import_nodes_step. by rewrite Hs.
Qed.

(** C5 (as amended) — the classifier is a function of the schema
    discriminator on the records whose [properties] entry is an object, or
    is missing or falsy: a Company or Person record becomes a node row
    whose name is the first value of its [name] property (nothing when
    there is none) and is dropped without an error when its identifier is
    missing; a Directorship record becomes a DIRECTORSHIP edge row from the
    first [director] to the first [organization]; an Ownership record an
    OWNERSHIP edge row from the first [owner] to the first [asset]; any
    other schema, and an edge record with a missing endpoint, gives no
    row.  It is not total: on a record of one of the four schemas whose
    [properties] entry is any other value (a string, a number, a list) it
    raises [AttributeError], in the pass that reads the record; a record of
    another schema is passed over whatever its properties are.  Every
    record is of one kind or the other. *)
Theorem classifier_by_schema {Sess : Type} {session : Session Sess} (entity : dict) :
  let schema := dict_get entity "schema" in
  let datasets := py_or (dict_get entity "datasets") (VList []) in
  let modified_at :=
    py_or (dict_get entity "modifiedAt") (dict_get entity "modified_at") in
  let edge_row s t :=
    {| rr_id := dict_get entity "id"; rr_schema := schema;
       rr_source_id := s; rr_target_id := t;
       rr_datasets := datasets; rr_modified_at := modified_at |} in
  ((∃ p, properties_are entity p) ∨ (∀ p, ¬ properties_are entity p))
  ∧ (∀ p, properties_are entity p →
     (eq_str schema "Company" || eq_str schema "Person" = true →
        to_node_row entity =
          Ok {| nr_id := dict_get entity "id"; nr_schema := schema;
                nr_name := first_value p "name";
                nr_datasets := datasets; nr_modified_at := modified_at |}
        ∧ to_rel_row entity = Ok None
        ∧ (truthy (dict_get entity "id") = false →
           ∀ batch_size (s : node_pass Sess),
             import_nodes_step batch_size s entity = Ok s))
     ∧ (eq_str schema "Directorship" = true →
        to_rel_row entity =
          Ok (let s := first_value p "director" in
              let t := first_value p "organization" in
              if truthy s && truthy t then Some (DIRECTORSHIP, edge_row s t)
              else None)
        ∧ ∀ batch_size (s : node_pass Sess),
            import_nodes_step batch_size s entity = Ok s)
     ∧ (eq_str schema "Ownership" = true →
        to_rel_row entity =
          Ok (let s := first_value p "owner" in
              let t := first_value p "asset" in
              if truthy s && truthy t then Some (OWNERSHIP, edge_row s t)
              else None)
        ∧ ∀ batch_size (s : node_pass Sess),
            import_nodes_step batch_size s entity = Ok s)
     ∧ (eq_str schema "Company" || eq_str schema "Person"
          || eq_str schema "Directorship" || eq_str schema "Ownership" = false →
        to_rel_row entity = Ok None
        ∧ ∀ batch_size (s : node_pass Sess),
            import_nodes_step batch_size s entity = Ok s))
  ∧ ((∀ p, ¬ properties_are entity p) →
     to_node_row entity = Raise AttributeError
     ∧ (eq_str schema "Company" || eq_str schema "Person" = true →
        to_rel_row entity = Ok None
        ∧ ∀ batch_size (s : node_pass Sess),
            import_nodes_step batch_size s entity = Raise AttributeError)
     ∧ (eq_str schema "Directorship" || eq_str schema "Ownership" = true →
        to_rel_row entity = Raise AttributeError
        ∧ (∀ batch_size (s : node_pass Sess),
             import_nodes_step batch_size s entity = Ok s)
        ∧ ∀ batch_size (s : rel_pass Sess),
            import_relationships_step batch_size s entity = Raise AttributeError)
     ∧ (eq_str schema "Company" || eq_str schema "Person"
          || eq_str schema "Directorship" || eq_str schema "Ownership" = false →
        to_rel_row entity = Ok None
        ∧ (∀ batch_size (s : node_pass Sess),
             import_nodes_step batch_size s entity = Ok s)
        ∧ ∀ batch_size (s : rel_pass Sess),
            import_relationships_step batch_size s entity = Ok s)).
Proof.
  cbn zeta. split_and!.
  - unfold properties_are.
    destruct (py_or _ _) as [| | | | | |p]; try (right; intros ? ?; done).
    left. by exists p.
  - intros p Hp. apply (classifier_readable entity p Hp).
  - intros Hnot. pose proof (prop_first_raises entity Hnot) as Hraise.
    assert (to_node_row entity = Raise AttributeError) as Hnode
      by (unfold to_node_row; by rewrite Hraise).
    split_and!; [done|..].
    + intros Hs. split.
      * unfold to_rel_row.
        apply orb_true_iff in Hs as [Hs|Hs];
          by rewrite (eq_str_other _ _ "Directorship" Hs),
                     (eq_str_other _ _ "Ownership" Hs).
      * intros bs s. unfold import_nodes_step. rewrite Hs. simpl.
        by rewrite Hnode.
    + intros Hs.
      assert (to_rel_row entity = Raise AttributeError) as Hrel.
      { unfold to_rel_row. rewrite !Hraise.
        by destruct (eq_str _ "Directorship"), (eq_str _ "Ownership"). }
      split_and!; [done|..].
      * intros bs s. unfold import_nodes_step.
        apply orb_true_iff in Hs as [Hs|Hs];
          by rewrite (eq_str_other _ _ "Company" Hs),
                     (eq_str_other _ _ "Person" Hs).
      * intros bs s. unfold import_relationships_step. rewrite Hs. simpl.
        by rewrite Hrel.
    + intros Hs. apply orb_false_iff in Hs as [Hs H4].
      apply orb_false_iff in Hs as [Hs H3]. split_and!.
      * unfold to_rel_row. by rewrite H3, H4.
      * intros bs s. unfold import_nodes_step. by rewrite Hs.
      * intros bs s. unfold import_relationships_step. by rewrite H3, H4.
Qed.

Lemma classifier_by_schema_witness :
  to_rel_row Samples.d1 =
    Ok (Some (DIRECTORSHIP,
              {| rr_id := VStr "D1"; rr_schema := VStr "Directorship";
                 rr_source_id := VStr "P1"; rr_target_id := VStr "C1";
                 rr_datasets := VList []; rr_modified_at := VNone |}))
  ∧ to_node_row Examples.text_properties = Raise AttributeError.
Proof.
  split.
  - pose proof (classifier_by_schema (Sess := store) Samples.d1) as (_ & Hr & _).
    destruct (Hr [("director", VList [VStr "P1"]);
                  ("organization", VList [VStr "C1"])] eq_refl) as (_ & Hd & _).
    exact (proj1 (Hd eq_refl)).
  - pose proof (classifier_by_schema (Sess := store) Examples.text_properties)
      as (_ & _ & Hn).
    refine (proj1 (Hn _)). intros p Hp. discriminate Hp.
Defined.

(** A Company record whose properties are a string: the classifier gives
    neither a row nor nothing but raises, and the run ends there, the
    record before it still in its batch. *)
Lemma non_object_properties_raise :
  to_node_row Examples.text_properties = Raise AttributeError
  ∧ ingest ([Samples.acme; Examples.text_properties], None) 5000 Store.empty
    = (Store.empty, Raise AttributeError).
Proof. split; reflexivity. Qed.

(** C10 — a property that is not a non-empty list has no first value:
    [prop_first] returns nothing for it; so a node record with a scalar
    [name] gets a row without a name, and an edge record with a scalar
    endpoint property gets no row. *)
Theorem scalar_property_is_absent (entity p : dict) :
  properties_are entity p →
  (∀ key, no_first (dict_get p key) → prop_first entity key = Ok VNone)
  ∧ (no_first (dict_get p "name") →
     ∃ row, to_node_row entity = Ok row ∧ nr_name row = VNone)
  ∧ (eq_str (dict_get entity "schema") "Directorship" = true →
     no_first (dict_get p "director") ∨ no_first (dict_get p "organization") →
     to_rel_row entity = Ok None)
  ∧ (eq_str (dict_get entity "schema") "Ownership" = true →
     no_first (dict_get p "owner") ∨ no_first (dict_get p "asset") →
     to_rel_row entity = Ok None).
Proof.
  intros Hp. split_and!.
  - intros key Hk. by rewrite (prop_first_ok _ _ _ Hp), first_value_no_first.
  - intros Hk. unfold to_node_row.
    rewrite (prop_first_ok _ _ _ Hp), first_value_no_first by done.
    eexists. split; reflexivity.
  - intros Hs Hk.
    rewrite (to_rel_row_directorship _ _ Hp Hs). cbn zeta.
    destruct Hk as [Hk|Hk]; rewrite (first_value_no_first _ _ Hk); simpl;
      [done | by rewrite andb_false_r].
  - intros Hs Hk.
    rewrite (to_rel_row_ownership _ _ Hp Hs). cbn zeta.
    destruct Hk as [Hk|Hk]; rewrite (first_value_no_first _ _ Hk); simpl;
      [done | by rewrite andb_false_r].
Qed.

Lemma scalar_property_is_absent_witness :
  (∃ row, to_node_row Samples.bare_name = Ok row ∧ nr_name row = VNone)
  ∧ to_rel_row Samples.bare_director = Ok None.
Proof.
  split.
  - refine (proj1 (proj2 (scalar_property_is_absent Samples.bare_name
              [("name", VStr "Bare Ltd")] eq_refl)) _).
    exact I.
  - refine (proj1 (proj2 (proj2 (scalar_property_is_absent Samples.bare_director
              [("director", VStr "P1"); ("organization", VList [VStr "C1"])]
              eq_refl))) eq_refl _).
    left. exact I.
Defined.

End ClassifierFacts.

(** ** Every session sees the same writes *)

Module SessionFacts.
Import Classifier Store Ingest.

Section replay.
Context {Sess : Type} {session : Session Sess}.
Variable (s0 : Sess).

Lemma replay_snoc log w : replay (log ++ [w]) s0 = run (replay log s0) w.
Proof. unfold replay. by rewrite foldl_app. Qed.

Lemma replay_app log1 log2 : replay (log1 ++ log2) s0 = replay log2 (replay log1 s0).
Proof. unfold replay. by rewrite foldl_app. Qed.

Lemma flush_nodes_replay log l batch :
  flush_nodes (replay log s0) l batch =
    (replay (flush_nodes log l batch).1 s0, (flush_nodes log l batch).2).
Proof. destruct batch; simpl; [done|]. by rewrite replay_snoc. Qed.

Lemma flush_rels_replay log ty batch :
  flush_rels (replay log s0) ty batch =
    (replay (flush_rels log ty batch).1 s0, (flush_rels log ty batch).2).
Proof. destruct batch; simpl; [done|]. by rewrite replay_snoc. Qed.

Lemma import_nodes_step_replay bs sl entity :
  import_nodes_step bs (np_replay s0 sl) entity =
    np_replay s0 <$> import_nodes_step bs sl entity.
Proof.
  unfold import_nodes_step.
  destruct (negb _); [done|].
  destruct (to_node_row entity) as [row|e]; simpl; [|done].
  destruct (negb _); [done|].
  destruct (eq_str _ "Company");
    (destruct (_ <=? _)%Z; simpl; [|done]);
    rewrite flush_nodes_replay;
    by destruct (flush_nodes _ _ _).
Qed.

Lemma import_nodes_loop_replay bs entities sl :
  import_nodes_loop bs entities (np_replay s0 sl) =
    (replay (import_nodes_loop bs entities sl).1 s0,
     np_replay s0 <$> (import_nodes_loop bs entities sl).2).
Proof.
  revert sl. induction entities as [|entity rest IH]; intros sl; [done|].
  simpl. rewrite import_nodes_step_replay.
  destruct (import_nodes_step bs sl entity) as [sl'|e]; simpl; [apply IH|done].
Qed.

Lemma import_nodes_replay entities bs log :
  import_nodes entities (replay log s0) bs =
    (replay (import_nodes entities log bs).1 s0, (import_nodes entities log bs).2).
Proof.
  unfold import_nodes.
  pose proof (import_nodes_loop_replay bs entities.1
    {| np_session := log; company_batch := []; person_batch := [];
       companies := 0; persons := 0 |}) as Hloop.
  unfold np_replay at 1 in Hloop. simpl in Hloop. rewrite Hloop. clear Hloop.
  destruct (import_nodes_loop _ _ _) as [log' [sl|e]]; simpl; [|done].
  destruct entities.2; [done|].
  rewrite flush_nodes_replay. destruct (flush_nodes log' _ _) as [log1 ?]. simpl.
  rewrite flush_nodes_replay. by destruct (flush_nodes log1 _ _).
Qed.

Lemma import_relationships_step_replay bs sl entity :
  import_relationships_step bs (rp_replay s0 sl) entity =
    rp_replay s0 <$> import_relationships_step bs sl entity.
Proof.
  unfold import_relationships_step.
  destruct (negb _); [done|].
  destruct (to_rel_row entity) as [[[ty row]|]|e]; simpl; [|done..].
  destruct (negb _); [done|].
  destruct ty;
    (destruct (_ <=? _)%Z; simpl; [|done]);
    rewrite flush_rels_replay;
    by destruct (flush_rels _ _ _).
Qed.

Lemma import_relationships_loop_replay bs entities sl :
  import_relationships_loop bs entities (rp_replay s0 sl) =
    (replay (import_relationships_loop bs entities sl).1 s0,
     rp_replay s0 <$> (import_relationships_loop bs entities sl).2).
Proof.
  revert sl. induction entities as [|entity rest IH]; intros sl; [done|].
  simpl. rewrite import_relationships_step_replay.
  destruct (import_relationships_step bs sl entity) as [sl'|e]; simpl;
    [apply IH|done].
Qed.

Lemma import_relationships_replay entities bs log :
  import_relationships entities (replay log s0) bs =
    (replay (import_relationships entities log bs).1 s0,
     (import_relationships entities log bs).2).
Proof.
  unfold import_relationships.
  pose proof (import_relationships_loop_replay bs entities.1
    {| rp_session := log; directorship_batch := []; ownership_batch := [];
       directorships := 0; ownerships := 0 |}) as Hloop.
  unfold rp_replay at 1 in Hloop. simpl in Hloop. rewrite Hloop. clear Hloop.
  destruct (import_relationships_loop _ _ _) as [log' [sl|e]]; simpl; [|done].
  destruct entities.2; [done|].
  rewrite flush_rels_replay. destruct (flush_rels log' _ _) as [log1 ?]. simpl.
  rewrite flush_rels_replay. by destruct (flush_rels log1 _ _).
Qed.

End replay.

(** Replaying on a recording session appends. *)
Lemma replay_log (log log0 : list write) : replay log log0 = log0 ++ log.
Proof.
  revert log0. induction log as [|w log IH]; intros log0; simpl.
  - by rewrite app_nil_r.
  - unfold replay in *. simpl. rewrite IH. destruct w; simpl; by rewrite <- app_assoc.
Qed.

(** A pass on any session is the replay of its writes. *)
Lemma import_nodes_writes {Sess} `{Session Sess} entities bs (s0 : Sess) :
  import_nodes entities s0 bs =
    (replay (node_writes entities bs) s0,
     (import_nodes entities ([] : list write) bs).2).
Proof. apply (import_nodes_replay s0 entities bs []). Qed.

Lemma import_relationships_writes {Sess} `{Session Sess} entities bs (s0 : Sess) :
  import_relationships entities s0 bs =
    (replay (rel_writes entities bs) s0,
     (import_relationships entities ([] : list write) bs).2).
Proof. apply (import_relationships_replay s0 entities bs []). Qed.

(** The record of a run: the writes of pass 1, then, unless pass 1 raised,
    those of pass 2. *)
Lemma writes_eq entities bs :
  writes entities bs =
    node_writes entities bs ++
    match (import_nodes entities ([] : list write) bs).2 with
    | Ok _ => rel_writes entities bs
    | Raise _ => []
    end.
Proof.
  unfold writes, ingest, node_writes.
  destruct (import_nodes entities [] bs) as [nlog [ns|e]]; simpl.
  - rewrite (import_relationships_writes entities bs nlog), replay_log.
    by destruct (import_relationships entities [] bs).2.
  - by rewrite app_nil_r.
Qed.

(** A run on any session is the replay of its writes, and reports what the
    recording run reports. *)
Lemma ingest_writes {Sess} `{Session Sess} entities bs (s0 : Sess) :
  ingest entities bs s0 =
    (replay (writes entities bs) s0, (ingest entities bs ([] : list write)).2).
Proof.
  rewrite writes_eq. unfold ingest at 1 2.
  rewrite (import_nodes_writes entities bs s0).
  fold (node_writes entities bs).
  destruct (import_nodes entities [] bs) as [nlog [ns|e]] eqn:Hn; simpl.
  - rewrite (import_relationships_writes entities bs (replay _ s0)).
    rewrite (import_relationships_writes entities bs nlog).
    rewrite replay_app.
    by destruct (import_relationships entities [] bs).2.
  - by rewrite app_nil_r.
Qed.

End SessionFacts.

(** ** Lists: the last element of a kind, and splitting a bind *)

Section last_such.
Context {A : Type} (Q : A → Prop) `{∀ x, Decision (Q x)}.

Lemma filter_none (l : list A) : Forall (λ y, ¬ Q y) l → filter Q l = [].
Proof.
  induction 1 as [|y l Hy _ IH]; [done|]. by rewrite filter_cons_False.
Qed.

Lemma last_such_unique l1 x l2 l1' x' l2' :
  l1 ++ x :: l2 = l1' ++ x' :: l2' →
  Q x → Q x' →
  Forall (λ y, ¬ Q y) l2 → Forall (λ y, ¬ Q y) l2' →
  x = x'.
Proof.
  intros Heq Hx Hx' Hl2 Hl2'.
  apply (f_equal (λ l, last (filter Q l))) in Heq.
  rewrite !filter_app in Heq.
  rewrite (filter_cons_True _ x), (filter_cons_True _ x') in Heq by done.
  rewrite (filter_none l2), (filter_none l2') in Heq by done.
  rewrite !last_snoc in Heq. by injection Heq.
Qed.

Lemma last_such_split (l : list A) :
  Forall (λ y, ¬ Q y) l
  ∨ ∃ l1 x l2, l = l1 ++ x :: l2 ∧ Q x ∧ Forall (λ y, ¬ Q y) l2.
Proof.
  induction l as [|y l [IH|(l1 & x & l2 & -> & Hx & Hl2)]].
  - left. constructor.
  - destruct (decide (Q y)) as [Hy|Hy].
    + right. by exists [], y, l.
    + left. by constructor.
  - right. by exists (y :: l1), x, l2.
Qed.
End last_such.

Lemma bind_split {A B} (f : A → list B) (l : list A) es1 e es2 :
  l ≫= f = es1 ++ e :: es2 →
  ∃ l1 x l2 t1 t2,
    l = l1 ++ x :: l2 ∧ f x = t1 ++ e :: t2
    ∧ es1 = (l1 ≫= f) ++ t1 ∧ es2 = t2 ++ (l2 ≫= f).
Proof.
  revert es1. induction l as [|x l IH]; intros es1.
  - by destruct es1.
  - rewrite bind_cons. intros [(k & Hfx & Hk)|(k & Hes1 & Hk)]%app_eq_inv.
    + destruct k as [|e' k].
      * simpl in Hk. symmetry in Hk.
        destruct (IH [] Hk) as (l1 & y & l2 & t1 & t2 & -> & Hfy & Ht1 & ->).
        exists (x :: l1), y, l2, t1, t2. rewrite bind_cons.
        rewrite app_nil_r in Hfx. subst es1.
        split_and!; [done..| |done].
        by rewrite <- app_assoc, <- Ht1, app_nil_r.
      * injection Hk as <- ->.
        exists [], x, l, es1, k. by split_and!.
    + destruct (IH k Hk) as (l1 & y & l2 & t1 & t2 & -> & Hfy & -> & ->).
      exists (x :: l1), y, l2, t1, t2. rewrite bind_cons, Hes1.
      split_and!; [done..| |done]. by rewrite <- app_assoc.
Qed.

(** ** The two statements on the store *)

Module StoreFacts.
Import Classifier Store Ingest.

Lemma node_set_key e n : node_key (node_set e n) = node_key n.
Proof. reflexivity. Qed.

Lemma node_new_key e : node_key (node_new e) = row_key e.
Proof. reflexivity. Qed.

Lemma node_set_set e e' n : node_set e (node_set e' n) = node_set e n.
Proof. reflexivity. Qed.

Lemma rel_set_key e r : rel_key (rel_set e r) = rel_key r.
Proof. by destruct e as [[[??]?]?]. Qed.

Lemma rel_new_key e : rel_key (rel_new e) = table_key e.
Proof. by destruct e as [[[??]?]?]. Qed.

Lemma rel_set_set e e' r : rel_set e (rel_set e' r) = rel_set e r.
Proof. by destruct e as [[[??]?]?], e' as [[[??]?]?]. Qed.

Lemma merge_node_idem evs ns :
  foldl merge_node (foldl merge_node ns evs) evs = foldl merge_node ns evs.
Proof.
  apply (foldl_upsert_idem row_key node_key node_set node_new);
    [apply node_set_key|apply node_new_key|apply node_set_set].
Qed.

Lemma merge_rel_idem evs rs :
  foldl merge_rel (foldl merge_rel rs evs) evs = foldl merge_rel rs evs.
Proof.
  apply (foldl_upsert_idem table_key rel_key rel_set rel_new);
    [apply rel_set_key|apply rel_new_key|apply rel_set_set].
Qed.

(** Node writes change the nodes only, by upserting their rows in order. *)
Lemma replay_node_writes log (st : store) :
  Forall (λ w, is_node_write w = true) log →
  replay log st =
    {| nodes := foldl merge_node (nodes st) (node_events log); rels := rels st |}.
Proof.
  intros Hlog. revert st. induction Hlog as [|w log Hw _ IH]; intros st.
  - by destruct st.
  - destruct w as [l batch|]; [|done].
    change (replay (WNodes l batch :: log) st)
      with (replay log (NODE_CYPHER l batch st)).
    rewrite IH. unfold node_events. rewrite bind_cons, foldl_app. done.
Qed.

(** Relationship writes change the relationships only, by upserting the
    rows that resolve among the nodes, in order. *)
Lemma replay_rel_writes log (st : store) :
  Forall (λ w, is_node_write w = false) log →
  replay log st =
    {| nodes := nodes st;
       rels := foldl merge_rel (rels st) (rel_events (nodes st) log) |}.
Proof.
  intros Hlog. revert st. induction Hlog as [|w log Hw _ IH]; intros st.
  - by destruct st.
  - destruct w as [|ty batch]; [done|].
    change (replay (WRels ty batch :: log) st)
      with (replay log (REL_CYPHER ty batch st)).
    rewrite IH. unfold rel_events. rewrite bind_cons, foldl_app. done.
Qed.

(** *** Endpoint lookup *)

Lemma elem_of_match_nodes l id ns i :
  i ∈ match_nodes l id ns ↔ ∃ n, ns !! i = Some n ∧ node_key n = (l, id).
Proof.
  unfold match_nodes. rewrite list_elem_of_omap. split.
  - intros ([j n] & Hin & Hsome). simpl in Hsome.
    case_bool_decide; [|done]. injection Hsome as ->.
    apply elem_of_lookup_imap in Hin as (j & n' & [= -> ->] & Hj). eauto.
  - intros (n & Hi & Hk). exists (i, n). split.
    + by apply (elem_of_lookup_imap_2 pair).
    + simpl. by rewrite bool_decide_eq_true_2.
Qed.

Lemma match_nodes_none l id ns :
  (∀ n, n ∈ ns → n_ftm_id n ≠ id) → match_nodes l id ns = [].
Proof.
  intros Hns. apply elem_of_nil_inv. intros i (n & Hi & Hk)%elem_of_match_nodes.
  apply (Hns n); [by eapply list_elem_of_lookup_2|].
  by injection Hk.
Qed.

Lemma elem_of_optional_match {A} (found : list A) (o : option A) :
  o ∈ optional_match found ↔
    match o with Some x => x ∈ found | None => found = [] end.
Proof.
  destruct found as [|y found].
  - simpl. rewrite list_elem_of_singleton. destruct o; [|done].
    split; [done|by intros ?%elem_of_nil].
  - unfold optional_match.
    rewrite (list_elem_of_fmap Some (y :: found) o). destruct o as [x|].
    + split; [by intros (? & [= ->] & ?)|eauto].
    + split; [by intros (? & ? & ?)|done].
Qed.

Lemma elem_of_endpoint ns id (o : option nat) :
  o ∈ endpoint ns id ↔
    match o with
    | Some i => i ∈ match_nodes Person id ns
                ∨ (match_nodes Person id ns = [] ∧ i ∈ match_nodes Company id ns)
    | None => match_nodes Person id ns = [] ∧ match_nodes Company id ns = []
    end.
Proof.
  unfold endpoint. rewrite list_elem_of_bind. split.
  - intros (p & (c & ->%list_elem_of_singleton & Hc%elem_of_optional_match)
              %list_elem_of_bind & Hp%elem_of_optional_match).
    destruct p as [p|], c as [c|]; simpl; auto.
  - destruct o as [i|].
    + intros [Hi|[Hnone Hi]].
      * exists (Some i). split; [|by apply elem_of_optional_match].
        apply list_elem_of_bind.
        destruct (match_nodes Company id ns) as [|c cs] eqn:Hc.
        -- exists None. split; [by apply list_elem_of_singleton|].
           by apply elem_of_optional_match.
        -- exists (Some c). split; [by apply list_elem_of_singleton|].
           apply elem_of_optional_match. apply elem_of_cons. by left.
      * exists None. split; [|by apply elem_of_optional_match].
        apply list_elem_of_bind. exists (Some i).
        split; [by apply list_elem_of_singleton|by apply elem_of_optional_match].
    + intros [Hp Hc]. exists None. split; [|by apply elem_of_optional_match].
      apply list_elem_of_bind. exists None.
      split; [by apply list_elem_of_singleton|by apply elem_of_optional_match].
Qed.

Lemma elem_of_rel_table_iff ty ns row e :
  e ∈ rel_table ty ns row ↔
    ∃ s t, e = (ty, row, s, t)
           ∧ Some s ∈ endpoint ns (rr_source_id row)
           ∧ Some t ∈ endpoint ns (rr_target_id row).
Proof.
  unfold rel_table. rewrite list_elem_of_bind. split.
  - intros (src & (tgt & He & Ht)%list_elem_of_bind & Hs).
    destruct src as [s|], tgt as [t|]; try by apply elem_of_nil in He.
    apply list_elem_of_singleton in He. eauto.
  - intros (s & t & -> & Hs & Ht). exists (Some s). split; [|done].
    apply list_elem_of_bind. exists (Some t). split; [|done].
    by apply list_elem_of_singleton.
Qed.

(** An endpoint that is found is a node with the identifier looked for. *)
Lemma endpoint_is_node ns id i :
  Some i ∈ endpoint ns id → ∃ n, ns !! i = Some n ∧ n_ftm_id n = id.
Proof.
  intros [Hi|[_ Hi]]%elem_of_endpoint;
    apply elem_of_match_nodes in Hi as (n & Hn & [= _ Hid]); eauto.
Qed.


End StoreFacts.

(** ** What the two passes write *)

Module PassFacts.
Import Classifier Store Ingest.

Section rows_for.
Context {L R : Type} `{EqDecision L}.
Implicit Types (l : L) (evs : list (L * R)).

Lemma rows_for_app l evs1 evs2 :
  rows_for l (evs1 ++ evs2) = rows_for l evs1 ++ rows_for l evs2.
Proof. unfold rows_for. by rewrite omap_app. Qed.

Lemma rows_for_cons l e evs :
  rows_for l (e :: evs) =
    (if decide (e.1 = l) then [e.2] else []) ++ rows_for l evs.
Proof. unfold rows_for. simpl. by destruct (decide _). Qed.

Lemma rows_for_same l (rows : list R) : rows_for l (pair l <$> rows) = rows.
Proof.
  induction rows as [|r rows IH]; [done|].
  rewrite fmap_cons, rows_for_cons, IH. simpl. by rewrite decide_True.
Qed.

Lemma rows_for_other l l' (rows : list R) :
  l' ≠ l → rows_for l (pair l' <$> rows) = [].
Proof.
  intros Hne. induction rows as [|r rows IH]; [done|].
  rewrite fmap_cons, rows_for_cons, IH. simpl. by rewrite decide_False.
Qed.

Lemma elem_of_rows_for l evs r : r ∈ rows_for l evs ↔ (l, r) ∈ evs.
Proof.
  unfold rows_for. rewrite list_elem_of_omap. split.
  - intros ([l' r'] & He & Hr). simpl in Hr. case_decide; [|done].
    by simplify_eq.
  - intros He. exists (l, r). split; [done|]. simpl. by rewrite decide_True.
Qed.
End rows_for.

Lemma node_events_app log1 log2 :
  node_events (log1 ++ log2) = node_events log1 ++ node_events log2.
Proof. unfold node_events. by rewrite bind_app. Qed.

Lemma rel_rows_app log1 log2 : rel_rows (log1 ++ log2) = rel_rows log1 ++ rel_rows log2.
Proof. unfold rel_rows. by rewrite bind_app. Qed.

Lemma rel_events_app ns log1 log2 :
  rel_events ns (log1 ++ log2) = rel_events ns log1 ++ rel_events ns log2.
Proof. unfold rel_events. by rewrite bind_app. Qed.

(** *** Pass 1 *)

Lemma flush_nodes_log log l batch :
  let log' := (flush_nodes log l batch).1 in
  let batch' := (flush_nodes log l batch).2 in
  (Forall (λ w, is_node_write w = true) log →
   Forall (λ w, is_node_write w = true) log')
  ∧ rel_rows log' = rel_rows log
  ∧ rows_for l (node_events log') ++ batch' = rows_for l (node_events log) ++ batch
  ∧ (∀ l', l' ≠ l → rows_for l' (node_events log') = rows_for l' (node_events log))
  ∧ batch' = [].
Proof.
  destruct batch as [|row batch]; simpl; [done|].
  rewrite node_events_app, rel_rows_app. simpl. rewrite !app_nil_r.
  split_and!; [|done|..|done].
  - intros Hlog. apply Forall_app. split; [done|]. by repeat constructor.
  - rewrite rows_for_app. f_equal. apply (rows_for_same l (row :: batch)).
  - intros l' Hne. rewrite rows_for_app.
    rewrite <- (app_nil_r (rows_for l' (node_events log))) at 2. f_equal.
    by apply (rows_for_other l' l (row :: batch)).
Qed.

(** What one iteration of pass 1 does to the sent and pending rows. *)
Lemma import_nodes_step_log bs (sl : node_pass (list write)) entity :
  match import_nodes_step bs sl entity with
  | Ok sl' =>
      let ev := option_list (node_row_of entity) in
      (Forall (λ w, is_node_write w = true) (np_session sl) →
       Forall (λ w, is_node_write w = true) (np_session sl'))
      ∧ rel_rows (np_session sl') = rel_rows (np_session sl)
      ∧ rows_for Company (node_events (np_session sl')) ++ company_batch sl'
        = rows_for Company (node_events (np_session sl)) ++ company_batch sl
          ++ rows_for Company ev
      ∧ rows_for Person (node_events (np_session sl')) ++ person_batch sl'
        = rows_for Person (node_events (np_session sl)) ++ person_batch sl
          ++ rows_for Person ev
      ∧ companies sl' = companies sl + length (rows_for Company ev)
      ∧ persons sl' = persons sl + length (rows_for Person ev)
  | Raise _ => True
  end.
Proof.
  unfold import_nodes_step, node_row_of.
  destruct (eq_str _ "Company" || eq_str _ "Person") eqn:Hschema; simpl;
    [|by rewrite !app_nil_r, !Nat.add_0_r].
  destruct (to_node_row entity) as [row|e]; simpl; [|done].
  destruct (truthy (nr_id row)); simpl;
    [|by rewrite !app_nil_r, !Nat.add_0_r].
  destruct (eq_str _ "Company") eqn:Hc.
  - pose proof (flush_nodes_log (np_session sl) Company (company_batch sl ++ [row]))
      as (Hw & Hr & Hsame & Hother & _).
    destruct (_ <=? _)%Z; simpl.
    + destruct (flush_nodes _ _ _) as [log' batch']. simpl in *.
      rewrite Hsame, (Hother Person) by done.
      rewrite !app_nil_r, Nat.add_0_r, Nat.add_1_r, app_assoc. done.
    + rewrite !app_nil_r, Nat.add_0_r, Nat.add_1_r, app_assoc. done.
  - pose proof (flush_nodes_log (np_session sl) Person (person_batch sl ++ [row]))
      as (Hw & Hr & Hsame & Hother & _).
    destruct (_ <=? _)%Z; simpl.
    + destruct (flush_nodes _ _ _) as [log' batch']. simpl in *.
      rewrite Hsame, (Hother Company) by done.
      rewrite !app_nil_r, Nat.add_0_r, Nat.add_1_r, app_assoc. done.
    + rewrite !app_nil_r, Nat.add_0_r, Nat.add_1_r, app_assoc. done.
Qed.

Lemma omap_cons_list {A B} (f : A → option B) x (l : list A) :
  omap f (x :: l) = option_list (f x) ++ omap f l.
Proof. simpl. by destruct (f x). Qed.

Lemma import_nodes_loop_log bs entities (sl : node_pass (list write)) :
  let r := import_nodes_loop bs entities sl in
  let evs := omap node_row_of entities in
  (Forall (λ w, is_node_write w = true) (np_session sl) →
   Forall (λ w, is_node_write w = true) r.1)
  ∧ rel_rows r.1 = rel_rows (np_session sl)
  ∧ match r.2 with
    | Ok sl' =>
        np_session sl' = r.1
        ∧ rows_for Company (node_events r.1) ++ company_batch sl'
          = rows_for Company (node_events (np_session sl)) ++ company_batch sl
            ++ rows_for Company evs
        ∧ rows_for Person (node_events r.1) ++ person_batch sl'
          = rows_for Person (node_events (np_session sl)) ++ person_batch sl
            ++ rows_for Person evs
        ∧ companies sl' = companies sl + length (rows_for Company evs)
        ∧ persons sl' = persons sl + length (rows_for Person evs)
    | Raise _ => True
    end.
Proof.
  revert sl. induction entities as [|entity rest IH]; intros sl; cbn zeta.
  - simpl. by rewrite !app_nil_r, !Nat.add_0_r.
  - simpl import_nodes_loop.
    pose proof (import_nodes_step_log bs sl entity) as Hstep.
    destruct (import_nodes_step bs sl entity) as [sl1|e]; [|done].
    destruct Hstep as (Hw & Hr & Hc & Hp & Hnc & Hnp).
    destruct (IH sl1) as (Hw' & Hr' & Hrest). cbn zeta in *.
    split_and!; [by auto|congruence|].
    destruct (import_nodes_loop bs rest sl1).2 as [sl2|e]; [|done].
    destruct Hrest as (Hs & Hc' & Hp' & Hnc' & Hnp').
    rewrite omap_cons_list, !rows_for_app, !length_app.
    rewrite Hc', Hp', Hnc', Hnp'.
    rewrite (app_assoc _ (company_batch sl1)), Hc.
    rewrite (app_assoc _ (person_batch sl1)), Hp.
    rewrite <- !app_assoc. split_and!; [done..|lia|lia].
Qed.

(** The writes of pass 1: node writes only, and, when the pass ends
    without an exception, every accepted row of each kind, in the order of
    the input. *)
Lemma import_nodes_log entities bs :
  Forall (λ w, is_node_write w = true) (node_writes entities bs)
  ∧ rel_rows (node_writes entities bs) = []
  ∧ ∀ counts, (import_nodes entities ([] : list write) bs).2 = Ok counts →
      let evs := omap node_row_of entities.1 in
      (∀ l, rows_for l (node_events (node_writes entities bs)) = rows_for l evs)
      ∧ counts = (length (rows_for Company evs), length (rows_for Person evs)).
Proof.
  unfold node_writes, import_nodes.
  pose proof (import_nodes_loop_log bs entities.1
    {| np_session := []; company_batch := []; person_batch := [];
       companies := 0; persons := 0 |}) as (Hw & Hr & Hok).
  cbn zeta in *. simpl in Hw, Hr, Hok.
  destruct (import_nodes_loop _ _ _) as [log [sl|e]]; simpl in *;
    [|by split_and!; [auto|..]].
  destruct Hok as (Hs & Hc & Hp & Hnc & Hnp).
  destruct entities.2; simpl; [by split_and!; [auto|..]|].
  pose proof (flush_nodes_log log Company (company_batch sl))
    as (Hw1 & Hr1 & Hsame1 & Hother1 & Hb1).
  destruct (flush_nodes log Company _) as [log1 b1]. simpl in *.
  pose proof (flush_nodes_log log1 Person (person_batch sl))
    as (Hw2 & Hr2 & Hsame2 & Hother2 & Hb2).
  destruct (flush_nodes log1 Person _) as [log2 b2]. simpl in *.
  subst b1 b2. rewrite app_nil_r in *.
  split_and!; [by auto|congruence|].
  intros counts [= <-]. split; [|by rewrite Hnc, Hnp].
  intros [].
  - rewrite (Hother2 Company) by done. congruence.
  - rewrite Hsame2, (Hother1 Person) by done. congruence.
Qed.

(** *** Pass 2 *)

Lemma flush_rels_log log ty batch :
  let log' := (flush_rels log ty batch).1 in
  let batch' := (flush_rels log ty batch).2 in
  (Forall (λ w, is_node_write w = false) log →
   Forall (λ w, is_node_write w = false) log')
  ∧ node_events log' = node_events log
  ∧ rows_for ty (rel_rows log') ++ batch' = rows_for ty (rel_rows log) ++ batch
  ∧ (∀ ty', ty' ≠ ty → rows_for ty' (rel_rows log') = rows_for ty' (rel_rows log))
  ∧ batch' = [].
Proof.
  destruct batch as [|row batch]; simpl; [done|].
  rewrite node_events_app, rel_rows_app. simpl. rewrite !app_nil_r.
  split_and!; [|done|..|done].
  - intros Hlog. apply Forall_app. split; [done|]. by repeat constructor.
  - rewrite rows_for_app. f_equal. apply (rows_for_same ty (row :: batch)).
  - intros ty' Hne. rewrite rows_for_app.
    rewrite <- (app_nil_r (rows_for ty' (rel_rows log))) at 2. f_equal.
    by apply (rows_for_other ty' ty (row :: batch)).
Qed.

Lemma import_relationships_step_log bs (sl : rel_pass (list write)) entity :
  match import_relationships_step bs sl entity with
  | Ok sl' =>
      let ev := option_list (rel_row_of entity) in
      (Forall (λ w, is_node_write w = false) (rp_session sl) →
       Forall (λ w, is_node_write w = false) (rp_session sl'))
      ∧ node_events (rp_session sl') = node_events (rp_session sl)
      ∧ rows_for DIRECTORSHIP (rel_rows (rp_session sl')) ++ directorship_batch sl'
        = rows_for DIRECTORSHIP (rel_rows (rp_session sl)) ++ directorship_batch sl
          ++ rows_for DIRECTORSHIP ev
      ∧ rows_for OWNERSHIP (rel_rows (rp_session sl')) ++ ownership_batch sl'
        = rows_for OWNERSHIP (rel_rows (rp_session sl)) ++ ownership_batch sl
          ++ rows_for OWNERSHIP ev
      ∧ directorships sl' = directorships sl + length (rows_for DIRECTORSHIP ev)
      ∧ ownerships sl' = ownerships sl + length (rows_for OWNERSHIP ev)
  | Raise _ => True
  end.
Proof.
  unfold import_relationships_step, rel_row_of.
  destruct (eq_str _ "Directorship" || eq_str _ "Ownership") eqn:Hschema; simpl;
    [|by rewrite !app_nil_r, !Nat.add_0_r].
  destruct (to_rel_row entity) as [[[ty row]|]|e]; simpl;
    [|by rewrite !app_nil_r, !Nat.add_0_r|done].
  destruct (truthy (rr_id row)); simpl;
    [|by rewrite !app_nil_r, !Nat.add_0_r].
  destruct ty.
  - pose proof (flush_rels_log (rp_session sl) DIRECTORSHIP
                  (directorship_batch sl ++ [row]))
      as (Hw & Hr & Hsame & Hother & _).
    destruct (_ <=? _)%Z; simpl.
    + destruct (flush_rels _ _ _) as [log' batch']. simpl in *.
      rewrite Hsame, (Hother OWNERSHIP) by done.
      rewrite !app_nil_r, Nat.add_0_r, Nat.add_1_r, app_assoc. done.
    + rewrite !app_nil_r, Nat.add_0_r, Nat.add_1_r, app_assoc. done.
  - pose proof (flush_rels_log (rp_session sl) OWNERSHIP
                  (ownership_batch sl ++ [row]))
      as (Hw & Hr & Hsame & Hother & _).
    destruct (_ <=? _)%Z; simpl.
    + destruct (flush_rels _ _ _) as [log' batch']. simpl in *.
      rewrite Hsame, (Hother DIRECTORSHIP) by done.
      rewrite !app_nil_r, Nat.add_0_r, Nat.add_1_r, app_assoc. done.
    + rewrite !app_nil_r, Nat.add_0_r, Nat.add_1_r, app_assoc. done.
Qed.

Lemma import_relationships_loop_log bs entities (sl : rel_pass (list write)) :
  let r := import_relationships_loop bs entities sl in
  let evs := omap rel_row_of entities in
  (Forall (λ w, is_node_write w = false) (rp_session sl) →
   Forall (λ w, is_node_write w = false) r.1)
  ∧ node_events r.1 = node_events (rp_session sl)
  ∧ match r.2 with
    | Ok sl' =>
        rp_session sl' = r.1
        ∧ rows_for DIRECTORSHIP (rel_rows r.1) ++ directorship_batch sl'
          = rows_for DIRECTORSHIP (rel_rows (rp_session sl)) ++ directorship_batch sl
            ++ rows_for DIRECTORSHIP evs
        ∧ rows_for OWNERSHIP (rel_rows r.1) ++ ownership_batch sl'
          = rows_for OWNERSHIP (rel_rows (rp_session sl)) ++ ownership_batch sl
            ++ rows_for OWNERSHIP evs
        ∧ directorships sl' = directorships sl + length (rows_for DIRECTORSHIP evs)
        ∧ ownerships sl' = ownerships sl + length (rows_for OWNERSHIP evs)
    | Raise _ => True
    end.
Proof.
  revert sl. induction entities as [|entity rest IH]; intros sl; cbn zeta.
  - simpl. by rewrite !app_nil_r, !Nat.add_0_r.
  - simpl import_relationships_loop.
    pose proof (import_relationships_step_log bs sl entity) as Hstep.
    destruct (import_relationships_step bs sl entity) as [sl1|e]; [|done].
    destruct Hstep as (Hw & Hr & Hc & Hp & Hnc & Hnp).
    destruct (IH sl1) as (Hw' & Hr' & Hrest). cbn zeta in *.
    split_and!; [by auto|congruence|].
    destruct (import_relationships_loop bs rest sl1).2 as [sl2|e]; [|done].
    destruct Hrest as (Hs & Hc' & Hp' & Hnc' & Hnp').
    rewrite omap_cons_list, !rows_for_app, !length_app.
    rewrite Hc', Hp', Hnc', Hnp'.
    rewrite (app_assoc _ (directorship_batch sl1)), Hc.
    rewrite (app_assoc _ (ownership_batch sl1)), Hp.
    rewrite <- !app_assoc. split_and!; [done..|lia|lia].
Qed.

(** The writes of pass 2: relationship writes only, and, when the pass
    ends without an exception, every accepted row of each type, in the
    order of the input. *)
Lemma import_relationships_log entities bs :
  Forall (λ w, is_node_write w = false) (rel_writes entities bs)
  ∧ node_events (rel_writes entities bs) = []
  ∧ ∀ counts, (import_relationships entities ([] : list write) bs).2 = Ok counts →
      let evs := omap rel_row_of entities.1 in
      (∀ ty, rows_for ty (rel_rows (rel_writes entities bs)) = rows_for ty evs)
      ∧ counts = (length (rows_for DIRECTORSHIP evs), length (rows_for OWNERSHIP evs)).
Proof.
  unfold rel_writes, import_relationships.
  pose proof (import_relationships_loop_log bs entities.1
    {| rp_session := []; directorship_batch := []; ownership_batch := [];
       directorships := 0; ownerships := 0 |}) as (Hw & Hr & Hok).
  cbn zeta in *. simpl in Hw, Hr, Hok.
  destruct (import_relationships_loop _ _ _) as [log [sl|e]]; simpl in *;
    [|by split_and!; [auto|..]].
  destruct Hok as (Hs & Hc & Hp & Hnc & Hnp).
  destruct entities.2; simpl; [by split_and!; [auto|..]|].
  pose proof (flush_rels_log log DIRECTORSHIP (directorship_batch sl))
    as (Hw1 & Hr1 & Hsame1 & Hother1 & Hb1).
  destruct (flush_rels log DIRECTORSHIP _) as [log1 b1]. simpl in *.
  pose proof (flush_rels_log log1 OWNERSHIP (ownership_batch sl))
    as (Hw2 & Hr2 & Hsame2 & Hother2 & Hb2).
  destruct (flush_rels log1 OWNERSHIP _) as [log2 b2]. simpl in *.
  subst b1 b2. rewrite app_nil_r in *.
  split_and!; [by auto|congruence|].
  intros counts [= <-]. split; [|by rewrite Hnc, Hnp].
  intros [].
  - rewrite (Hother2 DIRECTORSHIP) by done. congruence.
  - rewrite Hsame2, (Hother1 OWNERSHIP) by done. congruence.
Qed.

End PassFacts.

(** ** Ingestion *)

Module IngestFacts.
Import Classifier Store Ingest SessionFacts StoreFacts PassFacts.

(** The store after a run: the node rows of pass 1 upserted in the order of
    their flushes, then, unless pass 1 raised, the edge rows of pass 2 that
    resolve among the nodes of that moment. *)
Lemma ingest_store entities bs (st : store) :
  let ns := foldl merge_node (nodes st) (node_events (node_writes entities bs)) in
  (ingest entities bs st).1 =
    {| nodes := ns;
       rels :=
         match (import_nodes entities ([] : list write) bs).2 with
         | Ok _ => foldl merge_rel (rels st) (rel_events ns (rel_writes entities bs))
         | Raise _ => rels st
         end |}.
Proof.
  cbn zeta. rewrite ingest_writes, writes_eq. simpl. rewrite replay_app.
  destruct (import_nodes_log entities bs) as (Hn & _ & _).
  destruct (import_relationships_log entities bs) as (Hr & _ & _).
  rewrite (replay_node_writes _ _ Hn).
  destruct (import_nodes entities [] bs).2; [|done].
  by rewrite (replay_rel_writes _ _ Hr).
Qed.

Lemma ingest_twice entities bs (st : store) :
  ingest entities bs (ingest entities bs st).1 = ingest entities bs st.
Proof.
  apply injective_projections.
  - rewrite (ingest_store entities bs (ingest entities bs st).1).
    rewrite (ingest_store entities bs st). cbn zeta. simpl.
    rewrite merge_node_idem. f_equal.
    destruct (import_nodes entities [] bs).2; [|done].
    apply merge_rel_idem.
  - by rewrite (ingest_writes entities bs (ingest entities bs st).1),
               (ingest_writes entities bs st).
Qed.

(** The last node row of a kind and identifier in the input is the last
    one the store sees. *)
Lemma last_node_event entities bs counts earlier l row later es1 e es2 :
  (import_nodes entities ([] : list write) bs).2 = Ok counts →
  omap node_row_of entities.1 = earlier ++ (l, row) :: later →
  (∀ e', e' ∈ later → row_key e' ≠ (l, nr_id row)) →
  node_events (node_writes entities bs) = es1 ++ e :: es2 →
  row_key e = (l, nr_id row) →
  (∀ e', e' ∈ es2 → row_key e' ≠ (l, nr_id row)) →
  e = (l, row).
Proof.
  intros Hok Hacc Hlater Hevs Hk Hes2.
  destruct (import_nodes_log entities bs) as (_ & _ & Hrows).
  destruct (Hrows counts Hok) as [Hl _]. specialize (Hl l). cbn zeta in Hl.
  destruct e as [l' row']. injection Hk as -> Hid.
  rewrite Hevs, Hacc, !rows_for_app, !rows_for_cons in Hl. simpl in Hl.
  rewrite !decide_True in Hl by done. simpl in Hl.
  f_equal.
  apply (last_such_unique (λ r, nr_id r = nr_id row) _ _ _ _ _ _ Hl); [done..| |].
  - apply Forall_forall. intros r Hr%elem_of_rows_for Hq.
    apply (Hes2 _ Hr). unfold row_key. simpl. by rewrite Hq.
  - apply Forall_forall. intros r Hr%elem_of_rows_for Hq.
    apply (Hlater _ Hr). unfold row_key. simpl. by rewrite Hq.
Qed.

(** After a run, a node carries what the last row of its kind and
    identifier says. *)
Lemma node_latest entities bs (st : store) counts earlier l row later n :
  (import_nodes entities ([] : list write) bs).2 = Ok counts →
  omap node_row_of entities.1 = earlier ++ (l, row) :: later →
  (∀ e, e ∈ later → row_key e ≠ (l, nr_id row)) →
  n ∈ nodes (ingest entities bs st).1 → node_key n = (l, nr_id row) →
  node_set (l, row) n = n.
Proof.
  intros Hok Hacc Hlater Hn Hk.
  rewrite ingest_store in Hn. simpl in Hn.
  destruct (import_nodes_log entities bs) as (_ & _ & Hrows).
  destruct (Hrows counts Hok) as [Hl _]. cbn zeta in Hl.
  assert ((l, nr_id row) ∈ row_key <$> node_events (node_writes entities bs)) as Hin.
  { apply list_elem_of_fmap. exists (l, row). split; [done|].
    apply elem_of_rows_for. rewrite Hl, Hacc. apply elem_of_rows_for.
    apply elem_of_app. right. apply elem_of_cons. by left. }
  destruct (last_with_key row_key _ _ Hin) as (es1 & e & es2 & Hevs & He & Hes2).
  assert (e = (l, row)) as -> by eauto using last_node_event.
  rewrite Hevs in Hn.
  by apply (last_hit_wins row_key node_key node_set node_new
              node_set_key node_new_key node_set_set
              es1 (l, row) es2 (nodes st) n).
Qed.

(** A run that reports counts went through both passes. *)
Lemma ingest_ok entities bs summary :
  (ingest entities bs ([] : list write)).2 = Ok summary →
  (import_nodes entities ([] : list write) bs).2 = Ok (nodes_count summary)
  ∧ (import_relationships entities ([] : list write) bs).2 = Ok (rels_count summary).
Proof.
  unfold ingest.
  destruct (import_nodes entities [] bs) as [nlog [ns|e]] eqn:Hn; simpl; [|done].
  rewrite (import_relationships_writes entities bs nlog).
  destruct (import_relationships entities [] bs).2 as [rs|e]; simpl; [|done].
  by intros [= <-].
Qed.

Lemma bind_fmap {A B C} (f : A → B) (g : B → list C) (l : list A) :
  (f <$> l) ≫= g = l ≫= (λ x, g (f x)).
Proof.
  induction l as [|x l IH]; [done|].
  by rewrite fmap_cons, !bind_cons, IH.
Qed.

Lemma rel_events_rows ns log :
  rel_events ns log = rel_rows log ≫= (λ e, rel_table e.1 ns e.2).
Proof.
  unfold rel_events, rel_rows. induction log as [|w log IH]; [done|].
  rewrite !bind_cons, bind_app, IH. f_equal.
  destruct w as [|ty batch]; [done|]. by rewrite bind_fmap.
Qed.

Lemma elem_of_rel_table e ty ns row :
  e ∈ rel_table ty ns row → e.1.1.1 = ty ∧ e.1.1.2 = row.
Proof.
  unfold rel_table.
  intros (src & He & _)%list_elem_of_bind.
  apply list_elem_of_bind in He as (tgt & He & _).
  destruct src, tgt; try by apply elem_of_nil in He.
  by apply list_elem_of_singleton in He as ->.
Qed.

(** After a run, an edge between two endpoints of the last row of its type
    and identifier carries what that row says. *)
Lemma rel_latest entities bs (st : store) summary earlier ty row later r :
  (ingest entities bs ([] : list write)).2 = Ok summary →
  omap rel_row_of entities.1 = earlier ++ (ty, row) :: later →
  (∀ row', (ty, row') ∈ later → rr_id row' ≠ rr_id row) →
  r ∈ rels (ingest entities bs st).1 →
  (ty, row, r_src r, r_tgt r) ∈ rel_table ty (nodes (ingest entities bs st).1) row →
  r_type r = ty → r_ftm_id r = rr_id row →
  rel_set (ty, row, r_src r, r_tgt r) r = r.
Proof.
  intros [Hn Hrp]%ingest_ok Hacc Hlater Hr Htab Hty Hid.
  rewrite ingest_store in Hr, Htab. simpl in Hr, Htab. rewrite Hn in Hr.
  set (ns := foldl merge_node (nodes st) (node_events (node_writes entities bs))) in *.
  destruct (import_relationships_log entities bs) as (_ & _ & Hrows).
  destruct (Hrows _ Hrp) as [Hl _]. specialize (Hl ty). cbn zeta in Hl.
  set (tbl := λ e : rel_type * rel_row, rel_table e.1 ns e.2).
  set (k := (ty, r_src r, r_tgt r, rr_id row)).
  assert ((ty, row) ∈ rel_rows (rel_writes entities bs)) as Hrow.
  { apply elem_of_rows_for. rewrite Hl, Hacc. apply elem_of_rows_for.
    apply elem_of_app. right. apply elem_of_cons. by left. }
  assert (k ∈ table_key <$> rel_events ns (rel_writes entities bs)) as Hin.
  { apply list_elem_of_fmap. exists (ty, row, r_src r, r_tgt r). split; [done|].
    rewrite rel_events_rows. apply list_elem_of_bind. by exists (ty, row). }
  destruct (last_with_key table_key _ _ Hin) as (es1 & e & es2 & Hevs & He & Hes2).
  rewrite Hevs in Hr.
  assert (rel_key r = table_key e) as Hk.
  { rewrite He. unfold rel_key, k. by rewrite Hty, Hid. }
  pose proof (last_hit_wins table_key rel_key rel_set rel_new
                rel_set_key rel_new_key rel_set_set es1 e es2 (rels st) r Hr Hk) as Hset.
  rewrite He in Hset. specialize (Hset Hes2).
  enough (e = (ty, row, r_src r, r_tgt r)) as <- by done.
  rewrite rel_events_rows in Hevs.
  apply bind_split in Hevs as (R1 & x & R2 & t1 & t2 & HR & Hx & _ & ->).
  assert (e ∈ rel_table x.1 ns x.2) as Hex.
  { rewrite Hx. apply elem_of_app. right. apply elem_of_cons. by left. }
  apply elem_of_rel_table in Hex as [Hxty Hxrow].
  destruct e as [[[ty' row'] s'] t']. destruct x as [xty xrow]. simpl in *. subst xty xrow.
  unfold k in He. injection He as -> -> -> Hid'. do 3 f_equal.
  rewrite HR, Hacc, !rows_for_app, !rows_for_cons in Hl. simpl in Hl.
  rewrite !decide_True in Hl by done. simpl in Hl.
  assert (Forall (λ y, ¬ rr_id y = rr_id row) (rows_for ty later)) as Hlater'.
  { apply Forall_forall. intros y Hy%elem_of_rows_for. by apply Hlater. }
  destruct (last_such_split (λ y, rr_id y = rr_id row) (rows_for ty R2))
    as [HR2|(B1 & y & B2 & HB & Hy & HB2)].
  - by apply (last_such_unique (λ y, rr_id y = rr_id row) _ _ _ _ _ _ Hl).
  - exfalso. rewrite HB in Hl.
    change (row' :: B1 ++ y :: B2) with ((row' :: B1) ++ y :: B2) in Hl.
    rewrite app_assoc in Hl.
    apply (last_such_unique (λ y, rr_id y = rr_id row)) in Hl; [|done..].
    subst y.
    assert ((ty, row) ∈ R2) as HinR2.
    { apply elem_of_rows_for. rewrite HB. apply elem_of_app. right.
      apply elem_of_cons. by left. }
    apply (Hes2 (ty, row, r_src r, r_tgt r)); [|done].
    apply elem_of_app. right. apply list_elem_of_bind. by exists (ty, row).
Qed.





Lemma ingest_NoDup entities bs (st : store) :
  (NoDup (node_key <$> nodes st) →
   NoDup (node_key <$> nodes (ingest entities bs st).1))
  ∧ (NoDup (rel_key <$> rels st) →
     NoDup (rel_key <$> rels (ingest entities bs st).1)).
Proof.
  rewrite ingest_store. simpl. split; intros Hnd.
  - by apply (foldl_upsert_NoDup row_key node_key node_set node_new
                node_set_key node_new_key).
  - destruct (import_nodes entities [] bs).2; [|done].
    by apply (foldl_upsert_NoDup table_key rel_key rel_set rel_new
                rel_set_key rel_new_key).
Qed.

(** C1 (as amended) — ingestion is idempotent: a second run over the same
    input leaves the store as the first run left it and reports the same;
    no node of a kind and identifier, and no edge of a type, identifier
    and pair of end nodes, is stored twice unless it was before the run;
    after a run without an exception every node carries the name, datasets
    and modification time of the last record of its kind and identifier,
    and every edge between end nodes of the last record of its type and
    identifier the datasets and modification time of that record. *)
Theorem ingest_idempotent (entities : Reader.stream dict) (bs : Z) (st : store) :
  let once := ingest entities bs st in
  ingest entities bs once.1 = once
  ∧ (NoDup (node_key <$> nodes st) → NoDup (node_key <$> nodes once.1))
  ∧ (NoDup (rel_key <$> rels st) → NoDup (rel_key <$> rels once.1))
  ∧ (∀ summary, once.2 = Ok summary →
     (∀ earlier l row later n,
        omap node_row_of entities.1 = earlier ++ (l, row) :: later →
        (∀ e, e ∈ later → row_key e ≠ (l, nr_id row)) →
        n ∈ nodes once.1 → node_key n = (l, nr_id row) →
        n_name n = nr_name row ∧ n_datasets n = nr_datasets row
        ∧ n_modified_at n = nr_modified_at row)
     ∧ (∀ earlier ty row later r,
        omap rel_row_of entities.1 = earlier ++ (ty, row) :: later →
        (∀ row', (ty, row') ∈ later → rr_id row' ≠ rr_id row) →
        r ∈ rels once.1 → r_type r = ty → r_ftm_id r = rr_id row →
        (ty, row, r_src r, r_tgt r) ∈ rel_table ty (nodes once.1) row →
        r_datasets r = rr_datasets row ∧ r_modified_at r = rr_modified_at row)).
Proof.
  cbn zeta. split_and!.
  - apply ingest_twice.
  - apply ingest_NoDup.
  - apply ingest_NoDup.
  - intros summary Hok. rewrite ingest_writes in Hok. simpl in Hok.
    split.
    + intros earlier l row later n Hacc Hlater Hn Hk.
      destruct (ingest_ok _ _ _ Hok) as [Hnodes _].
      pose proof (node_latest _ _ _ _ _ _ _ _ _ Hnodes Hacc Hlater Hn Hk) as Hset.
      by rewrite <- Hset.
    + intros earlier ty row later r Hacc Hlater Hr Hty Hid Htab.
      pose proof (rel_latest _ _ _ _ _ _ _ _ _ Hok Hacc Hlater Hr Htab Hty Hid)
        as Hset.
      by rewrite <- Hset.
Qed.

Lemma ingest_idempotent_witness :
  let once := ingest Samples.scenario 5000 Store.empty in
  ingest Samples.scenario 5000 once.1 = once
  ∧ once.2 = Ok {| nodes_count := (1, 1); rels_count := (1, 0) |}
  ∧ ∀ n, n ∈ nodes once.1 → node_key n = (Company, VStr "C1") →
         n_name n = VStr "Acme" ∧ n_datasets n = VList [] ∧ n_modified_at n = VNone.
Proof.
  pose proof (ingest_idempotent Samples.scenario 5000 Store.empty)
    as (Hidem & _ & _ & Hlatest).
  split_and!; [exact Hidem|reflexivity|].
  intros n Hn Hk.
  destruct (Hlatest _ eq_refl) as [Hnode _].
  refine (Hnode [] Company
            {| nr_id := VStr "C1"; nr_schema := VStr "Company";
               nr_name := VStr "Acme"; nr_datasets := VList [];
               nr_modified_at := VNone |}
            _ n eq_refl _ Hn Hk).
  intros e He.
  apply elem_of_cons in He as [->|He]; [discriminate|].
  by apply elem_of_nil in He.
Defined.

(** Two records of one type and identifier with different directors leave
    two edges with that identifier, the first with the datasets of the
    first record: edges are not keyed by type and identifier alone, and
    the later record does not overwrite the earlier edge. *)
Lemma same_identifier_two_edges :
  let st :=
    (ingest ([Samples.acme; Samples.jane; Samples.john;
              Samples.d1; Samples.d1_john], None) 5000 Store.empty).1 in
  rels st =
    [ {| r_type := DIRECTORSHIP; r_src := 1; r_tgt := 0; r_ftm_id := VStr "D1";
         r_schema := VStr "Directorship"; r_datasets := VList [];
         r_modified_at := VNone |};
      {| r_type := DIRECTORSHIP; r_src := 2; r_tgt := 0; r_ftm_id := VStr "D1";
         r_schema := VStr "Directorship"; r_datasets := VList [VStr "register"];
         r_modified_at := VNone |} ]
  ∧ ¬ NoDup ((λ r, (r_type r, r_ftm_id r)) <$> rels st).
Proof.
  cbn zeta.
  assert (rels (ingest ([Samples.acme; Samples.jane; Samples.john;
                         Samples.d1; Samples.d1_john], None) 5000 Store.empty).1
          = [ {| r_type := DIRECTORSHIP; r_src := 1; r_tgt := 0;
                 r_ftm_id := VStr "D1"; r_schema := VStr "Directorship";
                 r_datasets := VList []; r_modified_at := VNone |};
              {| r_type := DIRECTORSHIP; r_src := 2; r_tgt := 0;
                 r_ftm_id := VStr "D1"; r_schema := VStr "Directorship";
                 r_datasets := VList [VStr "register"];
                 r_modified_at := VNone |} ]) as ->
    by (vm_compute; reflexivity).
  split; [done|]. simpl. intros Hnd.
  apply NoDup_cons in Hnd as [Hnin _]. apply Hnin, elem_of_cons. by left.
Qed.

Lemma writes_node_events entities bs summary :
  (ingest entities bs ([] : list write)).2 = Ok summary →
  node_events (writes entities bs) = node_events (node_writes entities bs)
  ∧ rel_rows (writes entities bs) = rel_rows (rel_writes entities bs).
Proof.
  intros [Hn Hr]%ingest_ok. rewrite writes_eq, Hn.
  destruct (import_nodes_log entities bs) as (_ & Hnr & _).
  destruct (import_relationships_log entities bs) as (_ & Hrn & _).
  rewrite node_events_app, rel_rows_app, Hnr, Hrn. by rewrite app_nil_r.
Qed.

(** C9 (as amended) — a run that ends without an exception reports, per
    node kind and per edge type, the number of rows it sent to the store
    for upsert: one for each Company or Person record with a non-empty
    identifier, and one for each Directorship or Ownership record with a
    non-empty identifier and two non-empty endpoints, whether or not the
    endpoints are nodes of the store.  Every node row sent leaves a node of
    its kind and identifier in the store. *)
Theorem ingest_counts_rows_sent (entities : Reader.stream dict) (bs : Z)
    (st : store) (summary : summary) :
  (ingest entities bs st).2 = Ok summary →
  let nrows := omap node_row_of entities.1 in
  let rrows := omap rel_row_of entities.1 in
  let log := writes entities bs in
  nodes_count summary
    = (length (rows_for Company nrows), length (rows_for Person nrows))
  ∧ rels_count summary
    = (length (rows_for DIRECTORSHIP rrows), length (rows_for OWNERSHIP rrows))
  ∧ (ingest entities bs st).1 = replay log st
  ∧ (∀ l, rows_for l (node_events log) = rows_for l nrows)
  ∧ (∀ ty, rows_for ty (rel_rows log) = rows_for ty rrows)
  ∧ (∀ e, e ∈ nrows → row_key e ∈ node_key <$> nodes (ingest entities bs st).1).
Proof.
  intros Hok. rewrite ingest_writes in Hok. simpl in Hok. cbn zeta.
  destruct (ingest_ok _ _ _ Hok) as [Hn Hr].
  destruct (writes_node_events _ _ _ Hok) as [-> ->].
  destruct (import_nodes_log entities bs) as (_ & _ & Hnrows).
  destruct (Hnrows _ Hn) as [Hnl Hnc].
  destruct (import_relationships_log entities bs) as (_ & _ & Hrrows).
  destruct (Hrrows _ Hr) as [Hrl Hrc].
  split_and!; [done..|by rewrite ingest_writes|done|done|].
  intros [l row] He. rewrite ingest_store. simpl.
  apply (foldl_upsert_keys row_key node_key node_set node_new
           node_set_key node_new_key). right.
  apply list_elem_of_fmap. exists (l, row). split; [done|].
  apply elem_of_rows_for. rewrite Hnl. by apply elem_of_rows_for.
Qed.

Lemma ingest_counts_rows_sent_witness :
  ingest Samples.scenario 5000 Store.empty
  = (replay (writes Samples.scenario 5000) Store.empty,
     Ok {| nodes_count := (1, 1); rels_count := (1, 0) |}).
Proof.
  pose proof (ingest_counts_rows_sent Samples.scenario 5000 Store.empty
                {| nodes_count := (1, 1); rels_count := (1, 0) |} eq_refl)
    as (_ & _ & Hstore & _).
  apply injective_projections; [exact Hstore|reflexivity].
Defined.

(** A directorship between two identifiers no node has is counted, and no
    edge is created or updated for it. *)
Lemma dangling_edge_is_counted :
  ingest ([Samples.d1], None) 5000 Store.empty
  = (Store.empty, Ok {| nodes_count := (0, 0); rels_count := (1, 0) |})
  ∧ edges_upserted DIRECTORSHIP (nodes Store.empty)
      (writes ([Samples.d1], None) 5000) = 0.
Proof. split; reflexivity. Qed.

(** *** The order of the records *)

Section reordering.
Context {Sess : Type} {session : Session Sess}.

Lemma import_nodes_loop_filter bs entities (s : node_pass Sess) :
  import_nodes_loop bs entities s =
    import_nodes_loop bs (filter (λ e, is_node_record e = true) entities) s.
Proof.
  revert s. induction entities as [|entity rest IH]; intros s; [done|].
  destruct (is_node_record entity) eqn:Hrec.
  - rewrite filter_cons_True by done. simpl.
    destruct (import_nodes_step bs s entity); [apply IH|done].
  - rewrite filter_cons_False by (by rewrite Hrec). simpl.
    unfold import_nodes_step at 1. unfold is_node_record in Hrec.
    rewrite Hrec. simpl. apply IH.
Qed.

Lemma import_relationships_loop_filter bs entities (s : rel_pass Sess) :
  import_relationships_loop bs entities s =
    import_relationships_loop bs (filter (λ e, is_edge_record e = true) entities) s.
Proof.
  revert s. induction entities as [|entity rest IH]; intros s; [done|].
  destruct (is_edge_record entity) eqn:Hrec.
  - rewrite filter_cons_True by done. simpl.
    destruct (import_relationships_step bs s entity); [apply IH|done].
  - rewrite filter_cons_False by (by rewrite Hrec). simpl.
    unfold import_relationships_step at 1. unfold is_edge_record in Hrec.
    rewrite Hrec. simpl. apply IH.
Qed.

(** Two inputs with the same node records in the same order, and the same
    edge records in the same order, are ingested alike. *)
Lemma ingest_interleaving es1 es2 tail bs (s0 : Sess) :
  filter (λ e, is_node_record e = true) es1
    = filter (λ e, is_node_record e = true) es2 →
  filter (λ e, is_edge_record e = true) es1
    = filter (λ e, is_edge_record e = true) es2 →
  ingest (es1, tail) bs s0 = ingest (es2, tail) bs s0.
Proof.
  intros Hn He. unfold ingest, import_nodes, import_relationships. simpl.
  rewrite (import_nodes_loop_filter bs es1), (import_nodes_loop_filter bs es2), Hn.
  destruct (import_nodes_loop _ _ _) as [s1 [np|e]]; [|done].
  destruct tail; [done|].
  destruct (flush_nodes s1 _ _) as [s2 ?]. destruct (flush_nodes s2 _ _) as [s3 ?].
  by rewrite (import_relationships_loop_filter bs es1),
             (import_relationships_loop_filter bs es2), He.
Qed.

End reordering.

(** *** When a pass goes through *)

Section pass_ok.
Context {Sess : Type} {session : Session Sess}.

Lemma import_nodes_step_ok bs (s : node_pass Sess) entity :
  (∃ s', import_nodes_step bs s entity = Ok s') ↔
  (is_node_record entity = true → ∃ row, to_node_row entity = Ok row).
Proof.
  unfold import_nodes_step, is_node_record.
  destruct (eq_str _ "Company" || eq_str _ "Person"); simpl;
    [|split; [done|eauto]].
  destruct (to_node_row entity) as [row|e]; simpl.
  - split; [eauto|intros _].
    destruct (negb _); [eauto|].
    destruct (eq_str _ "Company"); destruct (_ <=? _)%Z;
      try destruct (flush_nodes _ _ _); eauto.
  - split; [by intros [? ?]|]. intros Hrow. by destruct Hrow as [? ?].
Qed.

Lemma import_nodes_loop_ok bs entities (s : node_pass Sess) :
  (∃ s', (import_nodes_loop bs entities s).2 = Ok s') ↔
  (∀ e, e ∈ entities → is_node_record e = true → ∃ row, to_node_row e = Ok row).
Proof.
  revert s. induction entities as [|entity rest IH]; intros s; simpl.
  - split; [by intros _ e ?%elem_of_nil|eauto].
  - pose proof (import_nodes_step_ok bs s entity) as Hstep.
    destruct (import_nodes_step bs s entity) as [s1|x]; simpl.
    + rewrite IH. split.
      * intros Hrest e [->|He]%elem_of_cons; [|by apply Hrest].
        apply Hstep. eauto.
      * intros Hall e He. apply Hall, elem_of_cons. by right.
    + split; [by intros [? ?]|]. intros Hall.
      apply Hstep. intros Hrec. apply Hall; [apply elem_of_cons; by left|done].
Qed.

Lemma import_nodes_ok entities bs (s0 : Sess) :
  (∃ counts, (import_nodes entities s0 bs).2 = Ok counts) ↔
  entities.2 = None
  ∧ ∀ e, e ∈ entities.1 → is_node_record e = true → ∃ row, to_node_row e = Ok row.
Proof.
  rewrite <- (import_nodes_loop_ok bs entities.1
    {| np_session := s0; company_batch := []; person_batch := [];
       companies := 0; persons := 0 |}).
  unfold import_nodes.
  destruct (import_nodes_loop _ _ _) as [s1 [s'|x]]; simpl.
  - destruct entities.2; simpl.
    + split; [by intros [? ?]|by intros [? _]].
    + destruct (flush_nodes s1 _ _) as [s2 ?].
      destruct (flush_nodes s2 _ _) as [s3 ?]. simpl. split; eauto.
  - split; [by intros [? ?]|by intros [_ [? ?]]].
Qed.

Lemma import_relationships_step_ok bs (s : rel_pass Sess) entity :
  (∃ s', import_relationships_step bs s entity = Ok s') ↔
  (is_edge_record entity = true → ∃ row, to_rel_row entity = Ok row).
Proof.
  unfold import_relationships_step, is_edge_record.
  destruct (eq_str _ "Directorship" || eq_str _ "Ownership"); simpl;
    [|split; [done|eauto]].
  destruct (to_rel_row entity) as [[[ty row]|]|e]; simpl.
  - split; [eauto|intros _].
    destruct (negb _); [eauto|].
    destruct ty; destruct (_ <=? _)%Z;
      try destruct (flush_rels _ _ _); eauto.
  - split; eauto.
  - split; [by intros [? ?]|]. intros Hrow. by destruct Hrow as [? ?].
Qed.

Lemma import_relationships_loop_ok bs entities (s : rel_pass Sess) :
  (∃ s', (import_relationships_loop bs entities s).2 = Ok s') ↔
  (∀ e, e ∈ entities → is_edge_record e = true → ∃ row, to_rel_row e = Ok row).
Proof.
  revert s. induction entities as [|entity rest IH]; intros s; simpl.
  - split; [by intros _ e ?%elem_of_nil|eauto].
  - pose proof (import_relationships_step_ok bs s entity) as Hstep.
    destruct (import_relationships_step bs s entity) as [s1|x]; simpl.
    + rewrite IH. split.
      * intros Hrest e [->|He]%elem_of_cons; [|by apply Hrest].
        apply Hstep. eauto.
      * intros Hall e He. apply Hall, elem_of_cons. by right.
    + split; [by intros [? ?]|]. intros Hall.
      apply Hstep. intros Hrec. apply Hall; [apply elem_of_cons; by left|done].
Qed.

Lemma import_relationships_ok entities bs (s0 : Sess) :
  (∃ counts, (import_relationships entities s0 bs).2 = Ok counts) ↔
  entities.2 = None
  ∧ ∀ e, e ∈ entities.1 → is_edge_record e = true → ∃ row, to_rel_row e = Ok row.
Proof.
  rewrite <- (import_relationships_loop_ok bs entities.1
    {| rp_session := s0; directorship_batch := []; ownership_batch := [];
       directorships := 0; ownerships := 0 |}).
  unfold import_relationships.
  destruct (import_relationships_loop _ _ _) as [s1 [s'|x]]; simpl.
  - destruct entities.2; simpl.
    + split; [by intros [? ?]|by intros [? _]].
    + destruct (flush_rels s1 _ _) as [s2 ?].
      destruct (flush_rels s2 _ _) as [s3 ?]. simpl. split; eauto.
  - split; [by intros [? ?]|by intros [_ [? ?]]].
Qed.

End pass_ok.

(** Swapping two records of one kind and identifier changes the name the
    node ends with; no edge record is involved. *)
Lemma same_identifier_order_matters :
  let es1 := [Samples.acme; Samples.acme_renamed] in
  let es2 := [Samples.acme_renamed; Samples.acme] in
  es1 ≡ₚ es2
  ∧ (∀ e, e ∈ es1 → is_edge_record e = false)
  ∧ n_name <$> nodes (ingest (es1, None) 5000 Store.empty).1 = [VStr "Acme Holding"]
  ∧ n_name <$> nodes (ingest (es2, None) 5000 Store.empty).1 = [VStr "Acme"].
Proof.
  cbn zeta. split_and!; [apply perm_swap| |reflexivity..].
  intros e He.
  apply elem_of_cons in He as [->|He]; [reflexivity|].
  apply elem_of_cons in He as [->|He]; [reflexivity|].
  by apply elem_of_nil in He.
Qed.

End IngestFacts.

(** ** Reordering the input *)

Module ReorderFacts.
Import Classifier Store Ingest SessionFacts StoreFacts PassFacts IngestFacts.

Lemma filter_ext_in {A} (P Q : A → Prop)
    `{!∀ x, Decision (P x), !∀ x, Decision (Q x)} (l : list A) :
  (∀ x, x ∈ l → (P x ↔ Q x)) → filter P l = filter Q l.
Proof.
  induction l as [|x l IH]; intros HPQ; [done|].
  assert (filter P l = filter Q l) as Hl.
  { apply IH. intros y Hy. apply HPQ, elem_of_cons. by right. }
  destruct (decide (P x)) as [HP|HP].
  - rewrite !filter_cons_True, Hl; [done|..|done].
    by apply (HPQ x); [apply elem_of_cons; left|].
  - rewrite !filter_cons_False, Hl; [done|..|done].
    intros HQ. by apply HP, (HPQ x); [apply elem_of_cons; left|].
Qed.

Lemma filter_omap {A B} (f : A → option B) (P : B → Prop) (Q : A → Prop)
    `{!∀ y, Decision (P y), !∀ x, Decision (Q x)} (l : list A) :
  (∀ x y, f x = Some y → (P y ↔ Q x)) →
  filter P (omap f l) = omap f (filter Q l).
Proof.
  intros HPQ. induction l as [|x l IH]; [done|].
  rewrite omap_cons_list. rewrite filter_app, IH.
  destruct (f x) as [y|] eqn:Hfx; simpl.
  - destruct (decide (Q x)) as [HQ|HQ].
    + rewrite (filter_cons_True Q x) by done.
      rewrite (filter_cons_True P y) by (by apply (HPQ x y)).
      rewrite filter_nil, omap_cons_list, Hfx. done.
    + rewrite (filter_cons_False Q x) by done.
      rewrite (filter_cons_False P y); [done|].
      intros HP. by apply HQ, (HPQ x y).
  - destruct (decide (Q x)) as [HQ|HQ].
    + rewrite (filter_cons_True Q x) by done. by rewrite omap_cons_list, Hfx.
    + by rewrite (filter_cons_False Q x).
Qed.

Lemma filter_tagged {L R V} `{EqDecision L, EqDecision V}
    (f : R → V) (l : L) (v : V) (evs : list (L * R)) :
  filter (λ e, (e.1, f e.2) = (l, v)) evs
  = pair l <$> filter (λ r, f r = v) (rows_for l evs).
Proof.
  induction evs as [|[l' r] evs IH]; [done|].
  rewrite rows_for_cons, filter_app, fmap_app, <- IH. simpl.
  destruct (decide (l' = l)) as [->|Hl].
  - destruct (decide (f r = v)) as [Hv|Hv].
    + rewrite filter_cons_True by (simpl; congruence).
      by rewrite (filter_cons_True _ r), filter_nil.
    + rewrite filter_cons_False by (simpl; congruence).
      by rewrite (filter_cons_False _ r), filter_nil.
  - rewrite filter_cons_False by (simpl; congruence). done.
Qed.

Lemma same_order_elem es es' e : same_order_per_key es es' → e ∈ es → e ∈ es'.
Proof.
  intros Hso He.
  assert (e ∈ filter (λ e', record_key e' = record_key e) es) as Hin
    by by apply list_elem_of_filter.
  rewrite Hso in Hin. by apply list_elem_of_filter in Hin as [_ ?].
Qed.

Lemma same_order_sym es es' : same_order_per_key es es' → same_order_per_key es' es.
Proof. intros Hso k. by rewrite Hso. Qed.

Lemma node_row_of_Some e l row :
  node_row_of e = Some (l, row) →
  dict_get e "schema" = VStr (label_schema l) ∧ nr_id row = dict_get e "id".
Proof.
  unfold node_row_of, to_node_row.
  destruct (eq_str _ "Company" || eq_str _ "Person") eqn:Hs; [|done].
  destruct (prop_first e "name") as [nm|]; simpl; [|done].
  destruct (truthy _); [|done]. intros [= <- <-]. split; [|done].
  destruct (eq_str _ "Company") eqn:Hc.
  - by apply ClassifierFacts.eq_str_true in Hc.
  - simpl in Hs. by apply ClassifierFacts.eq_str_true in Hs.
Qed.

Lemma rel_row_of_Some e ty row :
  rel_row_of e = Some (ty, row) →
  dict_get e "schema" = VStr (type_schema ty) ∧ rr_id row = dict_get e "id".
Proof.
  unfold rel_row_of, to_rel_row.
  destruct (eq_str _ "Directorship" || eq_str _ "Ownership") eqn:Hs; [|done].
  destruct (eq_str _ "Directorship") eqn:Hd.
  - apply ClassifierFacts.eq_str_true in Hd.
    destruct (prop_first e "director") as [src|]; simpl; [|done].
    destruct (prop_first e "organization") as [tgt|]; simpl; [|done].
    destruct (negb (truthy src) || negb (truthy tgt)); [done|]. simpl.
    destruct (truthy _); [|done]. by intros [= <- <-].
  - simpl in Hs. rewrite Hs. apply ClassifierFacts.eq_str_true in Hs.
    destruct (prop_first e "owner") as [src|]; simpl; [|done].
    destruct (prop_first e "asset") as [tgt|]; simpl; [|done].
    destruct (negb (truthy src) || negb (truthy tgt)); [done|]. simpl.
    destruct (truthy _); [|done]. by intros [= <- <-].
Qed.

(** The rows of each key come in the same order when the records do. *)
Lemma accepted_nodes_same_order es es' k :
  same_order_per_key es es' →
  filter (λ x, row_key x = k) (omap node_row_of es)
  = filter (λ x, row_key x = k) (omap node_row_of es').
Proof.
  intros Hso. destruct k as [l i].
  rewrite !(filter_omap node_row_of _
              (λ e, record_key e = (VStr (label_schema l), i))), Hso; [done|..];
    intros e [l' row] [Hschema Hid]%node_row_of_Some;
    unfold row_key, record_key; simpl; rewrite Hschema, Hid;
    (split; intros [= Hl ->]; f_equal; [congruence|by destruct l, l']).
Qed.

Lemma accepted_rels_same_order es es' k :
  same_order_per_key es es' →
  filter (λ x, rel_row_key x = k) (omap rel_row_of es)
  = filter (λ x, rel_row_key x = k) (omap rel_row_of es').
Proof.
  intros Hso. destruct k as [ty i].
  rewrite !(filter_omap rel_row_of _
              (λ e, record_key e = (VStr (type_schema ty), i))), Hso; [done|..];
    intros e [ty' row] [Hschema Hid]%rel_row_of_Some;
    unfold rel_row_key, record_key; simpl; rewrite Hschema, Hid;
    (split; intros [= Hl ->]; f_equal; [congruence|by destruct ty, ty']).
Qed.

Lemma events_key_filter (evs acc : list (label * node_row)) k :
  (∀ l, rows_for l evs = rows_for l acc) →
  filter (λ x, row_key x = k) evs = filter (λ x, row_key x = k) acc.
Proof.
  intros Hrows. destruct k as [l i].
  by rewrite !(filter_tagged nr_id l i), Hrows.
Qed.

Lemma rows_key_filter (evs acc : list (rel_type * rel_row)) k :
  (∀ ty, rows_for ty evs = rows_for ty acc) →
  filter (λ x, rel_row_key x = k) evs = filter (λ x, rel_row_key x = k) acc.
Proof.
  intros Hrows. destruct k as [ty i].
  by rewrite !(filter_tagged rr_id ty i), Hrows.
Qed.

(** The node rows reach the store in the same order per key. *)
Lemma node_events_same_order es es' tail bs c c' k :
  same_order_per_key es es' →
  (import_nodes (es, tail) ([] : list write) bs).2 = Ok c →
  (import_nodes (es', tail) ([] : list write) bs).2 = Ok c' →
  filter (λ x, row_key x = k) (node_events (node_writes (es, tail) bs))
  = filter (λ x, row_key x = k) (node_events (node_writes (es', tail) bs)).
Proof.
  intros Hso Hok Hok'.
  destruct (import_nodes_log (es, tail) bs) as (_ & _ & Hrows).
  destruct (Hrows _ Hok) as [Hl _].
  destruct (import_nodes_log (es', tail) bs) as (_ & _ & Hrows').
  destruct (Hrows' _ Hok') as [Hl' _]. cbn zeta in *. simpl in *.
  rewrite (events_key_filter _ _ k Hl), (events_key_filter _ _ k Hl').
  by apply accepted_nodes_same_order.
Qed.

Lemma rel_rows_same_order es es' tail bs c c' k :
  same_order_per_key es es' →
  (import_relationships (es, tail) ([] : list write) bs).2 = Ok c →
  (import_relationships (es', tail) ([] : list write) bs).2 = Ok c' →
  filter (λ x, rel_row_key x = k) (rel_rows (rel_writes (es, tail) bs))
  = filter (λ x, rel_row_key x = k) (rel_rows (rel_writes (es', tail) bs)).
Proof.
  intros Hso Hok Hok'.
  destruct (import_relationships_log (es, tail) bs) as (_ & _ & Hrows).
  destruct (Hrows _ Hok) as [Hl _].
  destruct (import_relationships_log (es', tail) bs) as (_ & _ & Hrows').
  destruct (Hrows' _ Hok') as [Hl' _]. cbn zeta in *. simpl in *.
  rewrite (rows_key_filter _ _ k Hl), (rows_key_filter _ _ k Hl').
  by apply accepted_rels_same_order.
Qed.

(** *** Endpoints among two node lists with the same nodes *)

Lemma match_nodes_nil l x ns :
  match_nodes l x ns = [] ↔ (l, x) ∉ node_key <$> ns.
Proof.
  split.
  - intros Hnil (n & Hk & (i & Hi)%list_elem_of_lookup_1)%list_elem_of_fmap.
    assert (i ∈ match_nodes l x ns) as Hin by (apply elem_of_match_nodes; eauto).
    rewrite Hnil in Hin. by apply elem_of_nil in Hin.
  - intros Hk. apply elem_of_nil_inv. intros i (n & Hi & Hn)%elem_of_match_nodes.
    apply Hk, list_elem_of_fmap. exists n.
    split; [done|by eapply list_elem_of_lookup_2].
Qed.

Section same_nodes.
Variables (base : nat) (ns ns' : list node).
Hypothesis same_elems : ∀ n, n ∈ ns ↔ n ∈ ns'.

Lemma same_keys k : k ∈ node_key <$> ns ↔ k ∈ node_key <$> ns'.
Proof.
  rewrite !list_elem_of_fmap. split; intros (n & -> & Hn); exists n;
    (split; [done|by apply same_elems]).
Qed.

Lemma same_node_match l x s s' :
  same_node base ns ns' s s' →
  s ∈ match_nodes l x ns ↔ s' ∈ match_nodes l x ns'.
Proof.
  intros [(n & Hs & Hs') _]. rewrite !elem_of_match_nodes. split.
  - intros (n' & Hn' & Hk). exists n. split; [done|congruence].
  - intros (n' & Hn' & Hk). exists n. split; [done|congruence].
Qed.

Lemma same_node_endpoint x s s' :
  same_node base ns ns' s s' →
  Some s ∈ endpoint ns x ↔ Some s' ∈ endpoint ns' x.
Proof.
  intros Hss. rewrite !elem_of_endpoint.
  rewrite (same_node_match Person x s s' Hss).
  rewrite (same_node_match Company x s s' Hss).
  by rewrite !match_nodes_nil, same_keys.
Qed.

Lemma same_node_table ty row s s' t t' :
  same_node base ns ns' s s' → same_node base ns ns' t t' →
  (ty, row, s, t) ∈ rel_table ty ns row ↔ (ty, row, s', t') ∈ rel_table ty ns' row.
Proof.
  intros Hs Ht. rewrite !elem_of_rel_table_iff. split.
  - intros (s0 & t0 & [= <- <-] & Hs0 & Ht0). exists s', t'.
    split_and!; [done|..].
    + by apply (same_node_endpoint _ s s').
    + by apply (same_node_endpoint _ t t').
  - intros (s0 & t0 & [= <- <-] & Hs0 & Ht0). exists s, t.
    split_and!; [done|..].
    + by apply (same_node_endpoint _ s s').
    + by apply (same_node_endpoint _ t t').
Qed.
End same_nodes.

(** *** The last row that sets an edge *)

Lemma last_all_eq {A} (l : list A) (z : A) :
  l ≠ [] → (∀ y, y ∈ l → y = z) → last l = Some z.
Proof.
  destruct l as [|y l _] using rev_ind; [done|]. intros _ Hall.
  rewrite last_snoc. f_equal. apply Hall, elem_of_app. right.
  by apply list_elem_of_singleton.
Qed.

Lemma last_rel_event ns (rows : list (rel_type * rel_row)) ty s t i :
  last (filter (λ e, table_key e = (ty, s, t, i))
               (rows ≫= λ x, rel_table x.1 ns x.2))
  = (λ x : rel_type * rel_row, (x.1, x.2, s, t))
      <$> last (filter (λ x, (x.1, x.2, s, t) ∈ rel_table x.1 ns x.2
                             ∧ rel_row_key x = (ty, i)) rows).
Proof.
  induction rows as [|x rows IH] using rev_ind; [done|].
  rewrite bind_app, bind_cons.
  change (([] : list (rel_type * rel_row)) ≫= λ x, rel_table x.1 ns x.2)
    with ([] : list (rel_type * rel_row * nat * nat)).
  rewrite app_nil_r, !filter_app, last_app, IH.
  clear IH.
  destruct (decide ((x.1, x.2, s, t) ∈ rel_table x.1 ns x.2
                    ∧ rel_row_key x = (ty, i))) as [[Hin Hk]|Hno].
  - rewrite (filter_cons_True _ x) by done. rewrite filter_nil, last_snoc. simpl.
    injection Hk as Hty Hid.
    rewrite (last_all_eq _ (x.1, x.2, s, t)); [done|..].
    + intros Hnil.
      assert ((x.1, x.2, s, t) ∈
                filter (λ e, table_key e = (ty, s, t, i)) (rel_table x.1 ns x.2))
        as Hf.
      { apply list_elem_of_filter. split; [|done]. simpl. by rewrite Hty, Hid. }
      rewrite Hnil in Hf. by apply elem_of_nil in Hf.
    + intros e [He Hin']%list_elem_of_filter.
      apply elem_of_rel_table_iff in Hin' as (s0 & t0 & -> & _).
      simpl in He. by injection He as _ -> -> _.
  - rewrite (filter_cons_False _ x) by done. rewrite filter_nil, app_nil_r.
    assert (filter (λ e, table_key e = (ty, s, t, i)) (rel_table x.1 ns x.2) = [])
      as ->; [|done].
    apply elem_of_nil_inv. intros e [He Hin]%list_elem_of_filter.
    pose proof Hin as (s0 & t0 & -> & _)%elem_of_rel_table_iff.
    simpl in He. injection He as Hty -> -> Hid.
    apply Hno. split; [done|]. unfold rel_row_key. by rewrite Hty, Hid.
Qed.

Lemma node_new_ext e e' : row_key e = row_key e' → node_new e = node_new e'.
Proof. unfold row_key, node_new. by intros [= -> ->]. Qed.

Lemma rel_new_ext e e' : table_key e = table_key e' → rel_new e = rel_new e'.
Proof.
  destruct e as [[[??]?]?], e' as [[[??]?]?]. unfold rel_new. simpl.
  by intros [= -> -> -> ->].
Qed.

(** *** The edges over two node lists with the same nodes *)

Section edges.
Variables (l0 ns ns' : list node) (rs0 : list rel).
Variables (rows rows' : list (rel_type * rel_row)).
Hypothesis same_elems : ∀ n, n ∈ ns ↔ n ∈ ns'.
Hypothesis same_prefix :
  ∀ i, (i < length l0)%nat → ns !! i = ns' !! i ∧ is_Some (ns !! i).
Hypothesis beyond_new :
  ∀ i n, ns !! i = Some n → (length l0 ≤ i)%nat → node_key n ∉ node_key <$> l0.
Hypothesis below_old :
  ∀ i n, ns' !! i = Some n → (i < length l0)%nat → node_key n ∈ node_key <$> l0.
Hypothesis same_rows :
  ∀ k, filter (λ x, rel_row_key x = k) rows = filter (λ x, rel_row_key x = k) rows'.
Hypothesis in_range :
  ∀ r, r ∈ rs0 → (r_src r < length l0)%nat ∧ (r_tgt r < length l0)%nat.

Local Abbreviation evs := (rows ≫= λ x, rel_table x.1 ns x.2).
Local Abbreviation evs' := (rows' ≫= λ x, rel_table x.1 ns' x.2).
Local Abbreviation final := (set_all table_key rel_key rel_set).

Lemma same_node_prefix i :
  (i < length l0)%nat → same_node (length l0) ns ns' i i.
Proof.
  intros Hi. destruct (same_prefix i Hi) as [Heq [n Hn]].
  split; [|done]. exists n. split; [done|congruence].
Qed.

Lemma same_node_total i n :
  ns !! i = Some n → ∃ i', same_node (length l0) ns ns' i i'.
Proof.
  intros Hi. destruct (decide (i < length l0)%nat) as [Hlt|Hge].
  - exists i. by apply same_node_prefix.
  - assert (n ∈ ns') as (i' & Hi')%list_elem_of_lookup_1.
    { apply same_elems. by eapply list_elem_of_lookup_2. }
    exists i'. split; [eauto|]. intros [Hlt|Hlt]; [done|].
    destruct (beyond_new i n Hi); [lia|]. by apply (below_old i').
Qed.

Lemma last_row_same ty i s s' t t' :
  same_node (length l0) ns ns' s s' → same_node (length l0) ns ns' t t' →
  last (filter (λ x, (x.1, x.2, s, t) ∈ rel_table x.1 ns x.2
                     ∧ rel_row_key x = (ty, i)) rows)
  = last (filter (λ x, (x.1, x.2, s', t') ∈ rel_table x.1 ns' x.2
                       ∧ rel_row_key x = (ty, i)) rows').
Proof.
  intros Hs Ht. f_equal.
  rewrite <- !(list_filter_filter _ (λ x, rel_row_key x = (ty, i))).
  rewrite same_rows. apply filter_ext_in. intros x _.
  by apply (same_node_table (length l0)).
Qed.

(** Two edges with the same attributes between the same nodes look the
    same after the rows have set them. *)
Lemma view_final r r' ty i s s' t t' :
  rel_key r = (ty, s, t, i) → rel_key r' = (ty, s', t', i) →
  r_schema r = r_schema r' → r_datasets r = r_datasets r' →
  r_modified_at r = r_modified_at r' →
  same_node (length l0) ns ns' s s' → same_node (length l0) ns ns' t t' →
  edge_view ns (final evs r) = edge_view ns' (final evs' r').
Proof.
  intros Hk Hk' Hsch Hds Hmod Hs Ht.
  rewrite !(final_last table_key rel_key rel_set rel_set_key rel_set_set).
  rewrite Hk, Hk', !last_rel_event, (last_row_same ty i s s' t t' Hs Ht).
  destruct Hs as [(n & Hn & Hn') _]. destruct Ht as [(m & Hm & Hm') _].
  injection Hk as Hty Hsrc Htgt Hid. injection Hk' as Hty' Hsrc' Htgt' Hid'.
  destruct (last _) as [[ty0 row0]|]; unfold edge_view; simpl;
    rewrite Hsrc, Htgt, Hsrc', Htgt', Hn, Hn', Hm, Hm'; congruence.
Qed.

Lemma view_transfer v :
  v ∈ edge_view ns <$> foldl merge_rel rs0 evs →
  v ∈ edge_view ns' <$> foldl merge_rel rs0 evs'.
Proof.
  intros (r & -> & Hr)%list_elem_of_fmap.
  apply (elem_of_foldl_upsert table_key rel_key rel_set rel_new
           rel_set_key rel_new_key rel_new_ext) in Hr
    as [(r0 & Hr0 & ->)|(e & He & Hfresh & ->)].
  - destruct (in_range r0 Hr0) as [Hsrc Htgt].
    erewrite (view_final r0 r0 (r_type r0) (r_ftm_id r0));
      [|done..|by apply same_node_prefix|by apply same_node_prefix].
    apply list_elem_of_fmap. eexists. split; [done|].
    apply (elem_of_foldl_upsert table_key rel_key rel_set rel_new
             rel_set_key rel_new_key rel_new_ext). eauto.
  - apply list_elem_of_bind in He as ([ty row] & He & Hrow). simpl in He.
    pose proof He as (s & t & -> & Hs & Ht)%elem_of_rel_table_iff.
    destruct (endpoint_is_node _ _ _ Hs) as (n & Hn & _).
    destruct (endpoint_is_node _ _ _ Ht) as (m & Hm & _).
    destruct (same_node_total s n Hn) as (s' & Hss).
    destruct (same_node_total t m Hm) as (t' & Htt).
    erewrite (view_final (rel_new (ty, row, s, t)) (rel_new (ty, row, s', t'))
                ty (rr_id row) s s' t t'); [|done..].
    apply list_elem_of_fmap. eexists. split; [done|].
    apply (elem_of_foldl_upsert table_key rel_key rel_set rel_new
             rel_set_key rel_new_key rel_new_ext).
    right. exists (ty, row, s', t'). split_and!; [|  |done].
    + apply list_elem_of_bind. exists (ty, row). split.
      * simpl. by apply (same_node_table (length l0) ns ns' same_elems ty row s s' t t').
      * assert ((ty, row) ∈ filter (λ x, rel_row_key x = (ty, rr_id row)) rows)
          as Hin by by apply list_elem_of_filter.
        rewrite same_rows in Hin. by apply list_elem_of_filter in Hin as [_ ?].
    + intros (r0 & Hk & Hr0)%list_elem_of_fmap. apply Hfresh.
      apply list_elem_of_fmap. exists r0. split; [|done].
      destruct (in_range r0 Hr0) as [Hsrc Htgt].
      simpl in Hk. unfold rel_key in Hk. injection Hk as Hty Hs' Ht' Hid.
      destruct Hss as [_ Hss]. destruct Htt as [_ Htt].
      rewrite (Hss ltac:(right; lia)), (Htt ltac:(right; lia)).
      simpl. unfold rel_key. congruence.
Qed.

End edges.

(** One direction of the comparison: what the first store holds, the
    second holds. *)
Lemma graph_transfer l0 rs0 (nevs nevs' : list (label * node_row))
    (rows rows' : list (rel_type * rel_row)) :
  (∀ k, filter (λ x, row_key x = k) nevs = filter (λ x, row_key x = k) nevs') →
  (∀ k, filter (λ x, rel_row_key x = k) rows
        = filter (λ x, rel_row_key x = k) rows') →
  (∀ r, r ∈ rs0 → (r_src r < length l0)%nat ∧ (r_tgt r < length l0)%nat) →
  let ns := foldl merge_node l0 nevs in
  let ns' := foldl merge_node l0 nevs' in
  (∀ n, n ∈ ns → n ∈ ns')
  ∧ (∀ v, v ∈ edge_view ns <$>
              foldl merge_rel rs0 (rows ≫= λ x, rel_table x.1 ns x.2) →
          v ∈ edge_view ns' <$>
              foldl merge_rel rs0 (rows' ≫= λ x, rel_table x.1 ns' x.2)).
Proof.
  intros Hnevs Hrows Hrange ns ns'.
  assert (∀ k, filter (λ x, row_key x = k) nevs'
               = filter (λ x, row_key x = k) nevs) as Hnevs'
    by (intros k; by rewrite Hnevs).
  assert (∀ n, n ∈ ns ↔ n ∈ ns') as Helems.
  { intros n. split;
      apply (foldl_upsert_same_order row_key node_key node_set node_new
               node_set_key node_new_key node_set_set node_new_ext); done. }
  split; [intros n; apply Helems|].
  apply (view_transfer l0); [done| | | |done|done].
  - intros i [a0 Ha0]%lookup_lt_is_Some.
    pose proof (lookup_foldl_upsert row_key node_key node_set node_new
                  nevs l0 i a0 Ha0) as Hi.
    pose proof (lookup_foldl_upsert row_key node_key node_set node_new
                  nevs' l0 i a0 Ha0) as Hi'.
    fold merge_node in Hi, Hi'. fold ns in Hi. fold ns' in Hi'.
    rewrite Hi, Hi'. split; [|by eexists]. f_equal.
    by apply (final_same_order row_key node_key node_set
                node_set_key node_set_set).
  - intros i n Hi Hge.
    by apply (lookup_foldl_upsert_new row_key node_key node_set node_new
                node_set_key node_new_key nevs l0 i n).
  - intros i n Hi [a0 Ha0]%lookup_lt_is_Some.
    pose proof (lookup_foldl_upsert row_key node_key node_set node_new
                  nevs' l0 i a0 Ha0) as Hi'.
    fold merge_node in Hi'. fold ns' in Hi'. rewrite Hi' in Hi.
    injection Hi as <-.
    rewrite (final_key row_key node_key node_set node_set_key).
    apply list_elem_of_fmap. exists a0.
    split; [done|by eapply list_elem_of_lookup_2].
Qed.

Lemma ingest_result entities bs ns rs :
  (import_nodes entities ([] : list write) bs).2 = Ok ns →
  (import_relationships entities ([] : list write) bs).2 = Ok rs →
  (ingest entities bs ([] : list write)).2
  = Ok {| nodes_count := ns; rels_count := rs |}.
Proof.
  intros Hn Hr. unfold ingest.
  destruct (import_nodes entities [] bs) as [nlog [ns'|e]]; simpl in *; [|done].
  rewrite (import_relationships_writes entities bs nlog). simpl.
  rewrite Hr. by injection Hn as ->.
Qed.

(** A reordered input goes through when the input does, and reports the
    same counts. *)
Lemma ingest_ok_reordered es es' tail bs summary :
  es ≡ₚ es' →
  (ingest (es, tail) bs ([] : list write)).2 = Ok summary →
  (ingest (es', tail) bs ([] : list write)).2 = Ok summary.
Proof.
  intros Hperm [Hn Hr]%ingest_ok.
  assert (∃ c, (import_nodes (es', tail) ([] : list write) bs).2 = Ok c)
    as [c Hn'].
  { apply import_nodes_ok.
    destruct (proj1 (import_nodes_ok (es, tail) bs []) (ex_intro _ _ Hn))
      as [Htail Hall].
    split; [done|]. intros e He. apply Hall. simpl in *. by rewrite Hperm. }
  assert (∃ c, (import_relationships (es', tail) ([] : list write) bs).2 = Ok c)
    as [r Hr'].
  { apply import_relationships_ok.
    destruct (proj1 (import_relationships_ok (es, tail) bs []) (ex_intro _ _ Hr))
      as [Htail Hall].
    split; [done|]. intros e He. apply Hall. simpl in *. by rewrite Hperm. }
  rewrite (ingest_result _ _ _ _ Hn' Hr').
  destruct (import_nodes_log (es, tail) bs) as (_ & _ & Hc).
  destruct (Hc _ Hn) as [_ Hcn].
  destruct (import_nodes_log (es', tail) bs) as (_ & _ & Hc').
  destruct (Hc' _ Hn') as [_ Hcn'].
  destruct (import_relationships_log (es, tail) bs) as (_ & _ & Hd).
  destruct (Hd _ Hr) as [_ Hcr].
  destruct (import_relationships_log (es', tail) bs) as (_ & _ & Hd').
  destruct (Hd' _ Hr') as [_ Hcr'].
  cbn zeta in *. simpl in *.
  assert (∀ {L R} `{EqDecision L} (l : L) (xs ys : list (L * R)),
            xs ≡ₚ ys → length (rows_for l xs) = length (rows_for l ys)) as Hlen.
  { intros L R ? l xs ys Hxy. unfold rows_for. by rewrite Hxy. }
  destruct summary as [sn sr]. simpl in *. subst sn sr c r.
  by rewrite !(Hlen _ _ _ _ (omap node_row_of es) (omap node_row_of es')),
             !(Hlen _ _ _ _ (omap rel_row_of es) (omap rel_row_of es'))
    by by rewrite Hperm.
Qed.

(** C7 (as amended) — the order of the records matters only among records
    of the same schema and identifier: when a run over an input ends
    without an exception, a run over any permutation of it that keeps the
    records of each schema and identifier in their relative order ends with
    the same counts and leaves the same graph, that is the same nodes and
    the same edges between the same nodes, whatever the positions the store
    gives the nodes; in particular node and edge records may be
    interleaved in any way.  The store the runs start from holds edges
    between its own nodes only. *)
Theorem reordering_keeps_graph (es es' : list dict) (tail : option exn)
    (bs : Z) (st : store) (summary : summary) :
  es ≡ₚ es' →
  same_order_per_key es es' →
  rels_in_range st →
  (ingest (es, tail) bs st).2 = Ok summary →
  (ingest (es', tail) bs st).2 = Ok summary
  ∧ same_graph (ingest (es, tail) bs st).1 (ingest (es', tail) bs st).1.
Proof.
  intros Hperm Hso Hrange Hok.
  rewrite ingest_writes in Hok. simpl in Hok.
  pose proof (ingest_ok_reordered _ _ _ _ _ Hperm Hok) as Hok'.
  split; [by rewrite ingest_writes|].
  destruct (ingest_ok _ _ _ Hok) as [Hn Hr].
  destruct (ingest_ok _ _ _ Hok') as [Hn' Hr'].
  rewrite !ingest_store. cbn zeta. rewrite Hn, Hn', !rel_events_rows.
  pose proof (λ k, node_events_same_order es es' tail bs _ _ k Hso Hn Hn') as Hnevs.
  pose proof (λ k, rel_rows_same_order es es' tail bs _ _ k Hso Hr Hr') as Hrows.
  destruct (graph_transfer (nodes st) (rels st) _ _ _ _ Hnevs Hrows Hrange)
    as [Hnodes Hviews].
  destruct (graph_transfer (nodes st) (rels st) _ _ _ _
              (λ k, eq_sym (Hnevs k)) (λ k, eq_sym (Hrows k)) Hrange)
    as [Hnodes' Hviews'].
  split; simpl; split; auto.
Qed.

Lemma reordering_keeps_graph_witness :
  let es := [Samples.acme; Samples.jane; Samples.d1] in
  let es' := [Samples.d1; Samples.jane; Samples.acme] in
  (ingest (es', None) 5000 Store.empty).2
  = Ok {| nodes_count := (1, 1); rels_count := (1, 0) |}
  ∧ same_graph (ingest (es, None) 5000 Store.empty).1
               (ingest (es', None) 5000 Store.empty).1.
Proof.
  apply (reordering_keeps_graph
           [Samples.acme; Samples.jane; Samples.d1]
           [Samples.d1; Samples.jane; Samples.acme] None 5000 Store.empty).
  - etransitivity; [apply perm_swap|]. etransitivity; [apply perm_skip, perm_swap|].
    apply perm_swap.
  - intros k.
    destruct (decide (k = record_key Samples.acme)) as [->|Ha]; [reflexivity|].
    destruct (decide (k = record_key Samples.jane)) as [->|Hj]; [reflexivity|].
    destruct (decide (k = record_key Samples.d1)) as [->|Hd]; [reflexivity|].
    by rewrite !filter_cons_False by (intros ?; congruence).
  - by intros r ?%elem_of_nil.
  - reflexivity.
Defined.

End ReorderFacts.

(** ** Streaming source reader *)

Module ReaderFacts.
Import Reader.

Lemma first_non_ws_all_ws chunk :
  Forall (λ b, is_ws b = true) chunk → first_non_ws chunk = None.
Proof. induction 1 as [|b l Hb _ IH]; simpl; [done|by rewrite Hb]. Qed.

Lemma first_non_ws_found ws b rest :
  Forall (λ b, is_ws b = true) ws → is_ws b = false →
  first_non_ws (ws ++ b :: rest) = Some b.
Proof.
  intros Hws Hb. induction Hws as [|w l Hw _ IH]; simpl.
  - by rewrite Hb.
  - by rewrite Hw.
Qed.

Lemma omap_as_dict (items : list value) :
  VDict <$> omap as_dict items = filter (λ v, is_object v = true) items.
Proof.
  induction items as [|v l IH]; [done|].
  rewrite filter_cons. destruct v; simpl; try exact IH.
  f_equal. exact IH.
Qed.

Lemma is_open_bracket b : (Byte.to_N b =? 91)%N = Byte.eqb b open_bracket.
Proof. by destruct b. Qed.

Lemma is_ws_bytes b :
  is_ws b = true ↔ b = Byte.x09 ∨ b = Byte.x0a ∨ b = Byte.x0d ∨ b = Byte.x20.
Proof.
  split.
  - intros H.
    destruct b;
      first [discriminate H
            |left; reflexivity
            |right; left; reflexivity
            |right; right; left; reflexivity
            |right; right; right; reflexivity].
  - by intros [->|[->|[->| ->]]].
Qed.

(** C8 — the reader picks its mode from the first byte, among the first
    4096 of the file, that is not a tab (9), a line feed (10), a carriage
    return (13) or a space (32): the opening bracket (91) selects the
    decoder's array mode, any other byte its multiple-values mode; in both
    modes the decoded values that are objects are produced, in order, and
    the others are skipped; when the first 4096 bytes are all among those
    four, the reader gives the empty sequence and calls no decoder. *)
Theorem reader_mode_by_first_byte
    (ijson_items : list Byte.byte → string → bool → stream value)
    (file : list Byte.byte) :
  let chunk := take 4096 file in
  let blank (b : Byte.byte) :=
    b = Byte.x09 ∨ b = Byte.x0a ∨ b = Byte.x0d ∨ b = Byte.x20 in
  let decoded (b : Byte.byte) :=
    if Byte.eqb b Byte.x5b then ijson_items file "item" false
    else ijson_items file "" true in
  (Forall blank chunk → iter_entities ijson_items file = ([], None))
  ∧ (∀ ws b rest,
       chunk = ws ++ b :: rest → Forall blank ws → ¬ blank b →
       ∃ entities,
         iter_entities ijson_items file = (entities, (decoded b).2)
         ∧ VDict <$> entities = filter (λ v, is_object v = true) (decoded b).1).
Proof.
  cbn zeta. change 4096%nat with peek_bytes. split.
  - intros Hws. unfold iter_entities, _first_non_ws_byte.
    rewrite first_non_ws_all_ws; [done|].
    eapply Forall_impl; [exact Hws|]. intros b. apply is_ws_bytes.
  - intros ws b rest Hc Hws Hb. unfold iter_entities, _first_non_ws_byte.
    rewrite Hc, first_non_ws_found.
    + change Byte.x5b with open_bracket. rewrite <- is_open_bracket.
      destruct (Byte.to_N b =? 91)%N;
        [destruct (ijson_items file "item" false) as [items e]
        |destruct (ijson_items file "" true) as [items e]];
        simpl; eexists; (split; [reflexivity|apply omap_as_dict]).
    + eapply Forall_impl; [exact Hws|]. intros b'. apply is_ws_bytes.
    + destruct (is_ws b) eqn:Hw; [|done]. by apply is_ws_bytes in Hw.
Qed.

Lemma reader_mode_by_first_byte_witness :
  (∃ entities,
     iter_entities Examples.mode_items
       [Byte.x09; Byte.x0a; Byte.x0d; Byte.x20; Byte.x5b; Byte.x5d]
     = (entities, None)
     ∧ VDict <$> entities
       = [VDict [("mode", VStr "array"); ("prefix", VStr "item")]])
  ∧ (∃ entities,
       iter_entities Examples.mode_items [Byte.x20; Byte.x7b; Byte.x7d]
       = (entities, None)
       ∧ VDict <$> entities
         = [VDict [("mode", VStr "values"); ("prefix", VStr "")]])
  ∧ iter_entities Examples.mode_items [Byte.x09; Byte.x0a; Byte.x0d; Byte.x20]
    = ([], None).
Proof.
  split_and!.
  - refine (proj2 (reader_mode_by_first_byte Examples.mode_items
              [Byte.x09; Byte.x0a; Byte.x0d; Byte.x20; Byte.x5b; Byte.x5d])
              [Byte.x09; Byte.x0a; Byte.x0d; Byte.x20] Byte.x5b [Byte.x5d]
              eq_refl _ _).
    + repeat first [apply List.Forall_nil|apply List.Forall_cons; [auto 6|]].
    + intros [H|[H|[H|H]]]; discriminate H.
  - refine (proj2 (reader_mode_by_first_byte Examples.mode_items
              [Byte.x20; Byte.x7b; Byte.x7d])
              [Byte.x20] Byte.x7b [Byte.x7d] eq_refl _ _).
    + repeat first [apply List.Forall_nil|apply List.Forall_cons; [auto 6|]].
    + intros [H|[H|[H|H]]]; discriminate H.
  - refine (proj1 (reader_mode_by_first_byte Examples.mode_items
              [Byte.x09; Byte.x0a; Byte.x0d; Byte.x20]) _).
    repeat first [apply List.Forall_nil|apply List.Forall_cons; [auto 6|]].
Defined.

End ReaderFacts.

(** ** Subgraph assembler *)

Module AssemblerFacts.
Import Assembler.

Section ordered_dict.
Context {V : Type}.
Implicit Types (d : list (string * V)) (k : string).

Lemma od_get_alter f k k' d :
  od_get (od_alter f k d) k' =
    if String.eqb k k' then f <$> od_get d k' else od_get d k'.
Proof.
  induction d as [|[j v] d IH]; simpl.
  - by destruct (String.eqb k k').
  - destruct (String.eqb j k) eqn:Hjk; simpl.
    + apply String.eqb_eq in Hjk as ->.
      destruct (String.eqb k k'); simpl; done.
    + rewrite IH. destruct (String.eqb j k') eqn:Hjk'; [|done].
      apply String.eqb_eq in Hjk' as ->. by rewrite String.eqb_sym, Hjk.
Qed.

Lemma od_get_snoc d k v k' :
  od_get (d ++ [(k, v)]) k' =
    match od_get d k' with
    | Some x => Some x
    | None => if String.eqb k k' then Some v else None
    end.
Proof.
  induction d as [|[j w] d IH]; simpl; [done|].
  by destruct (String.eqb j k').
Qed.

Lemma od_alter_keys f k d : (od_alter f k d).*1 = d.*1.
Proof.
  induction d as [|[j v] d IH]; simpl; [done|].
  destruct (String.eqb j k); simpl; [done|]. f_equal. apply IH.
Qed.

Lemma od_get_None d k : od_get d k = None → k ∉ d.*1.
Proof.
  induction d as [|[j v] d IH]; simpl; [intros _; apply not_elem_of_nil|].
  destruct (String.eqb j k) eqn:Hjk; [done|].
  intros H. apply not_elem_of_cons. split; [|by apply IH].
  intros ->. by rewrite String.eqb_refl in Hjk.
Qed.

Lemma od_get_Some d k v : od_get d k = Some v → (k, v) ∈ d.
Proof.
  induction d as [|[j w] d IH]; simpl; [done|].
  destruct (String.eqb j k) eqn:Hjk.
  - apply String.eqb_eq in Hjk as ->. intros [= ->]. apply elem_of_cons. by left.
  - intros H. apply elem_of_cons. right. by apply IH.
Qed.

Lemma elem_of_od_alter f k d j v :
  (j, v) ∈ od_alter f k d → ∃ w, (j, w) ∈ d ∧ (v = w ∨ v = f w).
Proof.
  induction d as [|[i w] d IH]; simpl; [by intros ?%elem_of_nil|].
  destruct (String.eqb i k).
  - intros [[= -> ->]|H]%elem_of_cons.
    + exists w. split; [apply elem_of_cons; by left|by right].
    + exists v. split; [apply elem_of_cons; by right|by left].
  - intros [[= -> ->]|H]%elem_of_cons.
    + exists w. split; [apply elem_of_cons; by left|by left].
    + destruct (IH H) as (w' & Hw & Hv). exists w'.
      split; [apply elem_of_cons; by right|done].
Qed.
End ordered_dict.

Lemma add_sighting_wf d s : nodes_wf d → nodes_wf (add_sighting d s).
Proof.
  destruct s as [[[i|] nm] ty]; unfold add_sighting, _add_node; simpl; [|done].
  intros [Hnd Hid]. destruct (String.eqb i ""); [done|].
  destruct (od_get d i) as [n|] eqn:Hget.
  - destruct (negb _ && _); [|done]. split.
    + by rewrite od_alter_keys.
    + intros k g (w & Hw & [->| ->])%elem_of_od_alter; simpl; eauto.
  - split.
    + rewrite fmap_app. apply NoDup_app. split_and!; [done| |apply NoDup_singleton].
      intros k Hk [->|[]%elem_of_nil]%elem_of_cons. by apply od_get_None in Hget.
    + intros k g [H|[[= -> ->]|[]%elem_of_nil]%elem_of_cons]%elem_of_app; eauto.
Qed.

Lemma foldl_add_sighting_wf l d :
  nodes_wf d → nodes_wf (foldl add_sighting d l).
Proof.
  revert d. induction l as [|s l IH]; simpl; [done|].
  intros d Hd. apply IH. by apply add_sighting_wf.
Qed.

Lemma nodes_foldl rows a :
  nodes_by_id (foldl fold_row a rows) =
    foldl add_sighting (nodes_by_id a) (rows ≫= sightings).
Proof.
  revert a. induction rows as [|r rows IH]; intros a; [done|].
  simpl. by rewrite IH.
Qed.

(** A named node is never renamed. *)
Lemma named_node_kept l d i g :
  od_get d i = Some g → nonempty (name g) = true →
  od_get (foldl add_sighting d l) i = Some g.
Proof.
  revert d. induction l as [|[[j nm] ty] l IH]; intros d Hget Hname; [done|].
  simpl. apply IH; [|done].
  unfold add_sighting, _add_node; simpl.
  destruct j as [j|]; [|done]. destruct (String.eqb j ""); [done|].
  destruct (od_get d j) as [n|] eqn:Hj.
  - destruct (negb (nonempty (name n)) && nonempty nm) eqn:Hc; [|done].
    rewrite od_get_alter. destruct (String.eqb j i) eqn:Hji; [|done].
    apply String.eqb_eq in Hji as ->. rewrite Hget in Hj. injection Hj as ->.
    by rewrite Hname in Hc.
  - by rewrite od_get_snoc, Hget.
Qed.

Lemma nameless_step d i j nm ty :
  nameless d i → (j = Some i → nonempty nm = false) →
  nameless (add_sighting d (j, nm, ty)) i.
Proof.
  unfold nameless, add_sighting, _add_node; simpl. intros Hd Hj.
  destruct j as [j|]; [|done]. destruct (String.eqb j "") eqn:Hje; [done|].
  destruct (od_get d j) as [n|] eqn:Hget.
  - destruct (negb (nonempty (name n)) && nonempty nm) eqn:Hc; [|done].
    rewrite od_get_alter. destruct (String.eqb j i) eqn:Hji; [|done].
    apply String.eqb_eq in Hji as ->. rewrite Hj in Hc by done.
    by rewrite andb_false_r in Hc.
  - rewrite od_get_snoc. destruct (od_get d i); [done|].
    destruct (String.eqb j i) eqn:Hji; [|done].
    apply String.eqb_eq in Hji as ->. simpl. by apply Hj.
Qed.

Lemma nameless_foldl l d i :
  nameless d i →
  (∀ nm ty, (Some i, nm, ty) ∈ l → nonempty nm = false) →
  nameless (foldl add_sighting d l) i.
Proof.
  revert d. induction l as [|[[j nm] ty] l IH]; intros d Hd Hl; [done|].
  simpl. apply IH.
  - apply nameless_step; [done|]. intros ->. apply (Hl nm ty), elem_of_cons. by left.
  - intros nm' ty' H. apply (Hl nm' ty'), elem_of_cons. by right.
Qed.

Lemma nameless_named d i nm ty :
  i ≠ "" → nameless d i → nonempty nm = true →
  ∃ g, od_get (add_sighting d (Some i, nm, ty)) i = Some g ∧ name g = nm.
Proof.
  unfold nameless, add_sighting, _add_node; simpl. intros Hi Hd Hnm.
  apply String.eqb_neq in Hi as ->.
  destruct (od_get d i) as [n|] eqn:Hget.
  - rewrite Hd, Hnm. simpl. rewrite od_get_alter, String.eqb_refl, Hget. simpl.
    by eexists.
  - rewrite od_get_snoc, Hget, String.eqb_refl. by eexists.
Qed.

(** C3 — names are back-filled and never downgraded: the first non-empty
    name the rows give for a node identifier is the name the node has in
    the view, whether the node was seen before without a name or not, and
    whatever names later rows give; the view has one node per
    identifier. *)
Theorem first_nonempty_name_wins (rows : list row) (i : string)
    (nm : option string) (ty : node_type)
    (before after : list (option string * option string * node_type)) :
  i ≠ "" →
  rows ≫= sightings = before ++ (Some i, nm, ty) :: after →
  nonempty nm = true →
  (∀ nm' ty', (Some i, nm', ty') ∈ before → nonempty nm' = false) →
  ∃ v, get_company_graph (Ok rows) = Ok v
       ∧ NoDup (id <$> v_nodes v)
       ∧ ∃ g, g ∈ v_nodes v ∧ id g = i ∧ name g = nm.
Proof.
  intros Hi Hrows Hnm Hbefore. eexists. split; [reflexivity|]. simpl.
  rewrite nodes_foldl. simpl.
  assert (nodes_wf (foldl add_sighting [] (rows ≫= sightings))) as [Hnd Hid].
  { apply foldl_add_sighting_wf. split; [constructor|]. by intros k g ?%elem_of_nil. }
  split.
  - assert (∀ d : list (string * gnode),
              (∀ k g, (k, g) ∈ d → id g = k) → id <$> d.*2 = d.*1) as Hkeys.
    { induction d as [|[k g] d IH]; intros Hd; [done|]. simpl. f_equal.
      - apply Hd, elem_of_cons. by left.
      - apply IH. intros k' g' H. apply Hd, elem_of_cons. by right. }
    by rewrite Hkeys.
  - rewrite Hrows, foldl_app in *. simpl in *.
    pose proof (nameless_foldl before [] i I Hbefore) as Hn.
    destruct (nameless_named _ i nm ty Hi Hn Hnm) as (g & Hg & Hname).
    pose proof (named_node_kept after _ i g Hg) as Hkept.
    rewrite Hname in Hkept. specialize (Hkept Hnm).
    exists g. split_and!; [|by eapply Hid, od_get_Some|done].
    apply list_elem_of_fmap. exists (i, g). split; [done|by apply od_get_Some].
Qed.

Lemma first_nonempty_name_wins_witness :
  ∃ v, get_company_graph (Ok [Samples.row_nameless; Samples.row_named]) = Ok v
       ∧ NoDup (id <$> v_nodes v)
       ∧ ∃ g, g ∈ v_nodes v ∧ id g = "P1" ∧ name g = Some "Jane".
Proof.
  apply (first_nonempty_name_wins
           [Samples.row_nameless; Samples.row_named] "P1" (Some "Jane") person
           [(Some "C1", Some "Acme", company); (Some "P1", None, person);
            (None, None, company); (Some "C1", Some "Acme", company)]
           [(None, None, company)]).
  - discriminate.
  - reflexivity.
  - reflexivity.
  - intros nm' ty' H.
    apply elem_of_cons in H as [H|H]; [discriminate|].
    apply elem_of_cons in H as [H|H]; [by injection H as -> ->|].
    apply elem_of_cons in H as [H|H]; [discriminate|].
    apply elem_of_cons in H as [H|H]; [discriminate|].
    by apply elem_of_nil in H.
Defined.

Lemma add_link_spec src tgt rl ls :
  links_wf ls →
  links_wf (_add_link src tgt rl ls)
  ∧ ∀ l, l ∈ (_add_link src tgt rl ls).2 ↔ l ∈ ls.2 ∨ link_of (src, tgt, rl) = Some l.
Proof.
  destruct ls as [set lst]. intros [Hnd Hset]. unfold _add_link, link_of. simpl in *.
  destruct src as [s|], tgt as [t|];
    try (split; [done|intros l; split; [by left|by intros [?|?]]]).
  destruct (String.eqb s "" || String.eqb t "");
    [split; [done|intros l; split; [by left|by intros [?|?]]]|].
  case_bool_decide as Hin.
  - split; [done|]. intros l. split; [by left|].
    intros [H|[= <-]]; [done|]. by apply Hset.
  - simpl. split; [split|].
    + apply NoDup_app. split_and!; [done| |apply NoDup_singleton].
      intros l Hl [->|[]%elem_of_nil]%elem_of_cons. by apply Hin, Hset.
    + intros s' t' r'. simpl.
      rewrite elem_of_union, elem_of_singleton, elem_of_app.
      rewrite Hset, list_elem_of_singleton. naive_solver.
    + intros l. rewrite elem_of_app, list_elem_of_singleton. naive_solver.
Qed.

Lemma links_fold_row a r :
  links_wf (links_of a) →
  links_wf (links_of (fold_row a r))
  ∧ ∀ l, l ∈ (links_of (fold_row a r)).2 ↔
         l ∈ (links_of a).2 ∨ ∃ c, c ∈ candidates r ∧ link_of c = Some l.
Proof.
  intros Hwf. unfold fold_row, candidates. simpl.
  destruct (add_link_spec (person_id r) (root_id r) (role_to_root r) _ Hwf)
    as [Hwf1 H1].
  destruct (add_link_spec (person_id r) (other_company_id r) (role_to_other r) _ Hwf1)
    as [Hwf2 H2].
  split; [done|]. intros l. rewrite H2, H1. split.
  - intros [[H|H]|H]; [by left|right..]; eexists; (split; [|done]);
      [apply elem_of_cons; by left|apply elem_of_cons; right; apply elem_of_cons; by left].
  - intros [H|(c & Hc & Hl)]; [by left; left|].
    apply elem_of_cons in Hc as [->|Hc]; [by left; right|].
    apply elem_of_cons in Hc as [->|[]%elem_of_nil]. by right.
Qed.

Lemma links_foldl rows a :
  links_wf (links_of a) →
  links_wf (links_of (foldl fold_row a rows))
  ∧ ∀ l, l ∈ (links_of (foldl fold_row a rows)).2 ↔
         l ∈ (links_of a).2
         ∨ ∃ r c, r ∈ rows ∧ c ∈ candidates r ∧ link_of c = Some l.
Proof.
  revert a. induction rows as [|r rows IH]; intros a Hwf; simpl.
  - split; [done|]. intros l. split; [by left|].
    by intros [H|(r & c & []%elem_of_nil & _)].
  - destruct (links_fold_row a r Hwf) as [Hwf1 H1].
    destruct (IH _ Hwf1) as [Hwf2 H2]. split; [done|].
    intros l. rewrite H2, H1. split.
    + intros [[H|(c & Hc & Hl)]|(r' & c & Hr & Hc & Hl)]; [by left|right..].
      * exists r, c. split_and!; [apply elem_of_cons; by left|done..].
      * exists r', c. split_and!; [apply elem_of_cons; by right|done..].
    + intros [H|(r' & c & Hr & Hc & Hl)]; [by left; left|].
      apply elem_of_cons in Hr as [->|Hr]; [left; right; eauto|right; eauto].
Qed.

(** C2 — the assembled edge list holds each (source, target, role) triple
    at most once; an edge is in it exactly when some row calls for it with
    both identifiers present and non-empty; its role is the role of the
    call when that is a non-empty string, and the single value [None] when
    the call has no role or the empty one.  So two calls for the same two
    nodes with two different non-empty roles give two edges, at two places
    of the list, and a call with a missing end adds none. *)
Theorem assembled_links_deduplicated (rows : list row) :
  ∃ v, get_company_graph (Ok rows) = Ok v
       ∧ NoDup (v_links v)
       ∧ (∀ l, l ∈ v_links v → role l ≠ Some "")
       ∧ (∀ s t r,
            {| source := s; target := t; role := r |} ∈ v_links v ↔
            s ≠ "" ∧ t ≠ "" ∧
            ∃ row rl, row ∈ rows ∧ (Some s, Some t, rl) ∈ candidates row
                      ∧ ((r = None ∧ (rl = None ∨ rl = Some ""))
                         ∨ (∃ ρ, ρ ≠ "" ∧ rl = Some ρ ∧ r = Some ρ)))
       ∧ (∀ s t ρ1 ρ2 row1 row2,
            s ≠ "" → t ≠ "" → ρ1 ≠ "" → ρ2 ≠ "" → ρ1 ≠ ρ2 →
            row1 ∈ rows → (Some s, Some t, Some ρ1) ∈ candidates row1 →
            row2 ∈ rows → (Some s, Some t, Some ρ2) ∈ candidates row2 →
            ∃ i j, i ≠ j
                   ∧ v_links v !! i
                     = Some {| source := s; target := t; role := Some ρ1 |}
                   ∧ v_links v !! j
                     = Some {| source := s; target := t; role := Some ρ2 |}).
Proof.
  eexists. split; [reflexivity|]. simpl.
  assert (links_wf (links_of init)) as Hinit.
  { split; [constructor|]. intros s t r. simpl.
    split; [by intros ?%not_elem_of_empty|by intros ?%elem_of_nil]. }
  destruct (links_foldl rows init Hinit) as [[Hnd _] Hl].
  assert (∀ c l, link_of c = Some l ↔
            ∃ s t rl, c = (Some s, Some t, rl) ∧ s ≠ "" ∧ t ≠ ""
                      ∧ l = {| source := s; target := t; role := or_none rl |})
    as Hlink.
  { intros [[[s|] [t|]] rl] l; simpl;
      try (split; [done|by intros (?&?&?&[=]&?)]).
    destruct (String.eqb s "") eqn:Hs; simpl.
    { apply String.eqb_eq in Hs as ->.
      split; [done|]. by intros (?&?&?&[= <- <- <-]&?&?). }
    destruct (String.eqb t "") eqn:Ht; simpl.
    { apply String.eqb_eq in Ht as ->.
      split; [done|]. by intros (?&?&?&[= <- <- <-]&?&?&?). }
    apply String.eqb_neq in Hs, Ht. split.
    - intros [= <-]. eauto 10.
    - by intros (?&?&?&[= <- <- <-]&?&?&->). }
  assert (∀ rl r, r = or_none rl ↔
            (r = None ∧ (rl = None ∨ rl = Some ""))
            ∨ (∃ ρ, ρ ≠ "" ∧ rl = Some ρ ∧ r = Some ρ)) as Hrole.
  { intros [ρ|] r; unfold or_none; simpl.
    - destruct (String.eqb ρ "") eqn:Hρ; simpl.
      + apply String.eqb_eq in Hρ as ->. split; [by left; auto|].
        intros [[-> _]|(ρ & Hne & [= <-] & _)]; done.
      + apply String.eqb_neq in Hρ. split; [intros ->; right; eauto|].
        intros [[_ [?|[= ->]]]|(ρ' & _ & [= <-] & ->)]; done.
    - split; [by left; auto|]. by intros [[-> _]|(? & _ & ? & _)]. }
  assert (∀ s t r,
            {| source := s; target := t; role := r |}
            ∈ (links_of (foldl fold_row init rows)).2 ↔
            s ≠ "" ∧ t ≠ "" ∧
            ∃ row rl, row ∈ rows ∧ (Some s, Some t, rl) ∈ candidates row
                      ∧ r = or_none rl) as Hin.
  { intros s t r. rewrite Hl. split.
    - intros [[]%elem_of_nil|(row & c & Hrow & Hc & Hlk)].
      apply Hlink in Hlk as (s' & t' & rl & -> & Hs & Ht & [= -> -> ->]).
      eauto 10.
    - intros (Hs & Ht & row & rl & Hrow & Hc & ->). right.
      exists row, (Some s, Some t, rl). split_and!; [done..|].
      apply Hlink. eauto 10. }
  split_and!; [done|..].
  - intros l [[]%elem_of_nil|(r & c & _ & _ & Hc)]%Hl.
    apply Hlink in Hc as (s & t & rl & _ & _ & _ & ->). simpl.
    unfold or_none. destruct rl as [rl|]; simpl; [|done].
    destruct (String.eqb rl "") eqn:Hrl; simpl; [done|].
    intros [= ->]. done.
  - intros s t r. rewrite Hin. by setoid_rewrite Hrole.
  - intros s t ρ1 ρ2 row1 row2 Hs Ht H1 H2 Hne Hr1 Hc1 Hr2 Hc2.
    assert ({| source := s; target := t; role := Some ρ1 |}
            ∈ (links_of (foldl fold_row init rows)).2) as [i Hi]%list_elem_of_lookup_1.
    { apply Hin. split_and!; [done..|]. exists row1, (Some ρ1).
      split_and!; [done..|]. apply Hrole. right. eauto. }
    assert ({| source := s; target := t; role := Some ρ2 |}
            ∈ (links_of (foldl fold_row init rows)).2) as [j Hj]%list_elem_of_lookup_1.
    { apply Hin. split_and!; [done..|]. exists row2, (Some ρ2).
      split_and!; [done..|]. apply Hrole. right. eauto. }
    exists i, j. split_and!; [|done..].
    intros ->. rewrite Hi in Hj. by injection Hj.
Qed.

Lemma assembled_links_deduplicated_witness :
  get_company_graph (Ok Examples.role_rows)
  = Ok {| v_nodes :=
            [ {| id := "C1"; name := Some "Acme"; type := company |};
              {| id := "P1"; name := None; type := person |} ];
          v_links :=
            [ {| source := "P1"; target := "C1"; role := Some "director" |};
              {| source := "P1"; target := "C1"; role := Some "owner" |};
              {| source := "P1"; target := "C1"; role := None |} ] |}
  ∧ NoDup
      [ {| source := "P1"; target := "C1"; role := Some "director" |};
        {| source := "P1"; target := "C1"; role := Some "owner" |};
        {| source := "P1"; target := "C1"; role := None |} ].
Proof.
  destruct (assembled_links_deduplicated Examples.role_rows) as (v & Hv & Hnd & _).
  assert (get_company_graph (Ok Examples.role_rows)
          = Ok {| v_nodes :=
                    [ {| id := "C1"; name := Some "Acme"; type := company |};
                      {| id := "P1"; name := None; type := person |} ];
                  v_links :=
                    [ {| source := "P1"; target := "C1"; role := Some "director" |};
                      {| source := "P1"; target := "C1"; role := Some "owner" |};
                      {| source := "P1"; target := "C1"; role := None |} ] |})
    as Heq by (vm_compute; reflexivity).
  rewrite Heq in Hv. injection Hv as <-. exact (conj Heq Hnd).
Defined.

End AssemblerFacts.

(** ** Search with fallback *)

Module SearchFacts.
Import Search.


(** On the sample store without an index the search is answered by the
    substring statement. *)
Example no_index_falls_back :
  search_companies Samples.no_index "acme" 10 []
  = ([fulltext_cypher "acme*" 10; fallback_cypher "acme" 10],
     Ok [{| h_id := VStr "C1"; h_name := VStr "Acme"; h_score := VDecimal 0 (-1) |}]).
Proof. reflexivity. Qed.

End SearchFacts.

(** * Further properties *)

(** ** Transactions of a run *)

Module BatchFacts.
Import Classifier Store Ingest SessionFacts StoreFacts PassFacts IngestFacts Run.

Lemma batch_cap_pos bs : (1 ≤ batch_cap bs)%nat.
Proof. unfold batch_cap. lia. Qed.

Lemma batch_cap_full bs (n : nat) :
  (n < batch_cap bs)%nat → (bs <=? Z.of_nat (S n))%Z = true → S n = batch_cap bs.
Proof. unfold batch_cap. intros Hn Hb%Z.leb_le. lia. Qed.

Lemma batch_cap_room bs (n : nat) :
  (bs <=? Z.of_nat (S n))%Z = false → (S n < batch_cap bs)%nat.
Proof. unfold batch_cap. intros Hb%Z.leb_gt. lia. Qed.

Lemma flush_nodes_sized bs log l batch :
  Forall (sized bs) log → (length batch ≤ batch_cap bs)%nat →
  Forall (sized bs) (flush_nodes log l batch).1.
Proof.
  intros Hlog Hlen. destruct batch as [|row batch]; [done|].
  simpl. apply Forall_app. split; [done|].
  apply Forall_singleton. unfold sized. simpl in *. lia.
Qed.

Lemma flush_rels_sized bs log ty batch :
  Forall (sized bs) log → (length batch ≤ batch_cap bs)%nat →
  Forall (sized bs) (flush_rels log ty batch).1.
Proof.
  intros Hlog Hlen. destruct batch as [|row batch]; [done|].
  simpl. apply Forall_app. split; [done|].
  apply Forall_singleton. unfold sized. simpl in *. lia.
Qed.

Lemma append_flush_nodes_sized bs log l batch row :
  Forall (sized bs) log → (length batch < batch_cap bs)%nat →
  let r := if (bs <=? Z.of_nat (length (batch ++ [row])))%Z
           then flush_nodes log l (batch ++ [row])
           else (log, batch ++ [row]) in
  Forall (sized bs) r.1 ∧ (length r.2 < batch_cap bs)%nat.
Proof.
  intros Hlog Hlen. cbn zeta. rewrite length_app. simpl.
  replace (length batch + 1)%nat with (S (length batch)) by lia.
  destruct (bs <=? _)%Z eqn:Hb.
  - split.
    + apply flush_nodes_sized; [done|]. rewrite length_app. simpl. lia.
    + destruct batch; simpl; apply batch_cap_pos.
  - split; [done|]. simpl. rewrite length_app. simpl.
    apply batch_cap_room in Hb. lia.
Qed.

Lemma append_flush_rels_sized bs log ty batch row :
  Forall (sized bs) log → (length batch < batch_cap bs)%nat →
  let r := if (bs <=? Z.of_nat (length (batch ++ [row])))%Z
           then flush_rels log ty (batch ++ [row])
           else (log, batch ++ [row]) in
  Forall (sized bs) r.1 ∧ (length r.2 < batch_cap bs)%nat.
Proof.
  intros Hlog Hlen. cbn zeta. rewrite length_app. simpl.
  replace (length batch + 1)%nat with (S (length batch)) by lia.
  destruct (bs <=? _)%Z eqn:Hb.
  - split.
    + apply flush_rels_sized; [done|]. rewrite length_app. simpl. lia.
    + destruct batch; simpl; apply batch_cap_pos.
  - split; [done|]. simpl. rewrite length_app. simpl.
    apply batch_cap_room in Hb. lia.
Qed.

Lemma import_nodes_step_sized bs s entity s' :
  node_pass_sized bs s → import_nodes_step bs s entity = Ok s' →
  node_pass_sized bs s'.
Proof.
  intros (Hlog & Hc & Hp). unfold import_nodes_step.
  destruct (negb _); [by intros [= <-]|].
  destruct (to_node_row entity) as [row|e]; simpl; [|done].
  destruct (negb (truthy _)); [by intros [= <-]|].
  destruct (eq_str _ "Company").
  - pose proof (append_flush_nodes_sized bs _ Company _ row Hlog Hc) as Hr.
    cbn zeta in Hr.
    destruct (if (bs <=? _)%Z then _ else _) as [log' batch'].
    intros [= <-]. destruct Hr. by split_and!.
  - pose proof (append_flush_nodes_sized bs _ Person _ row Hlog Hp) as Hr.
    cbn zeta in Hr.
    destruct (if (bs <=? _)%Z then _ else _) as [log' batch'].
    intros [= <-]. destruct Hr. by split_and!.
Qed.

Lemma import_nodes_loop_sized bs entities s :
  node_pass_sized bs s →
  Forall (sized bs) (import_nodes_loop bs entities s).1
  ∧ ∀ s', (import_nodes_loop bs entities s).2 = Ok s' → node_pass_sized bs s'.
Proof.
  revert s. induction entities as [|entity rest IH]; intros s Hs; simpl.
  - split; [apply Hs|]. by intros s' [= <-].
  - destruct (import_nodes_step bs s entity) as [s1|e] eqn:Hstep.
    + apply IH. by eapply import_nodes_step_sized.
    + split; [apply Hs|done].
Qed.

Lemma import_nodes_sized entities bs :
  Forall (sized bs) (node_writes entities bs).
Proof.
  unfold node_writes, import_nodes.
  match goal with |- context [import_nodes_loop bs entities.1 ?s0] =>
    destruct (import_nodes_loop_sized bs entities.1 s0) as [Hlog Hres] end.
  { split_and!; [done|apply batch_cap_pos..]. }
  destruct (import_nodes_loop _ _ _) as [log [s|e]]; simpl in *; [|done].
  destruct entities.2; [done|].
  destruct (Hres s eq_refl) as (_ & Hc & Hp).
  pose proof (flush_nodes_sized bs log Company (company_batch s) Hlog) as H1.
  destruct (flush_nodes log Company _) as [log1 ?]. simpl in H1.
  pose proof (flush_nodes_sized bs log1 Person (person_batch s)) as H2.
  destruct (flush_nodes log1 Person _) as [log2 ?]. simpl in *.
  apply H2; [apply H1|]; lia.
Qed.

Lemma import_relationships_step_sized bs s entity s' :
  rel_pass_sized bs s → import_relationships_step bs s entity = Ok s' →
  rel_pass_sized bs s'.
Proof.
  intros (Hlog & Hd & Ho). unfold import_relationships_step.
  destruct (negb _); [by intros [= <-]|].
  destruct (to_rel_row entity) as [[[ty row]|]|e]; simpl; [|by intros [= <-]|done].
  destruct (negb (truthy _)); [by intros [= <-]|].
  destruct ty.
  - pose proof (append_flush_rels_sized bs _ DIRECTORSHIP _ row Hlog Hd) as Hr.
    cbn zeta in Hr.
    destruct (if (bs <=? _)%Z then _ else _) as [log' batch'].
    intros [= <-]. destruct Hr. by split_and!.
  - pose proof (append_flush_rels_sized bs _ OWNERSHIP _ row Hlog Ho) as Hr.
    cbn zeta in Hr.
    destruct (if (bs <=? _)%Z then _ else _) as [log' batch'].
    intros [= <-]. destruct Hr. by split_and!.
Qed.

Lemma import_relationships_loop_sized bs entities s :
  rel_pass_sized bs s →
  Forall (sized bs) (import_relationships_loop bs entities s).1
  ∧ ∀ s', (import_relationships_loop bs entities s).2 = Ok s' → rel_pass_sized bs s'.
Proof.
  revert s. induction entities as [|entity rest IH]; intros s Hs; simpl.
  - split; [apply Hs|]. by intros s' [= <-].
  - destruct (import_relationships_step bs s entity) as [s1|e] eqn:Hstep.
    + apply IH. by eapply import_relationships_step_sized.
    + split; [apply Hs|done].
Qed.

Lemma import_relationships_sized entities bs :
  Forall (sized bs) (rel_writes entities bs).
Proof.
  unfold rel_writes, import_relationships.
  match goal with |- context [import_relationships_loop bs entities.1 ?s0] =>
    destruct (import_relationships_loop_sized bs entities.1 s0) as [Hlog Hres] end.
  { split_and!; [done|apply batch_cap_pos..]. }
  destruct (import_relationships_loop _ _ _) as [log [s|e]]; simpl in *; [|done].
  destruct entities.2; [done|].
  destruct (Hres s eq_refl) as (_ & Hd & Ho).
  pose proof (flush_rels_sized bs log DIRECTORSHIP (directorship_batch s) Hlog) as H1.
  destruct (flush_rels log DIRECTORSHIP _) as [log1 ?]. simpl in H1.
  pose proof (flush_rels_sized bs log1 OWNERSHIP (ownership_batch s)) as H2.
  destruct (flush_rels log1 OWNERSHIP _) as [log2 ?]. simpl in *.
  apply H2; [apply H1|]; lia.
Qed.

(** X1 — no transaction of a run is empty, and none carries more than
    [batch_size] rows (one row when [batch_size] is below one): on every
    session the run is the replay of such writes. *)
Theorem transactions_sized {Sess : Type} {session : Session Sess}
    (entities : Reader.stream dict) (bs : Z) (s0 : Sess) :
  (ingest entities bs s0).1 = replay (writes entities bs) s0
  ∧ (∀ w, w ∈ writes entities bs → (1 ≤ batch_len w ≤ batch_cap bs)%nat)
  ∧ ((bs ≤ 1)%Z → ∀ w, w ∈ writes entities bs → batch_len w = 1%nat).
Proof.
  assert (Forall (sized bs) (writes entities bs)) as Hall.
  { rewrite writes_eq. apply Forall_app. split; [apply import_nodes_sized|].
    destruct (import_nodes entities [] bs).2; [apply import_relationships_sized|done]. }
  split_and!.
  - by rewrite ingest_writes.
  - by apply Forall_forall.
  - intros Hbs w Hw. rewrite Forall_forall in Hall. specialize (Hall w Hw).
    unfold sized, batch_cap in Hall. lia.
Qed.

End BatchFacts.

(** ** The batch size *)

Module BatchSizeFacts.
Import Classifier Store Ingest SessionFacts StoreFacts PassFacts IngestFacts.
Import ReorderFacts Run.

(** Whether a run goes through does not depend on the batch size, nor do
    the counts it reports. *)
Lemma ingest_ok_batch_size entities bs bs' summary :
  (ingest entities bs ([] : list write)).2 = Ok summary →
  (ingest entities bs' ([] : list write)).2 = Ok summary.
Proof.
  intros [Hn Hr]%ingest_ok.
  assert (∃ c, (import_nodes entities ([] : list write) bs').2 = Ok c) as [c Hn'].
  { apply import_nodes_ok. by apply (import_nodes_ok entities bs []); eexists. }
  assert (∃ c, (import_relationships entities ([] : list write) bs').2 = Ok c)
    as [r Hr'].
  { apply import_relationships_ok.
    by apply (import_relationships_ok entities bs []); eexists. }
  rewrite (ingest_result _ _ _ _ Hn' Hr').
  destruct (import_nodes_log entities bs) as (_ & _ & Hc).
  destruct (Hc _ Hn) as [_ Hcn].
  destruct (import_nodes_log entities bs') as (_ & _ & Hc').
  destruct (Hc' _ Hn') as [_ Hcn'].
  destruct (import_relationships_log entities bs) as (_ & _ & Hd).
  destruct (Hd _ Hr) as [_ Hcr].
  destruct (import_relationships_log entities bs') as (_ & _ & Hd').
  destruct (Hd' _ Hr') as [_ Hcr'].
  cbn zeta in *. destruct summary as [sn sr]. simpl in *. by subst.
Qed.

(** X2 — the batch size is a matter of speed only: when a run ends without
    an exception, the run with any other batch size ends with the same
    counts and leaves the same graph, up to the positions the store gives
    the nodes (Company and Person batches are flushed in another order). *)
Theorem batch_size_keeps_graph (entities : Reader.stream dict) (bs bs' : Z)
    (st : store) (summary : summary) :
  rels_in_range st →
  (ingest entities bs st).2 = Ok summary →
  (ingest entities bs' st).2 = Ok summary
  ∧ same_graph (ingest entities bs st).1 (ingest entities bs' st).1.
Proof.
  intros Hrange Hok.
  rewrite ingest_writes in Hok. simpl in Hok.
  pose proof (ingest_ok_batch_size _ _ bs' _ Hok) as Hok'.
  split; [by rewrite ingest_writes|].
  destruct (ingest_ok _ _ _ Hok) as [Hn Hr].
  destruct (ingest_ok _ _ _ Hok') as [Hn' Hr'].
  rewrite !ingest_store. cbn zeta. rewrite Hn, Hn', !rel_events_rows.
  destruct (import_nodes_log entities bs) as (_ & _ & Hc).
  destruct (Hc _ Hn) as [Hev _].
  destruct (import_nodes_log entities bs') as (_ & _ & Hc').
  destruct (Hc' _ Hn') as [Hev' _].
  destruct (import_relationships_log entities bs) as (_ & _ & Hd).
  destruct (Hd _ Hr) as [Hrw _].
  destruct (import_relationships_log entities bs') as (_ & _ & Hd').
  destruct (Hd' _ Hr') as [Hrw' _].
  cbn zeta in *.
  assert (∀ k, filter (λ x, row_key x = k) (node_events (node_writes entities bs))
               = filter (λ x, row_key x = k) (node_events (node_writes entities bs')))
    as Hnevs.
  { intros k. apply events_key_filter. intros l. by rewrite Hev, Hev'. }
  assert (∀ k, filter (λ x, rel_row_key x = k) (rel_rows (rel_writes entities bs))
               = filter (λ x, rel_row_key x = k) (rel_rows (rel_writes entities bs')))
    as Hrows.
  { intros k. apply rows_key_filter. intros ty. by rewrite Hrw, Hrw'. }
  destruct (graph_transfer (nodes st) (rels st) _ _ _ _ Hnevs Hrows Hrange)
    as [Hnodes Hviews].
  destruct (graph_transfer (nodes st) (rels st) _ _ _ _
              (λ k, eq_sym (Hnevs k)) (λ k, eq_sym (Hrows k)) Hrange)
    as [Hnodes' Hviews'].
  split; simpl; split; auto.
Qed.

Lemma batch_size_keeps_graph_witness :
  let entities := ([Samples.jane; Samples.acme; Samples.d1], None) in
  (ingest entities 1 Store.empty).2
  = Ok {| nodes_count := (1, 1); rels_count := (1, 0) |}
  ∧ same_graph (ingest entities 5000 Store.empty).1 (ingest entities 1 Store.empty).1.
Proof.
  apply (batch_size_keeps_graph ([Samples.jane; Samples.acme; Samples.d1], None)
           5000 1 Store.empty).
  - by intros r ?%elem_of_nil.
  - reflexivity.
Defined.

End BatchSizeFacts.

(** ** What a run leaves alone *)

Module FrameFacts.
Import Classifier Store Ingest SessionFacts StoreFacts PassFacts IngestFacts.
Import ReorderFacts Run.

(** *** The rows of the writes come from the records, however the run ends *)

Lemma flush_nodes_events log l batch :
  node_events (flush_nodes log l batch).1 ++ (pair l <$> (flush_nodes log l batch).2)
  = node_events log ++ (pair l <$> batch).
Proof.
  destruct batch as [|row batch]; [done|]. simpl.
  rewrite node_events_app. unfold node_events at 2. simpl.
  by rewrite !app_nil_r.
Qed.

Lemma flush_rels_rows log ty batch :
  rel_rows (flush_rels log ty batch).1 ++ (pair ty <$> (flush_rels log ty batch).2)
  = rel_rows log ++ (pair ty <$> batch).
Proof.
  destruct batch as [|row batch]; [done|]. simpl.
  rewrite rel_rows_app. unfold rel_rows at 2. simpl.
  by rewrite !app_nil_r.
Qed.

Lemma import_nodes_step_from (P : label * node_row → Prop) bs s entity s' :
  node_pass_from P s →
  (∀ e, node_row_of entity = Some e → P e) →
  import_nodes_step bs s entity = Ok s' →
  node_pass_from P s'.
Proof.
  unfold node_pass_from, node_row_of, import_nodes_step.
  intros (Hlog & Hc & Hp) He.
  destruct (eq_str _ "Company" || eq_str _ "Person"); simpl; [|by intros [= <-]].
  destruct (to_node_row entity) as [row|e]; simpl; [|done].
  destruct (truthy (nr_id row)); simpl; [|by intros [= <-]].
  specialize (He _ eq_refl).
  destruct (eq_str _ "Company").
  - pose proof (flush_nodes_events (np_session s) Company (company_batch s ++ [row]))
      as Hfl.
    destruct (bs <=? _)%Z.
    + destruct (flush_nodes _ _ _) as [log' batch']. simpl in Hfl.
      intros [= <-]. simpl.
      assert (Forall P (node_events log' ++ (pair Company <$> batch'))) as Hall.
      { rewrite Hfl, fmap_app. rewrite !Forall_app. split_and!; try done.
        by apply Forall_singleton. }
      apply Forall_app in Hall as [??]. by split_and!.
    + intros [= <-]. simpl. split_and!; [done| |done].
      rewrite fmap_app. apply Forall_app. split; [done|by apply Forall_singleton].
  - pose proof (flush_nodes_events (np_session s) Person (person_batch s ++ [row]))
      as Hfl.
    destruct (bs <=? _)%Z.
    + destruct (flush_nodes _ _ _) as [log' batch']. simpl in Hfl.
      intros [= <-]. simpl.
      assert (Forall P (node_events log' ++ (pair Person <$> batch'))) as Hall.
      { rewrite Hfl, fmap_app. rewrite !Forall_app. split_and!; try done.
        by apply Forall_singleton. }
      apply Forall_app in Hall as [??]. by split_and!.
    + intros [= <-]. simpl. split_and!; [done|done|].
      rewrite fmap_app. apply Forall_app. split; [done|by apply Forall_singleton].
Qed.

Lemma import_nodes_loop_from (P : label * node_row → Prop) bs entities s :
  node_pass_from P s →
  (∀ entity e, entity ∈ entities → node_row_of entity = Some e → P e) →
  Forall P (node_events (import_nodes_loop bs entities s).1)
  ∧ ∀ s', (import_nodes_loop bs entities s).2 = Ok s' → node_pass_from P s'.
Proof.
  revert s. induction entities as [|entity rest IH]; intros s Hs HP; simpl.
  - split; [apply Hs|]. by intros s' [= <-].
  - destruct (import_nodes_step bs s entity) as [s1|e] eqn:Hstep.
    + apply IH.
      * eapply import_nodes_step_from; [done| |done].
        intros e. apply HP. by left.
      * intros entity' e Hin. apply HP. by right.
    + split; [apply Hs|done].
Qed.

(** Every node row a run sends is the row of a record of the input. *)
Lemma node_events_from_records entities bs e :
  e ∈ node_events (node_writes entities bs) → e ∈ omap node_row_of entities.1.
Proof.
  revert e. apply Forall_forall.
  unfold node_writes, import_nodes.
  match goal with |- context [import_nodes_loop bs entities.1 ?s0] =>
    destruct (import_nodes_loop_from (λ e, e ∈ omap node_row_of entities.1)
                bs entities.1 s0) as [Hlog Hres] end.
  { by split_and!. }
  { intros entity e Hin He. apply list_elem_of_omap. by exists entity. }
  destruct (import_nodes_loop _ _ _) as [log [s|e]]; simpl in *; [|done].
  destruct entities.2; [done|].
  destruct (Hres s eq_refl) as (_ & Hc & Hp).
  pose proof (flush_nodes_events log Company (company_batch s)) as H1.
  destruct (flush_nodes log Company _) as [log1 b1]. simpl in H1.
  pose proof (flush_nodes_events log1 Person (person_batch s)) as H2.
  destruct (flush_nodes log1 Person _) as [log2 b2]. simpl in *.
  assert (Forall (λ e, e ∈ omap node_row_of entities.1)
            (node_events log1 ++ (pair Company <$> b1))) as [Hlog1 _]%Forall_app.
  { rewrite H1. by apply Forall_app. }
  assert (Forall (λ e, e ∈ omap node_row_of entities.1)
            (node_events log2 ++ (pair Person <$> b2))) as [Hlog2 _]%Forall_app.
  { rewrite H2. by apply Forall_app. }
  done.
Qed.

Lemma import_relationships_step_from (P : rel_type * rel_row → Prop) bs s entity s' :
  rel_pass_from P s →
  (∀ e, rel_row_of entity = Some e → P e) →
  import_relationships_step bs s entity = Ok s' →
  rel_pass_from P s'.
Proof.
  unfold rel_pass_from, rel_row_of, import_relationships_step.
  intros (Hlog & Hd & Ho) He.
  destruct (eq_str _ "Directorship" || eq_str _ "Ownership"); simpl;
    [|by intros [= <-]].
  destruct (to_rel_row entity) as [[[ty row]|]|e]; simpl; [|by intros [= <-]|done].
  destruct (truthy (rr_id row)); simpl; [|by intros [= <-]].
  specialize (He _ eq_refl).
  destruct ty.
  - pose proof (flush_rels_rows (rp_session s) DIRECTORSHIP
                  (directorship_batch s ++ [row])) as Hfl.
    destruct (bs <=? _)%Z.
    + destruct (flush_rels _ _ _) as [log' batch']. simpl in Hfl.
      intros [= <-]. simpl.
      assert (Forall P (rel_rows log' ++ (pair DIRECTORSHIP <$> batch'))) as Hall.
      { rewrite Hfl, fmap_app. rewrite !Forall_app. split_and!; try done.
        by apply Forall_singleton. }
      apply Forall_app in Hall as [??]. by split_and!.
    + intros [= <-]. simpl. split_and!; [done| |done].
      rewrite fmap_app. apply Forall_app. split; [done|by apply Forall_singleton].
  - pose proof (flush_rels_rows (rp_session s) OWNERSHIP
                  (ownership_batch s ++ [row])) as Hfl.
    destruct (bs <=? _)%Z.
    + destruct (flush_rels _ _ _) as [log' batch']. simpl in Hfl.
      intros [= <-]. simpl.
      assert (Forall P (rel_rows log' ++ (pair OWNERSHIP <$> batch'))) as Hall.
      { rewrite Hfl, fmap_app. rewrite !Forall_app. split_and!; try done.
        by apply Forall_singleton. }
      apply Forall_app in Hall as [??]. by split_and!.
    + intros [= <-]. simpl. split_and!; [done|done|].
      rewrite fmap_app. apply Forall_app. split; [done|by apply Forall_singleton].
Qed.

Lemma import_relationships_loop_from (P : rel_type * rel_row → Prop) bs entities s :
  rel_pass_from P s →
  (∀ entity e, entity ∈ entities → rel_row_of entity = Some e → P e) →
  Forall P (rel_rows (import_relationships_loop bs entities s).1)
  ∧ ∀ s', (import_relationships_loop bs entities s).2 = Ok s' → rel_pass_from P s'.
Proof.
  revert s. induction entities as [|entity rest IH]; intros s Hs HP; simpl.
  - split; [apply Hs|]. by intros s' [= <-].
  - destruct (import_relationships_step bs s entity) as [s1|e] eqn:Hstep.
    + apply IH.
      * eapply import_relationships_step_from; [done| |done].
        intros e. apply HP. by left.
      * intros entity' e Hin. apply HP. by right.
    + split; [apply Hs|done].
Qed.

(** Every edge row a run sends is the row of a record of the input. *)
Lemma rel_rows_from_records entities bs e :
  e ∈ rel_rows (rel_writes entities bs) → e ∈ omap rel_row_of entities.1.
Proof.
  revert e. apply Forall_forall.
  unfold rel_writes, import_relationships.
  match goal with |- context [import_relationships_loop bs entities.1 ?s0] =>
    destruct (import_relationships_loop_from (λ e, e ∈ omap rel_row_of entities.1)
                bs entities.1 s0) as [Hlog Hres] end.
  { by split_and!. }
  { intros entity e Hin He. apply list_elem_of_omap. by exists entity. }
  destruct (import_relationships_loop _ _ _) as [log [s|e]]; simpl in *; [|done].
  destruct entities.2; [done|].
  destruct (Hres s eq_refl) as (_ & Hd & Ho).
  pose proof (flush_rels_rows log DIRECTORSHIP (directorship_batch s)) as H1.
  destruct (flush_rels log DIRECTORSHIP _) as [log1 b1]. simpl in H1.
  pose proof (flush_rels_rows log1 OWNERSHIP (ownership_batch s)) as H2.
  destruct (flush_rels log1 OWNERSHIP _) as [log2 b2]. simpl in *.
  assert (Forall (λ e, e ∈ omap rel_row_of entities.1)
            (rel_rows log1 ++ (pair DIRECTORSHIP <$> b1))) as [Hlog1 _]%Forall_app.
  { rewrite H1. by apply Forall_app. }
  assert (Forall (λ e, e ∈ omap rel_row_of entities.1)
            (rel_rows log2 ++ (pair OWNERSHIP <$> b2))) as [Hlog2 _]%Forall_app.
  { rewrite H2. by apply Forall_app. }
  done.
Qed.

(** X3 — a run deletes nothing and moves nothing: every node and every edge
    of the store keeps its position and its key (label and identifier;
    type, end nodes and identifier), whether the run ends with counts or
    with an exception; a node whose label and identifier no node record of
    the input carries, and an edge whose type and identifier no edge record
    carries, is left as it was. *)
Theorem run_keeps_the_rest (entities : Reader.stream dict) (bs : Z) (st : store) :
  let st' := (ingest entities bs st).1 in
  (∀ i n, nodes st !! i = Some n →
     ∃ n', nodes st' !! i = Some n' ∧ node_key n' = node_key n
           ∧ (node_key n ∉ row_key <$> omap node_row_of entities.1 → n' = n))
  ∧ (∀ i r, rels st !! i = Some r →
     ∃ r', rels st' !! i = Some r' ∧ rel_key r' = rel_key r
           ∧ ((r_type r, r_ftm_id r) ∉ rel_row_key <$> omap rel_row_of entities.1 →
              r' = r)).
Proof.
  cbn zeta. rewrite ingest_store. cbn zeta. simpl. split.
  - intros i n Hi.
    pose proof (lookup_foldl_upsert row_key node_key node_set node_new
                  (node_events (node_writes entities bs)) _ i n Hi) as Hi'.
    fold merge_node in Hi'. eexists. split; [done|].
    split; [apply (final_key row_key node_key node_set node_set_key)|].
    intros Hnot. apply (final_no_hit row_key node_key node_set).
    intros e He Hk. apply Hnot. rewrite <- Hk.
    apply list_elem_of_fmap. exists e. split; [done|].
    by eapply node_events_from_records.
  - intros i r Hi.
    destruct (import_nodes entities [] bs).2; [|by exists r].
    pose proof (lookup_foldl_upsert table_key rel_key rel_set rel_new
                  (rel_events
                     (foldl merge_node (nodes st)
                        (node_events (node_writes entities bs)))
                     (rel_writes entities bs)) _ i r Hi) as Hi'.
    fold merge_rel in Hi'. eexists. split; [done|].
    split; [apply (final_key table_key rel_key rel_set rel_set_key)|].
    intros Hnot. apply (final_no_hit table_key rel_key rel_set).
    intros e He Hk. apply Hnot.
    rewrite rel_events_rows in He.
    apply list_elem_of_bind in He as ([ty row] & He & Hrow).
    apply elem_of_rel_table in He as [Hty Hr]. simpl in *.
    destruct e as [[[ty' row'] s] t]. simpl in *. subst ty' row'.
    unfold rel_key in Hk. injection Hk as Hty _ _ Hid.
    apply list_elem_of_fmap. exists (ty, row). split.
    + unfold rel_row_key. simpl. by rewrite Hty, Hid.
    + by eapply rel_rows_from_records.
Qed.

End FrameFacts.

(** ** How a run ends *)

Module OutcomeFacts.
Import Classifier Store Reader Ingest SessionFacts StoreFacts PassFacts IngestFacts.
Import ClassifierFacts ReorderFacts Run.

Lemma readable_or_not entity : readable entity ∨ ¬ readable entity.
Proof.
  unfold readable, properties_are.
  destruct (py_or _ _) as [| | | | | |p]; try (right; intros [? ?]; done).
  left. by exists p.
Qed.

Lemma prop_first_unreadable entity key :
  ¬ readable entity → prop_first entity key = Raise AttributeError.
Proof.
  intros Hnot. apply prop_first_raises. intros p Hp. apply Hnot. by exists p.
Qed.

Lemma to_node_row_readable entity :
  (∃ row, to_node_row entity = Ok row) ↔ readable entity.
Proof.
  split.
  - intros [row Hrow]. unfold to_node_row in Hrow.
    destruct (prop_first entity "name") eqn:Hp; [|done].
    unfold prop_first in Hp.
    destruct (py_or _ _) as [| | | | | |p] eqn:Hpr; try done. by exists p.
  - intros [p Hp]. unfold to_node_row. rewrite (prop_first_ok _ _ _ Hp).
    by eexists.
Qed.

Lemma to_node_row_unreadable entity :
  ¬ readable entity → to_node_row entity = Raise AttributeError.
Proof.
  intros Hnot. unfold to_node_row. by rewrite prop_first_unreadable.
Qed.

Lemma to_rel_row_readable entity :
  is_edge_record entity = true →
  (∃ row, to_rel_row entity = Ok row) ↔ readable entity.
Proof.
  unfold is_edge_record. intros Hs. split.
  - intros [row Hrow]. unfold to_rel_row in Hrow.
    destruct (readable_or_not entity) as [|Hnot]; [done|].
    rewrite !prop_first_unreadable in Hrow by done.
    by destruct (eq_str _ "Directorship"), (eq_str _ "Ownership").
  - intros [p Hp].
    destruct (eq_str _ "Directorship") eqn:Hd.
    + rewrite (to_rel_row_directorship _ _ Hp Hd). by eexists.
    + simpl in Hs. rewrite (to_rel_row_ownership _ _ Hp Hs). by eexists.
Qed.

Lemma to_rel_row_unreadable entity :
  is_edge_record entity = true → ¬ readable entity →
  to_rel_row entity = Raise AttributeError.
Proof.
  unfold is_edge_record. intros Hs Hnot. unfold to_rel_row.
  rewrite !prop_first_unreadable by done.
  by destruct (eq_str _ "Directorship"), (eq_str _ "Ownership").
Qed.

Section raises.
Context {Sess : Type} {session : Session Sess}.

(** The steps raise nothing but [AttributeError]. *)
Lemma import_nodes_step_raises bs (s : node_pass Sess) entity e :
  import_nodes_step bs s entity = Raise e → e = AttributeError.
Proof.
  unfold import_nodes_step. destruct (negb _); [done|].
  destruct (readable_or_not entity) as [[row Hrow]%to_node_row_readable|Hnot].
  - rewrite Hrow. simpl. destruct (negb (truthy _)); [done|].
    destruct (eq_str _ "Company"); by destruct (if (bs <=? _)%Z then _ else _).
  - rewrite to_node_row_unreadable by done. simpl. by intros [= <-].
Qed.

Lemma import_nodes_loop_raises bs entities (s : node_pass Sess) e :
  (import_nodes_loop bs entities s).2 = Raise e → e = AttributeError.
Proof.
  revert s. induction entities as [|entity rest IH]; intros s; simpl; [done|].
  destruct (import_nodes_step bs s entity) as [s1|e1] eqn:Hstep; [apply IH|].
  simpl. intros [= <-]. by eapply import_nodes_step_raises.
Qed.

Lemma import_relationships_step_raises bs (s : rel_pass Sess) entity e :
  import_relationships_step bs s entity = Raise e → e = AttributeError.
Proof.
  unfold import_relationships_step. destruct (negb _) eqn:Hs; [done|].
  apply negb_false_iff in Hs.
  destruct (readable_or_not entity) as [Hr|Hnot].
  - apply (to_rel_row_readable _ Hs) in Hr as [row Hrow].
    rewrite Hrow. simpl. destruct row as [[ty row]|]; [|done].
    destruct (negb (truthy _)); [done|].
    destruct ty; by destruct (if (bs <=? _)%Z then _ else _).
  - rewrite to_rel_row_unreadable by done. simpl. by intros [= <-].
Qed.

Lemma import_relationships_loop_raises bs entities (s : rel_pass Sess) e :
  (import_relationships_loop bs entities s).2 = Raise e → e = AttributeError.
Proof.
  revert s. induction entities as [|entity rest IH]; intros s; simpl; [done|].
  destruct (import_relationships_step bs s entity) as [s1|e1] eqn:Hstep; [apply IH|].
  simpl. intros [= <-]. by eapply import_relationships_step_raises.
Qed.

(** How pass 1 ends. *)
Lemma import_nodes_outcome es tail bs (s0 : Sess) :
  let nodes_readable := ∀ e, e ∈ es → is_node_record e = true → readable e in
  (¬ nodes_readable → (import_nodes (es, tail) s0 bs).2 = Raise AttributeError)
  ∧ (nodes_readable → ∀ x, tail = Some x → (import_nodes (es, tail) s0 bs).2 = Raise x)
  ∧ (nodes_readable → tail = None → ∃ c, (import_nodes (es, tail) s0 bs).2 = Ok c).
Proof.
  cbn zeta.
  pose proof (import_nodes_ok (es, tail) bs s0) as Hok. simpl in Hok.
  assert ((∀ e, e ∈ es → is_node_record e = true → ∃ row, to_node_row e = Ok row)
          ↔ ∀ e, e ∈ es → is_node_record e = true → readable e) as Hrd.
  { split; intros Hall e He Hn; apply to_node_row_readable; by apply Hall. }
  split_and!.
  - intros Hnot.
    destruct (import_nodes (es, tail) s0 bs).2 as [c|e] eqn:Hres.
    { destruct Hnot. apply Hrd. by apply Hok; eexists. }
    f_equal. unfold import_nodes in Hres. simpl in Hres.
    match type of Hres with context [import_nodes_loop bs es ?i] =>
      pose proof (import_nodes_loop_raises bs es i) as Hr;
      pose proof (import_nodes_loop_ok bs es i) as Hlo;
      destruct (import_nodes_loop bs es i) as [sess [s|e']] end; simpl in *.
    + destruct Hnot. apply Hrd. apply Hlo. by eexists.
    + injection Hres as <-. by apply Hr.
  - intros Hall x ->. unfold import_nodes. simpl.
    match goal with |- context [import_nodes_loop bs es ?i] =>
      pose proof (import_nodes_loop_ok bs es i) as Hlo;
      destruct (import_nodes_loop bs es i) as [sess [s|e']] end; simpl in *; [done|].
    destruct (proj2 Hlo (proj2 Hrd Hall)) as [? ?]. done.
  - intros Hall ->. apply Hok. split; [done|]. by apply Hrd.
Qed.

(** How pass 2 ends. *)
Lemma import_relationships_outcome es tail bs (s0 : Sess) :
  let edges_readable := ∀ e, e ∈ es → is_edge_record e = true → readable e in
  (¬ edges_readable →
   (import_relationships (es, tail) s0 bs).2 = Raise AttributeError)
  ∧ (edges_readable → ∀ x, tail = Some x →
     (import_relationships (es, tail) s0 bs).2 = Raise x)
  ∧ (edges_readable → tail = None →
     ∃ c, (import_relationships (es, tail) s0 bs).2 = Ok c).
Proof.
  cbn zeta.
  pose proof (import_relationships_ok (es, tail) bs s0) as Hok. simpl in Hok.
  assert ((∀ e, e ∈ es → is_edge_record e = true → ∃ row, to_rel_row e = Ok row)
          ↔ ∀ e, e ∈ es → is_edge_record e = true → readable e) as Hrd.
  { split; intros Hall e He Hn; apply (to_rel_row_readable _ Hn); by apply Hall. }
  split_and!.
  - intros Hnot.
    destruct (import_relationships (es, tail) s0 bs).2 as [c|e] eqn:Hres.
    { destruct Hnot. apply Hrd. by apply Hok; eexists. }
    f_equal. unfold import_relationships in Hres. simpl in Hres.
    match type of Hres with context [import_relationships_loop bs es ?i] =>
      pose proof (import_relationships_loop_raises bs es i) as Hr;
      pose proof (import_relationships_loop_ok bs es i) as Hlo;
      destruct (import_relationships_loop bs es i) as [sess [s|e']] end; simpl in *.
    + destruct Hnot. apply Hrd. apply Hlo. by eexists.
    + injection Hres as <-. by apply Hr.
  - intros Hall x ->. unfold import_relationships. simpl.
    match goal with |- context [import_relationships_loop bs es ?i] =>
      pose proof (import_relationships_loop_ok bs es i) as Hlo;
      destruct (import_relationships_loop bs es i) as [sess [s|e']] end;
      simpl in *; [done|].
    destruct (proj2 Hlo (proj2 Hrd Hall)) as [? ?]. done.
  - intros Hall ->. apply Hok. split; [done|]. by apply Hrd.
Qed.

End raises.

(** X4 — how a run ends on a store that accepts every write (no write
    transaction fails; a failing [session.execute_write] would end the run
    with the driver's exception instead, which a [Session] here does not
    have).  A Company or Person record whose properties are a truthy value
    other than a dict stops the run in pass 1 with [AttributeError], the
    edges of the store untouched; otherwise an exception of the decoder
    ends the run after pass 1 has read every record, before its last
    flushes; otherwise a Directorship or Ownership record with such
    properties stops the run in pass 2, after pass 1 has written every
    node; otherwise the run ends with counts.  Records of other schemas
    have no part in this. *)
Theorem run_outcome (es : list dict) (tail : option exn) (bs : Z) (st : store) :
  let run := ingest (es, tail) bs st in
  let nodes_readable := ∀ e, e ∈ es → is_node_record e = true → readable e in
  let edges_readable := ∀ e, e ∈ es → is_edge_record e = true → readable e in
  (¬ nodes_readable → run.2 = Raise AttributeError ∧ rels run.1 = rels st)
  ∧ (nodes_readable → ∀ x, tail = Some x → run.2 = Raise x ∧ rels run.1 = rels st)
  ∧ (nodes_readable → tail = None → ¬ edges_readable →
     run.2 = Raise AttributeError
     ∧ nodes run.1 = nodes (import_nodes (es, tail) st bs).1)
  ∧ (nodes_readable → tail = None → edges_readable → ∃ summary, run.2 = Ok summary).
Proof.
  cbn zeta.
  destruct (import_nodes_outcome es tail bs ([] : list write)) as (Hn1 & Hn2 & Hn3).
  destruct (import_relationships_outcome es tail bs ([] : list write))
    as (Hr1 & Hr2 & Hr3).
  cbn zeta in *.
  assert (∀ e, (import_nodes (es, tail) ([] : list write) bs).2 = Raise e →
               (ingest (es, tail) bs st).2 = Raise e
               ∧ rels (ingest (es, tail) bs st).1 = rels st) as Hpass1.
  { intros e He. split.
    - rewrite ingest_writes. simpl. unfold ingest.
      destruct (import_nodes (es, tail) [] bs) as [log r]. simpl in He. by subst r.
    - rewrite ingest_store. simpl. by rewrite He. }
  split_and!.
  - intros Hnot. by apply Hpass1, Hn1.
  - intros Hall x Hx. by apply Hpass1, Hn2.
  - intros Hall Htail Hnot.
    destruct (Hn3 Hall Htail) as [c Hc]. specialize (Hr1 Hnot). split.
    + rewrite ingest_writes. simpl. unfold ingest.
      destruct (import_nodes (es, tail) [] bs) as [log r]. simpl in Hc. subst r.
      rewrite (import_relationships_writes _ _ log). simpl. by rewrite Hr1.
    + rewrite ingest_store, (import_nodes_writes (es, tail) bs st). simpl.
      destruct (import_nodes_log (es, tail) bs) as (Hw & _ & _).
      by rewrite (replay_node_writes _ _ Hw).
  - intros Hall Htail Hall'.
    destruct (Hn3 Hall Htail) as [c Hc]. destruct (Hr3 Hall' Htail) as [r Hr].
    eexists. rewrite ingest_writes. simpl. by apply ingest_result.
Qed.

(** X5 — a record that is neither a Company, a Person, a Directorship nor
    an Ownership (another schema, a schema that is not a string, none at
    all) is skipped by both passes before anything else of it is read:
    leaving such records out of the input changes neither what is written
    nor how the run ends, on any session. *)
Theorem other_records_skipped {Sess : Type} {session : Session Sess}
    (es : list dict) (tail : option exn) (bs : Z) (s0 : Sess) :
  ingest (filter (λ e, is_record e = true) es, tail) bs s0 = ingest (es, tail) bs s0.
Proof.
  apply ingest_interleaving; rewrite list_filter_filter; apply filter_ext_in;
    intros e _; unfold is_record; destruct (is_node_record e), (is_edge_record e);
    naive_solver.
Qed.

End OutcomeFacts.

(** ** Endpoints of an edge row, and the growth of the store *)

Module EndpointFacts.
Import Classifier Store Reader Ingest SessionFacts StoreFacts PassFacts IngestFacts.
Import ClassifierFacts ReorderFacts Run.

Lemma match_nodes_snoc l id ns n :
  match_nodes l id (ns ++ [n])
  = match_nodes l id ns
    ++ (if bool_decide (node_key n = (l, id)) then [length ns] else []).
Proof.
  unfold match_nodes. rewrite imap_app, omap_app. f_equal. simpl.
  rewrite Nat.add_0_r. by destruct (bool_decide _).
Qed.

(** Among nodes with distinct keys, at most one node has a given label
    and identifier. *)
Lemma match_nodes_unique l id ns :
  NoDup (node_key <$> ns) →
  match_nodes l id ns = [] ∨ ∃ i, match_nodes l id ns = [i].
Proof.
  induction ns as [|n ns IH] using rev_ind; [by left|].
  rewrite fmap_app, NoDup_app. intros (Hns & Hn & _).
  rewrite match_nodes_snoc. case_bool_decide as Hk.
  - right. exists (length ns).
    assert (match_nodes l id ns = []) as ->; [|done].
    apply match_nodes_nil. intros Hin. apply (Hn _ Hin). rewrite <- Hk.
    simpl. by left.
  - rewrite app_nil_r. by apply IH.
Qed.

Lemma endpoint_unique ns id :
  NoDup (node_key <$> ns) →
  endpoint ns id =
    [match match_nodes Person id ns with
     | i :: _ => Some i
     | [] => head (match_nodes Company id ns)
     end].
Proof.
  intros Hns. unfold endpoint.
  destruct (match_nodes_unique Person id ns Hns) as [->|[i ->]];
    destruct (match_nodes_unique Company id ns Hns) as [->|[j ->]]; done.
Qed.

Lemma rel_table_length ty ns row :
  NoDup (node_key <$> ns) → (length (rel_table ty ns row) ≤ 1)%nat.
Proof.
  intros Hns. unfold rel_table. rewrite !endpoint_unique by done. simpl.
  repeat case_match; simpl; lia.
Qed.

(** X6 — which node an endpoint identifier of an edge row stands for, in a
    store whose nodes have distinct keys: the Person with that identifier
    when there is one, whether or not a Company carries it too; else the
    Company with it; else none.  So a row makes at most one edge, and
    makes it from and to the nodes so chosen. *)
Theorem endpoint_prefers_person (ns : list node) (id : value) :
  NoDup (node_key <$> ns) →
  ∃ o, endpoint ns id = [o]
       ∧ (∀ i n, ns !! i = Some n → node_key n = (Person, id) → o = Some i)
       ∧ ((Person, id) ∉ node_key <$> ns →
          ∀ i n, ns !! i = Some n → node_key n = (Company, id) → o = Some i)
       ∧ ((Person, id) ∉ node_key <$> ns → (Company, id) ∉ node_key <$> ns →
          o = None)
       ∧ ∀ ty row, (length (rel_table ty ns row) ≤ 1)%nat.
Proof.
  intros Hns. eexists. split; [by apply endpoint_unique|].
  split_and!.
  - intros i n Hi Hk.
    assert (i ∈ match_nodes Person id ns) as Hin
      by (apply elem_of_match_nodes; eauto).
    destruct (match_nodes_unique Person id ns Hns) as [Hm|[j Hm]];
      rewrite Hm in Hin |- *.
    + by apply elem_of_nil in Hin.
    + by apply list_elem_of_singleton in Hin as ->.
  - intros Hp%match_nodes_nil i n Hi Hk. rewrite Hp.
    assert (i ∈ match_nodes Company id ns) as Hin
      by (apply elem_of_match_nodes; eauto).
    destruct (match_nodes_unique Company id ns Hns) as [Hm|[j Hm]];
      rewrite Hm in Hin |- *.
    + by apply elem_of_nil in Hin.
    + by apply list_elem_of_singleton in Hin as ->.
  - intros Hp%match_nodes_nil Hc%match_nodes_nil. by rewrite Hp, Hc.
  - intros ty row. by apply rel_table_length.
Qed.

Lemma endpoint_prefers_person_witness :
  let ns := [ {| n_label := Company; n_ftm_id := VStr "X1"; n_schema := VNone;
                 n_name := VNone; n_datasets := VNone; n_modified_at := VNone |};
              {| n_label := Person; n_ftm_id := VStr "X1"; n_schema := VNone;
                 n_name := VNone; n_datasets := VNone; n_modified_at := VNone |} ] in
  ∃ o, endpoint ns (VStr "X1") = [o]
       ∧ (∀ i n, ns !! i = Some n → node_key n = (Person, VStr "X1") → o = Some i)
       ∧ ((Person, VStr "X1") ∉ node_key <$> ns →
          ∀ i n, ns !! i = Some n → node_key n = (Company, VStr "X1") → o = Some i)
       ∧ ((Person, VStr "X1") ∉ node_key <$> ns →
          (Company, VStr "X1") ∉ node_key <$> ns → o = None)
       ∧ ∀ ty row, (length (rel_table ty ns row) ≤ 1)%nat.
Proof.
  apply endpoint_prefers_person.
  apply (bool_decide_unpack _). vm_compute. exact I.
Defined.

Section growth.
Context {E A K : Type} `{EqDecision K}.
Variables (ekey : E → K) (akey : A → K) (set : E → A → A) (new : E → A).

Lemma merge_set_length l e :
  (length l ≤ length (merge_set ekey akey set new l e) ≤ S (length l))%nat.
Proof.
  unfold merge_set. destruct (existsb _ l).
  - rewrite length_fmap. lia.
  - rewrite length_app. simpl. lia.
Qed.

Lemma foldl_merge_set_length es l :
  (length l ≤ length (foldl (merge_set ekey akey set new) l es)
   ≤ length l + length es)%nat.
Proof.
  revert l. induction es as [|e es IH]; intros l; simpl; [lia|].
  specialize (IH (merge_set ekey akey set new l e)).
  pose proof (merge_set_length l e). lia.
Qed.
End growth.

Lemma bind_length_le {A B} (f : A → list B) (l : list A) :
  (∀ x, (length (f x) ≤ 1)%nat) → (length (l ≫= f) ≤ length l)%nat.
Proof.
  intros Hf. induction l as [|x l IH]; [done|].
  change ((x :: l) ≫= f) with (f x ++ (l ≫= f)).
  rewrite length_app. simpl. specialize (Hf x). lia.
Qed.

Lemma length_tagged {L R} `{EqDecision L} (evs : list (L * R)) (l1 l2 : L) :
  l1 ≠ l2 → (∀ l, l = l1 ∨ l = l2) →
  length evs = (length (rows_for l1 evs) + length (rows_for l2 evs))%nat.
Proof.
  intros Hne Hall. induction evs as [|[l r] evs IH]; [done|].
  rewrite !rows_for_cons, !length_app. simpl.
  destruct (Hall l) as [->| ->].
  - rewrite decide_True, decide_False by done. simpl. lia.
  - rewrite decide_False, decide_True by done. simpl. lia.
Qed.

(** X7 — the counts a run reports bound the growth of the store: a run that
    ends without an exception adds at most as many nodes as the node rows
    it counts, and, when the nodes of the store have distinct keys, at most
    as many edges as the edge rows it counts; it removes none. *)
Theorem counts_bound_growth (entities : Reader.stream dict) (bs : Z) (st : store)
    (summary : summary) :
  (ingest entities bs st).2 = Ok summary →
  let st' := (ingest entities bs st).1 in
  (length (nodes st) ≤ length (nodes st')
   ≤ length (nodes st) + (nodes_count summary).1 + (nodes_count summary).2)%nat
  ∧ (length (rels st) ≤ length (rels st'))%nat
  ∧ (NoDup (node_key <$> nodes st) →
     (length (rels st')
      ≤ length (rels st) + (rels_count summary).1 + (rels_count summary).2)%nat).
Proof.
  intros Hok. cbn zeta.
  rewrite ingest_writes in Hok. simpl in Hok.
  destruct (ingest_ok _ _ _ Hok) as [Hn Hr].
  destruct (import_nodes_log entities bs) as (_ & _ & Hc).
  destruct (Hc _ Hn) as [Hev Hcn].
  destruct (import_relationships_log entities bs) as (_ & _ & Hd).
  destruct (Hd _ Hr) as [Hrw Hcr].
  cbn zeta in *.
  pose proof (ingest_NoDup entities bs st) as [Hnd _].
  rewrite ingest_store in Hnd |- *. cbn zeta in *. simpl in *. rewrite Hn.
  pose proof (foldl_merge_set_length row_key node_key node_set node_new
                (node_events (node_writes entities bs)) (nodes st)) as Hlen.
  pose proof (foldl_merge_set_length table_key rel_key rel_set rel_new
                (rel_events (foldl merge_node (nodes st)
                               (node_events (node_writes entities bs)))
                            (rel_writes entities bs)) (rels st)) as Hlen'.
  fold merge_node in Hlen. fold merge_rel in Hlen'.
  split_and!.
  - lia.
  - rewrite Hcn. simpl.
    rewrite (length_tagged (node_events _) Company Person) in Hlen;
      [|done|by intros []; auto].
    rewrite !Hev in Hlen. lia.
  - lia.
  - intros Hst. specialize (Hnd Hst). rewrite Hcr. simpl.
    assert (length (rel_events (foldl merge_node (nodes st)
                                  (node_events (node_writes entities bs)))
                               (rel_writes entities bs))
            ≤ length (rel_rows (rel_writes entities bs)))%nat as Hle.
    { rewrite rel_events_rows. apply bind_length_le.
      intros [ty row]. by apply rel_table_length. }
    rewrite (length_tagged (rel_rows _) DIRECTORSHIP OWNERSHIP) in Hle;
      [|done|by intros []; auto].
    rewrite !Hrw in Hle. lia.
Qed.

Lemma counts_bound_growth_witness :
  let st' := (ingest Samples.scenario 5000 Samples.two_nodes).1 in
  (length (nodes Samples.two_nodes) ≤ length (nodes st')
   ≤ length (nodes Samples.two_nodes) + 1 + 1)%nat
  ∧ (length (rels Samples.two_nodes) ≤ length (rels st'))%nat
  ∧ (NoDup (node_key <$> nodes Samples.two_nodes) →
     (length (rels st') ≤ length (rels Samples.two_nodes) + 1 + 0)%nat).
Proof.
  apply (counts_bound_growth Samples.scenario 5000 Samples.two_nodes
           {| nodes_count := (1, 1); rels_count := (1, 0) |}).
  reflexivity.
Defined.

End EndpointFacts.

(** ** A run over a file *)

Module MainFacts.
Import Classifier Store Reader Ingest ReaderFacts Run.

(** X8 — the reader looks for the first byte of the input among the first
    [peek_bytes] bytes only: a file whose first [peek_bytes] bytes are all
    whitespace (the empty file, a file of blank lines, and also a file
    whose records start after that many blanks) is ingested as an empty
    input: the decoder is not called, no transaction runs and every count
    is zero, on any session. *)
Theorem blank_window_ingests_nothing {Sess : Type} {session : Session Sess}
    (ijson_items : list Byte.byte → string → bool → stream value)
    (file : list Byte.byte) (bs : Z) (s0 : Sess) :
  Forall (λ b, is_ws b = true) (take peek_bytes file) →
  main ijson_items file bs s0
  = (s0, Ok {| nodes_count := (0, 0)%nat; rels_count := (0, 0)%nat |}).
Proof.
  intros Hws. unfold main, iter_entities, _first_non_ws_byte.
  by rewrite first_non_ws_all_ws.
Qed.

Lemma blank_window_ingests_nothing_witness :
  main toy_items (replicate peek_bytes Byte.x20 ++ [Byte.x7b; Byte.x7d]) 5000
       Store.empty
  = (Store.empty, Ok {| nodes_count := (0, 0)%nat; rels_count := (0, 0)%nat |}).
Proof.
  apply blank_window_ingests_nothing.
  rewrite take_app_length' by (symmetry; apply length_replicate).
  by apply Forall_replicate.
Defined.

End MainFacts.

(** ** Edges whose ends are there *)

Module EdgeFacts.
Import Classifier Store Reader Ingest SessionFacts StoreFacts PassFacts IngestFacts.
Import ClassifierFacts ReorderFacts Run.

(** A node with the identifier makes the endpoint lookup succeed. *)
Lemma endpoint_found ns id n :
  n ∈ ns → n_ftm_id n = id → ∃ i, Some i ∈ endpoint ns id.
Proof.
  intros [i Hi]%list_elem_of_lookup_1 Hid.
  destruct (match_nodes Person id ns) as [|j js] eqn:Hp.
  - exists i. apply elem_of_endpoint. right. split; [done|].
    apply elem_of_match_nodes. exists n. split; [done|].
    unfold node_key. rewrite Hid. f_equal. destruct (n_label n) eqn:Hl; [done|].
    assert (i ∈ match_nodes Person id ns) as Hin.
    { apply elem_of_match_nodes. exists n. split; [done|].
      unfold node_key. by rewrite Hl, Hid. }
    rewrite Hp in Hin. by apply elem_of_nil in Hin.
  - exists j. apply elem_of_endpoint. left. rewrite Hp. by left.
Qed.

(** X9 — the second pass finds the nodes of the first wherever they stand
    in the file: after a run that ends without an exception, every
    Directorship or Ownership record with a non-empty identifier whose two
    endpoint identifiers are carried by nodes of the store, written by this
    run or there before, has its edge in the store: of its type and
    identifier, from a node with the source identifier to a node with the
    target identifier. *)
Theorem resolvable_edge_is_written (entities : Reader.stream dict) (bs : Z)
    (st : store) (summary : summary) (ty : rel_type) (row : rel_row) :
  (ingest entities bs st).2 = Ok summary →
  (ty, row) ∈ omap rel_row_of entities.1 →
  let st' := (ingest entities bs st).1 in
  (∃ n, n ∈ nodes st' ∧ n_ftm_id n = rr_source_id row) →
  (∃ n, n ∈ nodes st' ∧ n_ftm_id n = rr_target_id row) →
  ∃ r src tgt,
    r ∈ rels st' ∧ r_type r = ty ∧ r_ftm_id r = rr_id row
    ∧ nodes st' !! r_src r = Some src ∧ n_ftm_id src = rr_source_id row
    ∧ nodes st' !! r_tgt r = Some tgt ∧ n_ftm_id tgt = rr_target_id row.
Proof.
  intros Hok Hrow. cbn zeta.
  rewrite ingest_writes in Hok. simpl in Hok.
  destruct (ingest_ok _ _ _ Hok) as [Hn Hr].
  destruct (import_relationships_log entities bs) as (_ & _ & Hd).
  destruct (Hd _ Hr) as [Hrw _]. cbn zeta in Hrw.
  rewrite ingest_store. cbn zeta. simpl. rewrite Hn.
  set (ns := foldl merge_node (nodes st) (node_events (node_writes entities bs))).
  intros (n1 & Hn1 & Hid1) (n2 & Hn2 & Hid2).
  destruct (endpoint_found ns _ n1 Hn1 Hid1) as [s Hs].
  destruct (endpoint_found ns _ n2 Hn2 Hid2) as [t Ht].
  assert ((ty, row, s, t) ∈ rel_events ns (rel_writes entities bs)) as Hev.
  { rewrite rel_events_rows. apply list_elem_of_bind. exists (ty, row). split.
    - simpl. apply elem_of_rel_table_iff. eauto.
    - apply elem_of_rows_for. rewrite Hrw. by apply elem_of_rows_for. }
  assert ((ty, s, t, rr_id row)
          ∈ rel_key <$> foldl merge_rel (rels st)
                          (rel_events ns (rel_writes entities bs))) as Hkey.
  { apply (foldl_upsert_keys table_key rel_key rel_set rel_new
             rel_set_key rel_new_key). right.
    apply list_elem_of_fmap. by exists (ty, row, s, t). }
  apply list_elem_of_fmap in Hkey as (r & Hk & Hin).
  unfold rel_key in Hk. injection Hk as Hty Hsrc Htgt Hid.
  destruct (endpoint_is_node _ _ _ Hs) as (src & Hsrc' & Hsid).
  destruct (endpoint_is_node _ _ _ Ht) as (tgt & Htgt' & Htid).
  exists r, src, tgt. subst s t. by split_and!.
Qed.

Lemma resolvable_edge_is_written_witness :
  let entities := ([Samples.d1; Samples.jane; Samples.acme], None) in
  let st' := (ingest entities 5000 Store.empty).1 in
  ∃ r src tgt,
    r ∈ rels st' ∧ r_type r = DIRECTORSHIP ∧ r_ftm_id r = VStr "D1"
    ∧ nodes st' !! r_src r = Some src ∧ n_ftm_id src = VStr "P1"
    ∧ nodes st' !! r_tgt r = Some tgt ∧ n_ftm_id tgt = VStr "C1".
Proof.
  apply (resolvable_edge_is_written
           ([Samples.d1; Samples.jane; Samples.acme], None) 5000 Store.empty
           {| nodes_count := (1, 1); rels_count := (1, 0) |}
           DIRECTORSHIP Samples.d1_row).
  - reflexivity.
  - vm_compute. by left.
  - exists {| n_label := Person; n_ftm_id := VStr "P1"; n_schema := VStr "Person";
              n_name := VStr "Jane"; n_datasets := VList [];
              n_modified_at := VNone |}.
    split; [|reflexivity]. vm_compute. right. by left.
  - exists {| n_label := Company; n_ftm_id := VStr "C1"; n_schema := VStr "Company";
              n_name := VStr "Acme"; n_datasets := VList [];
              n_modified_at := VNone |}.
    split; [|reflexivity]. vm_compute. by left.
Defined.

End EdgeFacts.

(** ** The assembled view *)

Module ViewFacts.
Import Assembler AssemblerFacts View.

Lemma ids_are_keys (d : list (string * gnode)) :
  nodes_wf d → id <$> d.*2 = d.*1.
Proof.
  intros [_ Hd]. induction d as [|[k g] d IH]; [done|]. simpl. f_equal.
  - apply Hd, elem_of_cons. by left.
  - apply IH. intros k' g' H. apply Hd, elem_of_cons. by right.
Qed.

Lemma nodes_wf_nil : nodes_wf [].
Proof. split; [constructor|]. by intros k g ?%elem_of_nil. Qed.

Lemma od_get_is_Some {V} (d : list (string * V)) k :
  is_Some (od_get d k) ↔ k ∈ d.*1.
Proof.
  induction d as [|[j v] d IH]; simpl.
  - split; [by intros [? ?]|by intros ?%elem_of_nil].
  - destruct (String.eqb j k) eqn:Hjk.
    + apply String.eqb_eq in Hjk as ->. split; [intros _; by left|by eexists].
    + apply String.eqb_neq in Hjk. rewrite IH, elem_of_cons. naive_solver.
Qed.

(** The keys after a call: those before, and the identifier of the call. *)
Lemma add_sighting_keys d s :
  (add_sighting d s).*1 =
    match sighted s with
    | Some i => if bool_decide (i ∈ d.*1) then d.*1 else d.*1 ++ [i]
    | None => d.*1
    end.
Proof.
  destruct s as [[[i|] nm] ty]; unfold add_sighting, _add_node, sighted; simpl;
    [|done].
  destruct (String.eqb i ""); [done|].
  destruct (od_get d i) as [g|] eqn:Hget.
  - rewrite bool_decide_true by (apply od_get_is_Some; by rewrite Hget).
    destruct (negb _ && _); [apply od_alter_keys|done].
  - rewrite bool_decide_false by by apply od_get_None.
    by rewrite fmap_app.
Qed.

Lemma elem_of_add_sighting_keys d s k :
  k ∈ (add_sighting d s).*1 ↔ k ∈ d.*1 ∨ sighted s = Some k.
Proof.
  rewrite add_sighting_keys. destruct (sighted s) as [i|]; [|naive_solver].
  case_bool_decide.
  - naive_solver.
  - rewrite elem_of_app, list_elem_of_singleton. naive_solver.
Qed.

Lemma elem_of_foldl_keys l d k :
  k ∈ (foldl add_sighting d l).*1 ↔ k ∈ d.*1 ∨ ∃ s, s ∈ l ∧ sighted s = Some k.
Proof.
  revert d. induction l as [|s l IH]; intros d; simpl.
  - split; [by left|]. by intros [?|(? & ?%elem_of_nil & _)].
  - rewrite IH, elem_of_add_sighting_keys. split.
    + intros [[?|?]|(s' & ? & ?)]; [by left|right..].
      * exists s. split; [by left|done].
      * exists s'. split; [by right|done].
    + intros [?|(s' & [->|?]%elem_of_cons & ?)]; [by left; left|by left; right|].
      right. by exists s'.
Qed.

Lemma add_sighting_length d s :
  (length (add_sighting d s) ≤ S (length d))%nat.
Proof.
  rewrite <- (length_fmap fst), add_sighting_keys, <- (length_fmap fst d).
  destruct (sighted s); [|lia]. case_bool_decide; [lia|].
  rewrite length_app. simpl. lia.
Qed.

Lemma foldl_add_sighting_length l d :
  (length (foldl add_sighting d l) ≤ length d + length l)%nat.
Proof.
  revert d. induction l as [|s l IH]; intros d; simpl; [lia|].
  specialize (IH (add_sighting d s)). pose proof (add_sighting_length d s). lia.
Qed.

Lemma add_link_length src tgt rl ls :
  (length (_add_link src tgt rl ls).2 ≤ S (length ls.2))%nat.
Proof.
  destruct ls as [set lst]. unfold _add_link. simpl.
  destruct src, tgt; simpl; try lia.
  destruct (_ || _); simpl; [lia|]. case_bool_decide; simpl; [lia|].
  rewrite length_app. simpl. lia.
Qed.

Lemma foldl_fold_row_links_length rows a :
  (length (links_of (foldl fold_row a rows)).2
   ≤ length (links_of a).2 + 2 * length rows)%nat.
Proof.
  revert a. induction rows as [|r rows IH]; intros a; simpl; [lia|].
  specialize (IH (fold_row a r)).
  assert (links_of (fold_row a r)
          = _add_link (person_id r) (other_company_id r) (role_to_other r)
              (_add_link (person_id r) (root_id r) (role_to_root r) (links_of a)))
    as Heq by done.
  rewrite Heq in IH.
  pose proof (add_link_length (person_id r) (root_id r) (role_to_root r) (links_of a)).
  pose proof (add_link_length (person_id r) (other_company_id r) (role_to_other r)
                (_add_link (person_id r) (root_id r) (role_to_root r) (links_of a))).
  lia.
Qed.

Lemma links_wf_init : links_wf (links_of init).
Proof.
  split; [constructor|]. intros s t r. simpl.
  split; [by intros ?%not_elem_of_empty|by intros ?%elem_of_nil].
Qed.

Lemma link_of_Some c l :
  link_of c = Some l →
  ∃ rl, c = (Some (source l), Some (target l), rl)
        ∧ source l ≠ "" ∧ target l ≠ "" ∧ role l = or_none rl.
Proof.
  destruct c as [[[s|] [t|]] rl]; simpl; try done.
  destruct (String.eqb s "") eqn:Hs; [done|].
  destruct (String.eqb t "") eqn:Ht; [done|]. simpl.
  apply String.eqb_neq in Hs, Ht. intros [= <-]. simpl. eauto.
Qed.

(** The ends of the two calls of [_add_link] of a row are identifiers of
    its calls of [_add_node]. *)
Lemma candidate_ends_sighted r s t rl :
  (Some s, Some t, rl) ∈ candidates r → s ≠ "" → t ≠ "" →
  (∃ x, x ∈ sightings r ∧ sighted x = Some s)
  ∧ (∃ x, x ∈ sightings r ∧ sighted x = Some t).
Proof.
  unfold candidates, sightings, sighted.
  intros Hc Hs%String.eqb_neq Ht%String.eqb_neq.
  apply elem_of_cons in Hc as [[= Hp Hr Hl]|Hc].
  - split.
    + exists (person_id r, person_name r, person).
      split; [set_solver|]. simpl. by rewrite <- Hp, Hs.
    + exists (root_id r, root_name r, company).
      split; [set_solver|]. simpl. by rewrite <- Hr, Ht.
  - apply list_elem_of_singleton in Hc as [= Hp Hr Hl]. split.
    + exists (person_id r, person_name r, person).
      split; [set_solver|]. simpl. by rewrite <- Hp, Hs.
    + exists (other_company_id r, other_company_name r, company).
      split; [set_solver|]. simpl. by rewrite <- Hr, Ht.
Qed.

(** X10 — the view is closed and bounded: both ends of every link are
    identifiers of nodes of the view, the nodes are the non-empty
    identifiers the rows name, and a view of [n] rows has at most [3 n]
    nodes and [2 n] links; no row, no node and no link. *)
Theorem links_join_nodes_of_view (rows : list row) :
  ∃ v, get_company_graph (Ok rows) = Ok v
       ∧ (∀ l, l ∈ v_links v →
            source l ∈ id <$> v_nodes v ∧ target l ∈ id <$> v_nodes v)
       ∧ (∀ i, i ∈ id <$> v_nodes v ↔
            ∃ r s, r ∈ rows ∧ s ∈ sightings r ∧ sighted s = Some i)
       ∧ (length (v_nodes v) ≤ 3 * length rows)%nat
       ∧ (length (v_links v) ≤ 2 * length rows)%nat.
Proof.
  eexists. split; [reflexivity|]. simpl.
  rewrite nodes_foldl. simpl.
  rewrite ids_are_keys by apply foldl_add_sighting_wf, nodes_wf_nil.
  destruct (links_foldl rows init links_wf_init) as [_ Hl].
  assert (∀ i, i ∈ (foldl add_sighting [] (rows ≫= sightings)).*1 ↔
            ∃ r s, r ∈ rows ∧ s ∈ sightings r ∧ sighted s = Some i) as Hids.
  { intros i. rewrite elem_of_foldl_keys. split.
    - intros [[]%elem_of_nil|(s & (r & Hs & Hr)%list_elem_of_bind & Hi)]. eauto.
    - intros (r & s & Hr & Hs & Hi). right. exists s. split; [|done].
      apply list_elem_of_bind. eauto. }
  split_and!.
  - intros l [[]%elem_of_nil|(r & c & Hr & Hc & Hlk)]%Hl.
    apply link_of_Some in Hlk as (rl & -> & Hs & Ht & _).
    destruct (candidate_ends_sighted _ _ _ _ Hc Hs Ht)
      as [(x & Hx & Hsx) (y & Hy & Hsy)].
    split; apply Hids; eauto.
  - done.
  - rewrite length_fmap.
    etransitivity; [apply foldl_add_sighting_length|]. simpl.
    clear. induction rows as [|r rows IH]; [done|].
    change ((r :: rows) ≫= sightings) with (sightings r ++ (rows ≫= sightings)).
    rewrite length_app. simpl in *. lia.
  - etransitivity; [apply foldl_fold_row_links_length|]. simpl. lia.
Qed.

End ViewFacts.

(** ** Repeated and reordered rows *)

Module RowsFacts.
Import Assembler AssemblerFacts View ViewFacts.

Lemma NoDup_fst_agree {A B} (l : list (A * B)) x y1 y2 :
  NoDup l.*1 → (x, y1) ∈ l → (x, y2) ∈ l → y1 = y2.
Proof.
  intros Hnd [a Ha]%list_elem_of_lookup_1 [b Hb]%list_elem_of_lookup_1.
  assert (a = b) as ->.
  { apply (NoDup_lookup _ _ _ x Hnd); rewrite list_lookup_fmap.
    - by rewrite Ha.
    - by rewrite Hb. }
  congruence.
Qed.

(** *** The type of a node *)

Lemma add_sighting_type d s i g :
  od_get d i = Some g →
  ∃ g', od_get (add_sighting d s) i = Some g' ∧ type g' = type g.
Proof.
  intros Hget. destruct s as [[[j|] nm] ty]; unfold add_sighting, _add_node; simpl;
    [|by eexists].
  destruct (String.eqb j ""); [by eexists|].
  destruct (od_get d j) as [n|] eqn:Hj.
  - destruct (negb _ && _); [|by eexists].
    rewrite od_get_alter, Hget. destruct (String.eqb j i); by eexists.
  - rewrite od_get_snoc, Hget. by eexists.
Qed.

Lemma foldl_add_sighting_type l d i g :
  od_get d i = Some g →
  ∃ g', od_get (foldl add_sighting d l) i = Some g' ∧ type g' = type g.
Proof.
  revert d g. induction l as [|s l IH]; intros d g Hget; simpl; [by eexists|].
  destruct (add_sighting_type d s i g Hget) as (g1 & Hg1 & Ht1).
  destruct (IH _ _ Hg1) as (g2 & Hg2 & Ht2). exists g2. split; [done|congruence].
Qed.

Lemma unsighted_absent l d i :
  od_get d i = None → (∀ s, s ∈ l → sighted s ≠ Some i) →
  od_get (foldl add_sighting d l) i = None.
Proof.
  intros Hget Hl.
  destruct (od_get (foldl add_sighting d l) i) as [g|] eqn:Hg; [|done].
  assert (i ∈ (foldl add_sighting d l).*1) as Hin
    by (apply od_get_is_Some; by rewrite Hg).
  apply elem_of_foldl_keys in Hin as [Hin|(s & Hs & Hi)].
  - apply od_get_is_Some in Hin as [? Hin]. congruence.
  - by destruct (Hl s Hs).
Qed.

Lemma add_sighting_new d i nm ty :
  i ≠ "" → od_get d i = None →
  od_get (add_sighting d (Some i, nm, ty)) i
  = Some {| id := i; name := nm; type := ty |}.
Proof.
  intros Hi%String.eqb_neq Hnone. unfold add_sighting, _add_node. simpl.
  by rewrite Hi, Hnone, od_get_snoc, Hnone, String.eqb_refl.
Qed.

(** X11 — a node has the type of the first call that names its identifier:
    an identifier first seen as a company stays a company when later rows
    name it as a person, and the other way round; one node stands for
    both. *)
Theorem node_type_of_first_sighting (rows : list row) (i : string)
    (nm : option string) (ty : node_type)
    (before after : list (option string * option string * node_type)) :
  i ≠ "" →
  rows ≫= sightings = before ++ (Some i, nm, ty) :: after →
  (∀ s, s ∈ before → sighted s ≠ Some i) →
  ∃ v, get_company_graph (Ok rows) = Ok v
       ∧ ∃ g, g ∈ v_nodes v ∧ id g = i ∧ type g = ty
              ∧ ∀ g', g' ∈ v_nodes v → id g' = i → g' = g.
Proof.
  intros Hi Hrows Hbefore. eexists. split; [reflexivity|]. simpl.
  rewrite nodes_foldl. simpl.
  assert (nodes_wf (foldl add_sighting [] (rows ≫= sightings))) as [Hnd Hid]
    by apply foldl_add_sighting_wf, nodes_wf_nil.
  rewrite Hrows, foldl_app in *. simpl in *.
  pose proof (unsighted_absent before [] i eq_refl Hbefore) as Hnone.
  assert (∃ g, od_get (add_sighting (foldl add_sighting [] before) (Some i, nm, ty)) i
               = Some g ∧ type g = ty) as (g0 & Hg0 & Ht0).
  { rewrite (add_sighting_new _ i nm ty Hi Hnone). by eexists. }
  destruct (foldl_add_sighting_type after _ i g0 Hg0) as (g & Hg & Ht).
  exists g. split_and!.
  - apply list_elem_of_fmap. exists (i, g). split; [done|by apply od_get_Some].
  - by eapply Hid, od_get_Some.
  - congruence.
  - intros g' [[k g''] [-> Hin]]%list_elem_of_fmap Hk. simpl in *.
    pose proof (Hid _ _ Hin) as Hk'. rewrite Hk in Hk'. subst k.
    apply od_get_Some in Hg.
    by apply (NoDup_fst_agree _ i _ _ Hnd).
Qed.

Lemma node_type_of_first_sighting_witness :
  ∃ v, get_company_graph (Ok [Samples.row_nameless; Samples.row_named]) = Ok v
       ∧ ∃ g, g ∈ v_nodes v ∧ id g = "P1" ∧ type g = person
              ∧ ∀ g', g' ∈ v_nodes v → id g' = "P1" → g' = g.
Proof.
  apply (node_type_of_first_sighting
           [Samples.row_nameless; Samples.row_named] "P1" None person
           [(Some "C1", Some "Acme", company)]
           [(None, None, company); (Some "C1", Some "Acme", company);
            (Some "P1", Some "Jane", person); (None, None, company)]).
  - discriminate.
  - reflexivity.
  - intros s Hs. apply list_elem_of_singleton in Hs as ->. discriminate.
Defined.

End RowsFacts.

Module RepeatFacts.
Import Assembler AssemblerFacts View ViewFacts RowsFacts.

(** *** Rows seen before *)

Lemma settled_fixed d s : settled d s → add_sighting d s = d.
Proof.
  destruct s as [[[i|] nm] ty]; unfold settled, sighted, add_sighting, _add_node;
    simpl; [|done].
  destruct (String.eqb i ""); [done|].
  intros (g & -> & [-> | ->]); [done|]. by rewrite andb_false_r.
Qed.

Lemma add_sighting_settled d s : settled (add_sighting d s) s.
Proof.
  destruct s as [[[i|] nm] ty]; unfold settled, sighted, add_sighting, _add_node;
    simpl; [|done].
  destruct (String.eqb i "") eqn:Hi; [done|].
  destruct (od_get d i) as [g|] eqn:Hget.
  - destruct (nonempty (name g)) eqn:Hg; simpl.
    { exists g. split; [done|by left]. }
    destruct (nonempty nm) eqn:Hnm; simpl.
    + rewrite od_get_alter, String.eqb_refl, Hget. simpl.
      eexists. split; [done|]. by left.
    + exists g. split; [done|by right].
  - rewrite od_get_snoc, Hget, String.eqb_refl. eexists. split; [done|]. simpl.
    destruct (nonempty nm); [by left|by right].
Qed.

Lemma settled_step d s s' : settled d s → settled (add_sighting d s') s.
Proof.
  unfold settled. destruct (sighted s) as [i|]; [|done].
  intros (g & Hget & Hg).
  destruct s' as [[[j|] nm'] ty']; unfold add_sighting, _add_node; simpl; [|eauto].
  destruct (String.eqb j ""); [eauto|].
  destruct (od_get d j) as [n|] eqn:Hj.
  - destruct (negb (nonempty (name n)) && nonempty nm') eqn:Hc; [|eauto].
    rewrite od_get_alter, Hget. destruct (String.eqb j i) eqn:Hji; [|eauto].
    apply String.eqb_eq in Hji as ->. simpl. eexists. split; [done|]. left. simpl.
    by apply andb_true_iff in Hc as [_ ?].
  - rewrite od_get_snoc, Hget. eauto.
Qed.

Lemma settled_foldl l d s : settled d s → settled (foldl add_sighting d l) s.
Proof.
  revert d. induction l as [|s' l IH]; intros d Hs; simpl; [done|].
  by apply IH, settled_step.
Qed.

Lemma sighted_settled l d s : s ∈ l → settled (foldl add_sighting d l) s.
Proof.
  revert d. induction l as [|s' l IH]; intros d; [by intros ?%elem_of_nil|].
  simpl. intros [->|Hs]%elem_of_cons; [|by apply IH].
  apply settled_foldl, add_sighting_settled.
Qed.

Lemma add_link_known src tgt rl ls :
  links_wf ls →
  (∀ l, link_of (src, tgt, rl) = Some l → l ∈ ls.2) →
  _add_link src tgt rl ls = ls.
Proof.
  destruct ls as [set lst]. intros [_ Hset] Hl. unfold _add_link, link_of in *.
  destruct src as [s|], tgt as [t|]; try done.
  destruct (String.eqb s "" || String.eqb t ""); [done|].
  specialize (Hl _ eq_refl). simpl in *.
  rewrite bool_decide_true; [done|]. by apply Hset.
Qed.

Lemma fold_row_known rows r :
  r ∈ rows → fold_row (foldl fold_row init rows) r = foldl fold_row init rows.
Proof.
  intros Hr. destruct (links_foldl rows init links_wf_init) as [Hwf Hl].
  pose proof (nodes_foldl rows init) as Hn. simpl in Hn.
  destruct (foldl fold_row init rows) as [d ls] eqn:Ha. simpl in *.
  assert (∀ s, s ∈ sightings r → add_sighting d s = d) as Hs.
  { intros s Hs. apply settled_fixed. rewrite Hn. apply sighted_settled.
    apply list_elem_of_bind. eauto. }
  assert (∀ src tgt rl, (src, tgt, rl) ∈ candidates r → _add_link src tgt rl ls = ls)
    as Hc.
  { intros src tgt rl Hc. apply add_link_known; [done|].
    intros l Hlk. apply Hl. right. eauto. }
  unfold fold_row. simpl. f_equal.
  - pose proof (Hs (root_id r, root_name r, company)) as H1.
    pose proof (Hs (person_id r, person_name r, person)) as H2.
    pose proof (Hs (other_company_id r, other_company_name r, company)) as H3.
    unfold add_sighting, sightings in *. simpl in *.
    rewrite H1 by set_solver. rewrite H2 by set_solver. apply H3. set_solver.
  - rewrite (Hc (person_id r) (root_id r) (role_to_root r))
      by (unfold candidates; set_solver).
    apply Hc. unfold candidates. set_solver.
Qed.

(** X12 — a row seen before changes nothing: rows that repeat rows of the
    result (the 2-hop query returns a director once for each of their
    other companies, and the root with every row) leave the view as the
    rows without the repeats give it. *)
Theorem repeated_rows_change_nothing (rows extra : list row) :
  (∀ r, r ∈ extra → r ∈ rows) →
  get_company_graph (Ok (rows ++ extra)) = get_company_graph (Ok rows).
Proof.
  intros Hextra. unfold get_company_graph. simpl. rewrite foldl_app.
  assert (foldl fold_row (foldl fold_row init rows) extra = foldl fold_row init rows)
    as ->; [|done].
  induction extra as [|r extra IH]; [done|]. simpl.
  rewrite fold_row_known by (apply Hextra; by left).
  apply IH. intros r' Hr'. apply Hextra. by right.
Qed.

Lemma repeated_rows_change_nothing_witness :
  get_company_graph
    (Ok ([Samples.row_nameless; Samples.row_named]
         ++ [Samples.row_named; Samples.row_nameless; Samples.row_named]))
  = get_company_graph (Ok [Samples.row_nameless; Samples.row_named]).
Proof.
  apply repeated_rows_change_nothing.
  intros r Hr. set_solver.
Defined.

(** X13 — the store returns the rows of the query in no promised order; the
    order decides the order of the nodes and links of the view, not which
    there are: for two orders of the same rows the views have the same
    links and nodes for the same identifiers. *)
Theorem row_order_keeps_shape (rows rows' : list row) :
  rows ≡ₚ rows' →
  ∃ v v', get_company_graph (Ok rows) = Ok v
          ∧ get_company_graph (Ok rows') = Ok v'
          ∧ v_links v ≡ₚ v_links v'
          ∧ id <$> v_nodes v ≡ₚ id <$> v_nodes v'.
Proof.
  intros Hperm. do 2 eexists. split_and!; [reflexivity..| |]; simpl.
  - destruct (links_foldl rows init links_wf_init) as [[Hnd _] Hl].
    destruct (links_foldl rows' init links_wf_init) as [[Hnd' _] Hl'].
    apply NoDup_Permutation; [done..|].
    intros l. rewrite Hl, Hl'. by setoid_rewrite Hperm.
  - rewrite !nodes_foldl. simpl.
    assert (∀ rs, nodes_wf (foldl add_sighting [] (rs ≫= sightings))) as Hwf
      by (intros rs; apply foldl_add_sighting_wf, nodes_wf_nil).
    rewrite !ids_are_keys by done.
    apply NoDup_Permutation; [apply Hwf..|].
    intros i. rewrite !elem_of_foldl_keys. by setoid_rewrite Hperm.
Qed.

Lemma row_order_keeps_shape_witness :
  ∃ v v', get_company_graph (Ok [Samples.row_nameless; Samples.row_named]) = Ok v
          ∧ get_company_graph (Ok [Samples.row_named; Samples.row_nameless]) = Ok v'
          ∧ v_links v ≡ₚ v_links v'
          ∧ id <$> v_nodes v ≡ₚ id <$> v_nodes v'.
Proof.
  apply row_order_keeps_shape. apply perm_swap.
Defined.

End RepeatFacts.

(** ** The read queries *)

Module RepositoryFacts.
Import Classifier Store Ingest SessionFacts StoreFacts PassFacts IngestFacts.
Import FrameFacts ViewFacts RowsFacts Graph Repository.

Lemma elem_of_match_company g id i c :
  (i, c) ∈ match_company g id ↔ g_nodes g !! i = Some c ∧ is_company id c.
Proof.
  unfold match_company. rewrite list_elem_of_filter, elem_of_lookup_imap. simpl.
  split.
  - intros [Hc (j & y & [= -> ->] & Hj)]. done.
  - intros [Hi Hc]. split; [done|]. by exists i, c.
Qed.

Lemma match_company_nil g id :
  match_company g id = [] ↔ ∀ n, n ∈ g_nodes g → ¬ is_company id n.
Proof.
  split.
  - intros Hnil n [i Hi]%list_elem_of_lookup_1 Hc.
    assert ((i, n) ∈ match_company g id) as Hin by by apply elem_of_match_company.
    rewrite Hnil in Hin. by apply elem_of_nil in Hin.
  - intros Hall. destruct (match_company g id) as [|[i c] l] eqn:Hm; [done|].
    assert ((i, c) ∈ match_company g id) as Hin by (rewrite Hm; by left).
    apply elem_of_match_company in Hin as [Hi Hc].
    destruct (Hall c); [by eapply list_elem_of_lookup_2|done].
Qed.

Lemma bind_nil_all {A B} (f : A → list B) (l : list A) :
  (∀ x, x ∈ l → f x = []) → l ≫= f = [].
Proof.
  induction l as [|x l IH]; intros Hf; [done|].
  change ((x :: l) ≫= f) with (f x ++ (l ≫= f)).
  rewrite Hf by by left. apply IH. intros y Hy. apply Hf. by right.
Qed.

Lemma elem_of_network g id o :
  o ∈ get_company_network g id ↔
    ∃ r p c, r ∈ g_rels g ∧ e_type r = "DIRECTORSHIP"
             ∧ g_nodes g !! e_src r = Some p ∧ is_person p
             ∧ g_nodes g !! e_tgt r = Some c ∧ is_company id c
             ∧ o = {| o_name := dict_get (p_props p) "name";
                      o_role := dict_get (e_props r) "role";
                      o_start_date := dict_get (e_props r) "start_date" |}.
Proof.
  unfold get_company_network. rewrite list_elem_of_bind. split.
  - intros (r & Ho & Hr).
    destruct (g_nodes g !! e_src r) as [p|] eqn:Hp; [|by apply elem_of_nil in Ho].
    destruct (g_nodes g !! e_tgt r) as [c|] eqn:Hc; [|by apply elem_of_nil in Ho].
    case_decide as Hd; [|by apply elem_of_nil in Ho].
    apply list_elem_of_singleton in Ho. destruct Hd as (? & ? & ?).
    exists r, p, c. by split_and!.
  - intros (r & p & c & Hr & Hty & Hp & Hper & Hc & Hcom & ->).
    exists r. split; [|done]. rewrite Hp, Hc, decide_True by done. by left.
Qed.

(** X14 — an identifier no Company node carries: [get_company_details]
    returns [None] (the live check then answers 404), while the network is
    the empty list and the graph the empty view, returned as results like
    any other; [None] is returned for no other identifier. *)
Theorem unknown_company_reads_empty (elementId : nat → string) (g : graph)
    (id : string) :
  (get_company_details g id = Ok None ↔ ∀ n, n ∈ g_nodes g → ¬ is_company id n)
  ∧ ((∀ n, n ∈ g_nodes g → ¬ is_company id n) →
     get_company_network g id = []
     ∧ graph_query elementId g id = []
     ∧ company_graph elementId g id
       = Ok {| Assembler.v_nodes := []; Assembler.v_links := [] |}).
Proof.
  split.
  - rewrite <- match_company_nil. unfold get_company_details.
    destruct (match_company g id) as [|[i c] l]; [done|].
    split; [|done]. by destruct (details_record c).
  - intros Hnone. split_and!.
    + apply bind_nil_all. intros r _.
      destruct (g_nodes g !! e_src r) as [p|]; [|done].
      destruct (g_nodes g !! e_tgt r) as [c|] eqn:Hc; [|done].
      rewrite decide_False; [done|]. intros (_ & _ & Hcom).
      apply (Hnone c); [by eapply list_elem_of_lookup_2|done].
    + unfold graph_query. by rewrite (proj2 (match_company_nil g id) Hnone).
    + unfold company_graph, graph_query.
      by rewrite (proj2 (match_company_nil g id) Hnone).
Qed.

(** *** After a run of [ingest.py] *)

Lemma is_company_of_node id n :
  is_company id (of_node n) ↔ node_key n = (Company, VStr id).
Proof.
  unfold is_company, of_node, node_key. simpl. rewrite list_elem_of_singleton.
  split.
  - intros [Hl Hid]. destruct (n_label n); [|done]. by rewrite Hid.
  - intros [= -> ->]. done.
Qed.

Lemma is_person_of_node n : is_person (of_node n) ↔ n_label n = Person.
Proof.
  unfold is_person, of_node. simpl. rewrite list_elem_of_singleton.
  by destruct (n_label n).
Qed.

Lemma details_record_of_node n :
  details_record (of_node n)
  = Ok {| company_id := n_ftm_id n; name := n_name n; address := VNone |}.
Proof. done. Qed.

Lemma details_latest entities bs (st : store) i summary earlier row later :
  (ingest entities bs st).2 = Ok summary →
  omap node_row_of entities.1 = earlier ++ (Company, row) :: later →
  nr_id row = VStr i →
  (∀ e, e ∈ later → row_key e ≠ (Company, VStr i)) →
  get_company_details (of_store (ingest entities bs st).1) i
  = Ok (Some {| company_id := VStr i; name := nr_name row; address := VNone |}).
Proof.
  intros Hok Hrows Hid Hlater.
  rewrite ingest_writes in Hok. simpl in Hok.
  destruct (ingest_ok _ _ _ Hok) as [Hn _].
  destruct (import_nodes_log entities bs) as (_ & _ & Hc).
  destruct (Hc _ Hn) as [Hev _]. cbn zeta in Hev.
  assert ((Company, VStr i) ∈ node_key <$> nodes (ingest entities bs st).1) as Hkey.
  { rewrite ingest_store. simpl.
    apply (foldl_upsert_keys row_key node_key node_set node_new
             node_set_key node_new_key). right.
    apply list_elem_of_fmap. exists (Company, row).
    split; [unfold row_key; simpl; by rewrite Hid|].
    apply elem_of_rows_for. rewrite Hev, Hrows. apply elem_of_rows_for.
    apply elem_of_app. right. by left. }
  unfold get_company_details.
  destruct (match_company _ i) as [|[j c] l] eqn:Hm.
  - apply list_elem_of_fmap in Hkey as (n & Hk & Hin).
    destruct (proj1 (match_company_nil _ i) Hm (of_node n)).
    + simpl. apply list_elem_of_fmap. by exists n.
    + by apply is_company_of_node.
  - assert ((j, c) ∈ match_company (of_store (ingest entities bs st).1) i)
      as [Hj Hcom]%elem_of_match_company by (rewrite Hm; by left).
    simpl in Hj. rewrite list_lookup_fmap in Hj.
    destruct (nodes (ingest entities bs st).1 !! j) as [n|] eqn:Hnj; [|done].
    injection Hj as <-. apply is_company_of_node in Hcom.
    rewrite details_record_of_node. simpl. do 3 f_equal.
    + by injection Hcom.
    + rewrite <- Hid in Hcom, Hlater.
      pose proof (node_latest entities bs st _ earlier Company row later n
                    Hn Hrows Hlater (list_elem_of_lookup_2 _ _ _ Hnj) Hcom) as Hset.
      by rewrite <- Hset.
Qed.

Lemma details_unknown entities bs (st : store) i :
  (Company, VStr i) ∉ node_key <$> nodes st →
  (Company, VStr i) ∉ row_key <$> omap node_row_of entities.1 →
  get_company_details (of_store (ingest entities bs st).1) i = Ok None.
Proof.
  intros Hst Hin. unfold get_company_details.
  rewrite (proj2 (match_company_nil _ i)); [done|].
  intros c [n [-> Hn]]%list_elem_of_fmap Hcom%is_company_of_node.
  rewrite ingest_store in Hn. simpl in Hn.
  assert ((Company, VStr i)
          ∈ node_key <$> foldl merge_node (nodes st)
                           (node_events (node_writes entities bs))) as Hkey.
  { apply list_elem_of_fmap. by exists n. }
  apply (foldl_upsert_keys row_key node_key node_set node_new
           node_set_key node_new_key) in Hkey as [Hkey|Hkey]; [done|].
  apply Hin. apply list_elem_of_fmap in Hkey as (e & He & Hev).
  apply list_elem_of_fmap. exists e. split; [done|].
  by eapply node_events_from_records.
Qed.

(** X15 — a store that [ingest.py] alone has written, before the run and
    in it, read back by [get_company_details].  (A [store] holds of a node
    the five properties [NODE_CYPHER] sets; a node that another script gave
    an address, which [NODE_CYPHER] would leave in place, is no node of
    such a store.)  After a run that ends without an exception, the details
    of an identifier carried by a Company record of the input are that
    identifier and the name of the last such record, and no address; an
    identifier that no Company node of the store before and no Company
    record of the input carries has no details, however the run ends. *)
Theorem details_after_ingest (entities : Reader.stream dict) (bs : Z) (st : store)
    (i : string) :
  let g := of_store (ingest entities bs st).1 in
  (∀ summary earlier row later,
     (ingest entities bs st).2 = Ok summary →
     omap node_row_of entities.1 = earlier ++ (Company, row) :: later →
     nr_id row = VStr i →
     (∀ e, e ∈ later → row_key e ≠ (Company, VStr i)) →
     get_company_details g i
     = Ok (Some {| company_id := VStr i; name := nr_name row; address := VNone |}))
  ∧ ((Company, VStr i) ∉ node_key <$> nodes st →
     (Company, VStr i) ∉ row_key <$> omap node_row_of entities.1 →
     get_company_details g i = Ok None).
Proof.
  cbn zeta. split.
  - intros summary earlier row later. apply details_latest.
  - apply details_unknown.
Qed.

Lemma details_after_ingest_witness :
  get_company_details Examples.acme_graph "C1"
  = Ok (Some {| company_id := VStr "C1"; name := VStr "Acme"; address := VNone |})
  ∧ get_company_details Examples.acme_graph "C9" = Ok None.
Proof.
  split.
  - refine (proj1 (details_after_ingest Samples.scenario 5000 Store.empty "C1")
              {| nodes_count := (1, 1); rels_count := (1, 0) |}
              [] {| nr_id := VStr "C1"; nr_schema := VStr "Company";
                    nr_name := VStr "Acme"; nr_datasets := VList [];
                    nr_modified_at := VNone |}
              [(Person, {| nr_id := VStr "P1"; nr_schema := VStr "Person";
                           nr_name := VStr "Jane"; nr_datasets := VList [];
                           nr_modified_at := VNone |})]
              eq_refl eq_refl eq_refl _).
    intros e He. apply list_elem_of_singleton in He as ->. discriminate.
  - refine (proj2 (details_after_ingest Samples.scenario 5000 Store.empty "C9") _ _).
    + apply not_elem_of_nil.
    + vm_compute. intros H.
      apply elem_of_cons in H as [H|H]; [discriminate|].
      apply elem_of_cons in H as [H|H]; [discriminate|].
      by apply elem_of_nil in H.
Defined.

End RepositoryFacts.

(** ** The 2-hop query and its view *)

Module GraphQueryFacts.
Import Classifier Store Ingest StoreFacts.
Import Assembler AssemblerFacts View ViewFacts RowsFacts Graph Repository RepositoryFacts.

Lemma elem_of_directors g root i p r :
  (i, p, r) ∈ directors g root ↔
    r ∈ g_rels g ∧ e_type r = "DIRECTORSHIP" ∧ e_tgt r = root
    ∧ g_nodes g !! e_src r = Some p ∧ is_person p ∧ i = e_src r.
Proof.
  unfold directors. rewrite list_elem_of_bind. split.
  - intros (r' & Hin & Hr').
    destruct (g_nodes g !! e_src r') as [p'|] eqn:Hp; [|by apply elem_of_nil in Hin].
    case_decide as Hd; [|by apply elem_of_nil in Hin].
    apply list_elem_of_singleton in Hin as [= -> -> ->].
    destruct Hd as (? & ? & ?). by split_and!.
  - intros (Hr & Hty & Htgt & Hp & Hper & ->). exists r. split; [|done].
    rewrite Hp, decide_True by done. by left.
Qed.

Lemma elem_of_other_companies g root p r i c2 :
  (r, i, c2) ∈ other_companies g root p ↔
    r ∈ g_rels g ∧ e_type r = "DIRECTORSHIP" ∧ e_src r = p
    ∧ g_nodes g !! e_tgt r = Some c2 ∧ "Company" ∈ p_labels c2
    ∧ differs (dict_get (p_props c2) "ftm_id") (dict_get (p_props root) "ftm_id")
    ∧ i = e_tgt r.
Proof.
  unfold other_companies. rewrite list_elem_of_bind. split.
  - intros (r' & Hin & Hr').
    destruct (g_nodes g !! e_tgt r') as [c|] eqn:Hc; [|by apply elem_of_nil in Hin].
    case_decide as Hd; [|by apply elem_of_nil in Hin].
    apply list_elem_of_singleton in Hin as [= -> -> ->].
    destruct Hd as (? & ? & ? & ?). by split_and!.
  - intros (Hr & Hty & Hsrc & Hc & Hl & Hd & ->). exists r. split; [|done].
    rewrite Hc, decide_True by done. by left.
Qed.

Section query.
Variable elementId : nat → string.

(** What a row of the query stands for. *)
Lemma elem_of_graph_query g id vr :
  vr ∈ graph_query elementId g id →
  ∃ iroot root d o,
    g_nodes g !! iroot = Some root ∧ is_company id root
    ∧ d ∈ optional_match (directors g iroot)
    ∧ o ∈ optional_match
            (match d with
             | Some (p, _, _) => other_companies g root p
             | None => []
             end)
    ∧ v_root_id vr = VStr id
    ∧ v_root_name vr = dict_get (p_props root) "name"
    ∧ v_person_id vr
      = match d with Some (i, p, _) => node_id elementId i p | None => VNone end
    ∧ v_other_company_id vr
      = match o with Some (_, i, c2) => node_id elementId i c2 | None => VNone end
    ∧ v_role_to_root vr
      = match d with
        | Some (_, _, r1) => dict_get (e_props r1) "role"
        | None => VNone
        end
    ∧ v_role_to_other vr
      = match o with
        | Some (r2, _, _) => dict_get (e_props r2) "role"
        | None => VNone
        end.
Proof.
  unfold graph_query. intros Hin%elem_of_take. destruct Hin as (k & Hk & _).
  apply list_elem_of_lookup_2 in Hk.
  apply list_elem_of_bind in Hk as ([iroot root] & Hk & [Hroot Hcom]%elem_of_match_company).
  apply list_elem_of_bind in Hk as (d & Hk & Hd).
  apply list_elem_of_bind in Hk as (o & Hk & Ho).
  apply list_elem_of_singleton in Hk as ->. simpl in *.
  exists iroot, root, d, o. split_and!; try done. apply Hcom.
Qed.

Lemma graph_query_nonempty g id :
  match_company g id ≠ [] → ∃ vr rest, graph_query elementId g id = vr :: rest.
Proof.
  unfold graph_query. destruct (match_company g id) as [|root roots]; [done|].
  intros _.
  change ((root :: roots) ≫= ?f) with (f root ++ (roots ≫= f)). cbn beta.
  assert (∀ {A} (l : list A), ∃ x xs, optional_match l = x :: xs) as Hopt.
  { intros A [|x l]; simpl; eauto. }
  destruct (Hopt _ (directors g root.1)) as (d & ds & ->).
  change ((d :: ds) ≫= ?f) with (f d ++ (ds ≫= f)). cbn beta.
  match goal with |- context [optional_match ?l] =>
    destruct (Hopt _ l) as (o & os & ->) end.
  change ((o :: os) ≫= ?f) with (f o ++ (os ≫= f)). cbn beta.
  simpl. eauto.
Qed.

Lemma text_Some v s : text v = Some s ↔ v = VStr s.
Proof. destruct v; simpl; naive_solver. Qed.

Lemma node_id_differs i c2 a t :
  differs (dict_get (p_props c2) "ftm_id") a →
  text (node_id elementId i c2) = Some t → a ≠ VStr t.
Proof.
  unfold node_id, coalesce_v. intros (Hnn & _ & Hne).
  destruct (dict_get (p_props c2) "ftm_id"); simpl; try done.
  intros [= ->]. done.
Qed.

(** The first call of the first row registers the root, and what comes
    first stays first. *)
Lemma add_sighting_head k g d s :
  ∃ g' d', add_sighting ((k, g) :: d) s = (k, g') :: d'
           ∧ id g' = id g ∧ type g' = type g.
Proof.
  destruct s as [[[j|] nm] ty]; unfold add_sighting, _add_node; simpl;
    [|by eauto].
  destruct (String.eqb j ""); [by eauto|].
  destruct (String.eqb k j) eqn:Hkj.
  - destruct (negb _ && _); simpl; rewrite ?Hkj; by eauto.
  - destruct (od_get d j) as [n|].
    + destruct (negb _ && _); simpl; rewrite ?Hkj; by eauto.
    + simpl. by eauto.
Qed.

Lemma foldl_add_sighting_head l k g d :
  ∃ g' d', foldl add_sighting ((k, g) :: d) l = (k, g') :: d'
           ∧ id g' = id g ∧ type g' = type g.
Proof.
  revert g d. induction l as [|s l IH]; intros g d; simpl; [by eauto|].
  destruct (add_sighting_head k g d s) as (g1 & d1 & -> & Hi1 & Ht1).
  destruct (IH g1 d1) as (g2 & d2 & -> & Hi2 & Ht2).
  exists g2, d2. split_and!; [done|congruence..].
Qed.

Lemma root_first rows r i :
  root_id r = Some i → i ≠ "" →
  ∃ g' d', foldl add_sighting [] ((r :: rows) ≫= sightings) = (i, g') :: d'
           ∧ Assembler.id g' = i ∧ type g' = company.
Proof.
  intros Hr Hi.
  change ((r :: rows) ≫= sightings) with (sightings r ++ (rows ≫= sightings)).
  unfold sightings at 1.
  change (foldl add_sighting [] ([?s0; ?s1; ?s2] ++ ?l))
    with (foldl add_sighting (add_sighting [] s0) ([s1; s2] ++ l)).
  rewrite Hr.
  assert (add_sighting [] (Some i, root_name r, company)
          = [(i, {| Assembler.id := i; Assembler.name := root_name r;
                 Assembler.type := company |})])
    as ->.
  { unfold add_sighting, _add_node. simpl. by apply String.eqb_neq in Hi as ->. }
  apply foldl_add_sighting_head.
Qed.

(** X16 — the view of a company is a star of directorships around it.  Every
    link of the view starts at a Person with a DIRECTORSHIP relationship to
    a Company node carrying the identifier asked for, and either ends at
    that identifier, with the role of that relationship, or ends at another
    Company the same person has a DIRECTORSHIP relationship to, with the
    role of that one; such a second company never carries the identifier
    asked for.  When a Company node carries the identifier (not the empty
    string), the first node of the view is that company. *)
Theorem company_graph_is_a_star (g : graph) (id : string) :
  Forall textual_row (graph_query elementId g id) →
  ∃ v, company_graph elementId g id = Ok v
    ∧ (∀ l, l ∈ v_links v → star_link elementId g id l)
    ∧ (id ≠ "" → (∃ n, n ∈ g_nodes g ∧ is_company id n) →
       ∃ g0 rest, v_nodes v = g0 :: rest
                  ∧ Assembler.id g0 = id ∧ type g0 = company).
Proof.
  intros _. eexists. split; [reflexivity|]. simpl. split.
  - destruct (links_foldl (to_row <$> graph_query elementId g id) init links_wf_init)
      as [_ Hl].
    intros l [[]%elem_of_nil|(r & c & Hr & Hc & Hlk)]%Hl. unfold star_link.
    apply list_elem_of_fmap in Hr as (vr & -> & Hvr).
    apply link_of_Some in Hlk as (rl & -> & Hs & Ht & Hrole).
    destruct (elem_of_graph_query _ _ _ Hvr)
      as (iroot & root & d & o & Hroot & Hcom & Hd & Ho
          & Hrid & _ & Hpid & Hoid & Hr1 & Hr2).
    assert (∃ ip p r1, d = Some (ip, p, r1)
                       ∧ node_id elementId ip p = VStr (source l))
      as (ip & p & r1 & -> & Hsrc).
    { unfold candidates in Hc. simpl in Hc.
      assert (text (v_person_id vr) = Some (source l)) as Hp by set_solver.
      rewrite Hpid in Hp. destruct d as [[[ip p] r1]|]; [|done].
      apply text_Some in Hp. eauto. }
    apply elem_of_optional_match, elem_of_directors in Hd
      as (Hin1 & Hty1 & Htgt1 & Hp & Hper & ->).
    exists r1, p, root. rewrite Htgt1. split_and!; try done.
    unfold candidates in Hc. simpl in Hc.
    apply elem_of_cons in Hc as [[= _ Htl Hrl]|Hc].
    + left. rewrite Hrid in Htl. injection Htl as <-. split; [done|].
      by rewrite Hrole, Hrl, Hr1.
    + apply list_elem_of_singleton in Hc as [= _ Htl Hrl]. right.
      rewrite Hoid in Htl. destruct o as [[[r2 ic] c2]|]; [|done].
      apply elem_of_optional_match, elem_of_other_companies in Ho
        as (Hin2 & Hty2 & Hsrc2 & Hc2 & Hlab & Hdiff & ->).
      exists r2, c2. split_and!; try done.
      * by apply text_Some.
      * destruct Hcom as [_ Hfid]. rewrite Hfid in Hdiff.
        intros <-. by apply (node_id_differs _ _ _ _ Hdiff (eq_sym Htl)).
      * by rewrite Hrole, Hrl, Hr2.
  - intros Hid (n & Hn & Hcom).
    destruct (graph_query_nonempty g id) as (vr & rest & Hq).
    { intros Hnil. by apply (proj1 (match_company_nil g id) Hnil n). }
    assert (v_root_id vr = VStr id) as Hrid.
    { destruct (elem_of_graph_query g id vr) as (?&?&?&?&?&?&?&?&?&?); [|done].
      rewrite Hq. by left. }
    rewrite nodes_foldl, Hq, fmap_cons. simpl nodes_by_id.
    destruct (root_first (to_row <$> rest) (to_row vr) id) as (g' & d' & -> & ? & ?);
      [by simpl; rewrite Hrid|done|].
    simpl. eauto.
Qed.

End query.

Lemma company_graph_is_a_star_witness :
  ∃ v, company_graph Examples.element_id Examples.acme_graph "C1" = Ok v
    ∧ (∀ l, l ∈ v_links v → star_link Examples.element_id Examples.acme_graph "C1" l)
    ∧ ("C1" ≠ "" → (∃ n, n ∈ g_nodes Examples.acme_graph ∧ is_company "C1" n) →
       ∃ g0 rest, v_nodes v = g0 :: rest
                  ∧ Assembler.id g0 = "C1" ∧ type g0 = company).
Proof.
  apply company_graph_is_a_star.
  vm_compute. repeat constructor.
Defined.


End GraphQueryFacts.

(** ** What [ingest.py] does not write *)

Module WrittenFacts.
Import Classifier Store Ingest StoreFacts.
Import Assembler AssemblerFacts View ViewFacts Graph Repository RepositoryFacts.
Import GraphQueryFacts.

Lemma of_rel_role r :
  dict_get (e_props (of_rel r)) "role" = VNone
  ∧ dict_get (e_props (of_rel r)) "start_date" = VNone.
Proof. done. Qed.

(** X17 — the two statements of [ingest.py] set neither a role nor a start
    date on a relationship, nor an address on a node.  So on a store they
    alone have written, every officer [get_company_network] lists (a
    Person with a DIRECTORSHIP edge to the company; a Company that directs
    it is not listed) has no role and no start date, every link of the
    company graph has no role, and the company details have no address. *)
Theorem unwritten_properties_read_null (elementId : nat → string) (st : store)
    (id : string) :
  (∀ o, o ∈ get_company_network (of_store st) id →
     o_role o = VNone ∧ o_start_date o = VNone
     ∧ ∃ r p c, r ∈ rels st ∧ r_type r = DIRECTORSHIP
                ∧ nodes st !! r_src r = Some p ∧ n_label p = Person
                ∧ o_name o = n_name p
                ∧ nodes st !! r_tgt r = Some c ∧ node_key c = (Company, VStr id))
  ∧ (∀ v, company_graph elementId (of_store st) id = Ok v →
       ∀ l, l ∈ v_links v → role l = None)
  ∧ (∀ d, get_company_details (of_store st) id = Ok (Some d) → address d = VNone).
Proof.
  split_and!.
  - intros o (r' & p' & c' & Hr & Hty & Hp & Hper & Hc & Hcom & ->)%elem_of_network.
    simpl in Hr, Hp, Hc.
    apply list_elem_of_fmap in Hr as (r & -> & Hr).
    rewrite list_lookup_fmap in Hp, Hc. simpl in Hp, Hc.
    destruct (nodes st !! r_src r) as [p|] eqn:Hp'; [|done].
    destruct (nodes st !! r_tgt r) as [c|] eqn:Hc'; [|done].
    injection Hp as <-. injection Hc as <-. simpl. split_and!; [done..|].
    exists r, p, c. split_and!; try done.
    + simpl in Hty. by destruct (r_type r).
    + by apply is_person_of_node.
    + by apply is_company_of_node.
  - intros v [= <-] l Hl. simpl in Hl.
    destruct (links_foldl (to_row <$> graph_query elementId (of_store st) id)
                init links_wf_init) as [_ Hlinks].
    apply Hlinks in Hl as [[]%elem_of_nil|(r & c & Hr & Hc & Hlk)].
    apply list_elem_of_fmap in Hr as (vr & -> & Hvr).
    apply link_of_Some in Hlk as (rl & -> & _ & _ & ->).
    destruct (elem_of_graph_query _ _ _ _ Hvr)
      as (iroot & root & d & o & _ & _ & Hd & Ho & _ & _ & _ & _ & Hr1 & Hr2).
    assert (v_role_to_root vr = VNone) as Hn1.
    { rewrite Hr1. destruct d as [[[ip p] r1]|]; [|done].
      apply elem_of_optional_match, elem_of_directors in Hd as (Hin & _).
      simpl in Hin. by apply list_elem_of_fmap in Hin as (r & -> & _). }
    assert (v_role_to_other vr = VNone) as Hn2.
    { rewrite Hr2. destruct o as [[[r2 ic] c2]|]; [|done].
      destruct d as [[[ip p] r1]|]; [|by apply elem_of_optional_match, elem_of_nil in Ho].
      apply elem_of_optional_match, elem_of_other_companies in Ho as (Hin & _).
      simpl in Hin. by apply list_elem_of_fmap in Hin as (r & -> & _). }
    unfold candidates in Hc. simpl in Hc.
    apply elem_of_cons in Hc as [[= _ _ ->]|Hc]; [by rewrite Hn1|].
    apply list_elem_of_singleton in Hc as [= _ _ ->]. by rewrite Hn2.
  - intros d. unfold get_company_details.
    destruct (match_company _ id) as [|[j c] l] eqn:Hm; [done|].
    assert ((j, c) ∈ match_company (of_store st) id)
      as [Hj _]%elem_of_match_company by (rewrite Hm; by left).
    simpl in Hj. rewrite list_lookup_fmap in Hj.
    destruct (nodes st !! j) as [n|]; [|done]. injection Hj as <-.
    rewrite details_record_of_node. by intros [= <-].
Qed.

End WrittenFacts.

(** ** Company status *)

Module StatusFacts.
Import Status.

Lemma prefix_append p s : String.prefix p s = true ↔ ∃ post, s = p +:+ post.
Proof.
  revert s. induction p as [|a p IH]; intros s.
  - split; [intros _; by exists s|by destruct s].
  - destruct s as [|b s]; simpl.
    + split; [done|by intros [? ?]].
    + destruct (Ascii.ascii_dec a b) as [->|Hab].
      * rewrite IH. split; intros [post Hpost]; exists post; simpl in *;
          [by rewrite Hpost|by injection Hpost].
      * split; [done|]. intros [post [= ? ?]]. done.
Qed.

Lemma contains_occurs needle s : contains needle s = true ↔ occurs needle s.
Proof.
  unfold occurs. induction s as [|b s IH]; cbn [contains].
  - rewrite prefix_append. split.
    + intros [post Hp]. by exists "", post.
    + intros (pre & post & Hs). destruct pre; [by exists post|done].
  - rewrite orb_true_iff, IH, prefix_append. split.
    + intros [[post ->]|(pre & post & ->)]; [by exists "", post|].
      by exists (String b pre), post.
    + intros (pre & post & Hs). destruct pre as [|c pre]; simpl in Hs.
      * left. by exists post.
      * right. injection Hs as -> ->. by exists pre, post.
Qed.

Lemma endswith_append s suffix :
  endswith s suffix = true ↔ ∃ before, s = before +:+ suffix.
Proof.
  induction s as [|b s IH]; cbn [endswith].
  - rewrite String.eqb_eq. split.
    + intros <-. by exists "".
    + intros [pre Hs]. destruct pre; [done|done].
  - rewrite orb_true_iff, IH, String.eqb_eq. split.
    + intros [<-|[pre ->]]; [by exists ""|by exists (String b pre)].
    + intros [pre Hs]. destruct pre as [|c pre]; simpl in Hs.
      * by left.
      * right. injection Hs as -> ->. by exists pre.
Qed.

(** X18 — the mock status of a company is decided by the first of these
    that holds of the case-folded name (a missing name counting as empty):
    it contains "insolvenz": INSOLVENT; "liquidation" or "abwicklung":
    LIQUIDATION; "löschung" or "loeschung": DELETED; and when none does, by
    the identifier: WARNING when it ends in "9", ACTIVE otherwise.  The
    mock never answers UNKNOWN, which is all the placeholder for the real
    provider answers. *)
Theorem mock_status_table (casefold : string → string)
    (company_id name : option string) :
  let n := casefold (or_empty name) in
  let status := MockStatusProvider.check_status casefold company_id name in
  let liquidation := occurs "liquidation" n ∨ occurs "abwicklung" n in
  let deletion := occurs "löschung" n ∨ occurs "loeschung" n in
  let nine := ∃ before, or_empty company_id = before +:+ "9" in
  (status = INSOLVENT ↔ occurs "insolvenz" n)
  ∧ (status = LIQUIDATION ↔ ¬ occurs "insolvenz" n ∧ liquidation)
  ∧ (status = DELETED ↔ ¬ occurs "insolvenz" n ∧ ¬ liquidation ∧ deletion)
  ∧ (status = WARNING ↔
     ¬ occurs "insolvenz" n ∧ ¬ liquidation ∧ ¬ deletion ∧ nine)
  ∧ (status = ACTIVE ↔
     ¬ occurs "insolvenz" n ∧ ¬ liquidation ∧ ¬ deletion ∧ ¬ nine)
  ∧ status ≠ UNKNOWN
  ∧ NorthDataStatusProvider.check_status company_id name = UNKNOWN.
Proof.
  cbn zeta. unfold MockStatusProvider.check_status.
  rewrite <- !contains_occurs, <- endswith_append.
  destruct (contains "insolvenz" _), (contains "liquidation" _),
    (contains "abwicklung" _), (contains "löschung" _), (contains "loeschung" _),
    (endswith _ "9"); simpl; split_and!; try done; naive_solver.
Qed.

End StatusFacts.

(** ** Routes and wiring *)

Module RouterFacts.
Import Classifier Store Ingest IngestFacts.
Import Graph Repository RepositoryFacts Status Dependencies Router.

(** X19 — the live check of a company on a store that [ingest.py] alone
    has written (so that no node carries an address), after a run of it
    that ends without an exception.  For an identifier carried by a Company record
    of the input, the answer holds the identifier asked for, the name of
    the last such record when that is a string, no address, and the status
    the provider gives for the two; when that record gives no name (no
    name list, or a scalar where the list should be) the check fails, since
    the response must hold a name.  For an identifier that no Company
    carries the answer is 404.  The provider is the mock unless
    USE_MOCK_DATA is set to something other than 1, true, yes, y or on,
    and then the status is always UNKNOWN. *)
Theorem live_check_after_ingest (casefold strip lower : string → string)
    (env : environ) (entities : Reader.stream dict) (bs : Z) (st : store)
    (i : string) :
  let g := of_store (ingest entities bs st).1 in
  let p := get_status_provider strip lower env in
  (∀ summary earlier row later,
     (ingest entities bs st).2 = Ok summary →
     omap node_row_of entities.1 = earlier ++ (Company, row) :: later →
     nr_id row = VStr i →
     (∀ e, e ∈ later → row_key e ≠ (Company, VStr i)) →
     (∀ n, nr_name row = VStr n →
        live_check_company casefold g p i
        = Reply {| r_company_id := i; r_name := n; r_address := None;
                   r_status := check_status casefold p (Some i) (Some n) |})
     ∧ (nr_name row = VNone → live_check_company casefold g p i = InternalError))
  ∧ ((Company, VStr i) ∉ node_key <$> nodes st →
     (Company, VStr i) ∉ row_key <$> omap node_row_of entities.1 →
     live_check_company casefold g p i = HTTPException 404 "Company not found")
  ∧ (env "USE_MOCK_DATA" = None → p = MockStatusProvider)
  ∧ (∀ raw, env "USE_MOCK_DATA" = Some raw →
       lower (strip raw) ∉ ["1"; "true"; "yes"; "y"; "on"] →
       p = NorthDataStatusProvider
       ∧ ∀ r, live_check_company casefold g p i = Reply r → r_status r = UNKNOWN).
Proof.
  cbn zeta. split_and!.
  - intros summary earlier row later Hok Hrows Hid Hlater.
    unfold live_check_company.
    rewrite (details_latest _ _ _ _ _ _ _ _ Hok Hrows Hid Hlater). simpl.
    split; [by intros n ->|by intros ->].
  - intros Hst Hin. unfold live_check_company.
    by rewrite (details_unknown _ _ _ _ Hst Hin).
  - intros Hnone. unfold get_status_provider, _env_truthy. by rewrite Hnone.
  - intros raw Hraw Hnot.
    assert (get_status_provider strip lower env = NorthDataStatusProvider) as ->.
    { unfold get_status_provider, _env_truthy. rewrite Hraw.
      by rewrite bool_decide_false. }
    split; [done|]. intros r. unfold live_check_company.
    destruct (get_company_details _ i) as [[d|]|]; [|done..].
    destruct (name d); try done. by intros [= <-].
Qed.

Lemma live_check_after_ingest_witness :
  live_check_company Examples.ascii_lower Examples.acme_graph
    (get_status_provider Examples.ascii_lower Examples.ascii_lower (λ _, None)) "C1"
  = Reply {| r_company_id := "C1"; r_name := "Acme"; r_address := None;
             r_status := ACTIVE |}.
Proof.
  refine (proj1 (proj1 (live_check_after_ingest
                          Examples.ascii_lower Examples.ascii_lower
                          Examples.ascii_lower (λ _, None)
                          Samples.scenario 5000 Store.empty "C1")
                   {| nodes_count := (1, 1); rels_count := (1, 0) |}
                   [] {| nr_id := VStr "C1"; nr_schema := VStr "Company";
                         nr_name := VStr "Acme"; nr_datasets := VList [];
                         nr_modified_at := VNone |}
                   [(Person, {| nr_id := VStr "P1"; nr_schema := VStr "Person";
                                nr_name := VStr "Jane"; nr_datasets := VList [];
                                nr_modified_at := VNone |})]
                   eq_refl eq_refl eq_refl _) "Acme" eq_refl).
  intros e He. apply list_elem_of_singleton in He as ->. discriminate.
Defined.


Lemma two_cycle {A} (a b : A) (n : nat) :
  [a; b] !! (n mod 2) = Some (if Nat.even n then a else b).
Proof.
  induction n as [n IH] using lt_wf_ind. destruct n as [|[|n]]; [done..|].
  assert (S (S n) mod 2 = n mod 2) as ->.
  { replace (S (S n)) with (n + 1 * 2) by lia. apply Nat.Div0.mod_add. }
  rewrite IH by lia. done.
Qed.

Lemma mock_replies_cons id ids calls :
  mock_replies (id :: ids) calls
  = [ororatech_data; hochtief_data] !! (calls mod 2) :: mock_replies ids (S calls).
Proof. done. Qed.

(** X21 — the mock endpoint answers by turns, not by company: the [k]-th
    request since the module was loaded gets the OroraTech dataset when
    [k] is even and the HOCHTIEF dataset when it is odd, whatever the
    identifiers asked for. *)
Theorem mock_datasets_alternate (ids : list string) (k : nat) :
  (k < length ids)%nat →
  mock_replies ids 0 !! k
  = Some (Some (if Nat.even k then ororatech_data else hochtief_data)).
Proof.
  assert (∀ calls, (k < length ids)%nat →
            mock_replies ids calls !! k
            = Some (Some (if Nat.even (calls + k)
                          then ororatech_data else hochtief_data))) as Hgen.
  { revert k. induction ids as [|id ids IH]; intros k calls Hk; [simpl in Hk; lia|].
    rewrite mock_replies_cons. destruct k as [|k].
    - rewrite Nat.add_0_r. simpl lookup. f_equal. apply two_cycle.
    - simpl in Hk. rewrite lookup_cons. rewrite IH by lia.
      by replace (calls + S k)%nat with (S calls + k)%nat by lia. }
  intros Hk. by rewrite Hgen.
Qed.

Lemma mock_datasets_alternate_witness :
  mock_replies ["C1"; "C1"; "C2"] 0 !! 1 = Some (Some hochtief_data).
Proof. apply (mock_datasets_alternate ["C1"; "C1"; "C2"] 1). simpl. lia. Defined.

End RouterFacts.

(** ** Search on a database set up by [ingest.py] *)

Module DatabaseFacts.
Import Graph Repository Search Status StatusFacts Database.

Section statements.
Variable toLower : string → string.
Variable query_nodes : graph → string → Z → result (list hit).

Lemma substring_hits_ok q (cs : list pnode) :
  (∀ c, c ∈ cs → "Company" ∈ p_labels c → textual (dict_get (p_props c) "name")) →
  ∃ hits, substring_hits toLower q cs = Ok hits
    ∧ ∀ h, h ∈ hits →
        h_score h = zero_score
        ∧ ∃ c nm, c ∈ cs ∧ "Company" ∈ p_labels c
                  ∧ dict_get (p_props c) "name" = VStr nm
                  ∧ h_name h = VStr nm
                  ∧ h_id h = dict_get (p_props c) "ftm_id"
                  ∧ occurs (toLower q) (toLower nm).
Proof.
  induction cs as [|c cs IH]; intros Htext; simpl.
  - eexists. split; [done|]. by intros h ?%elem_of_nil.
  - destruct IH as (rest & -> & Hrest).
    { intros c' Hc'. apply Htext. by right. }
    assert (∃ hs, substring_hit toLower q c = Ok hs
              ∧ ∀ h, h ∈ hs →
                  h_score h = zero_score
                  ∧ ∃ nm, "Company" ∈ p_labels c
                          ∧ dict_get (p_props c) "name" = VStr nm
                          ∧ h_name h = VStr nm
                          ∧ h_id h = dict_get (p_props c) "ftm_id"
                          ∧ occurs (toLower q) (toLower nm)) as (hs & -> & Hhs).
    { unfold substring_hit. case_decide as Hl.
      - specialize (Htext c (ltac:(by left)) Hl).
        destruct (dict_get (p_props c) "name") as [| | | |nm| |] eqn:Hnm; try done.
        + eexists. split; [done|]. by intros h ?%elem_of_nil.
        + eexists. split; [done|]. intros h Hh.
          destruct (contains _ _) eqn:Hc; [|by apply elem_of_nil in Hh].
          apply list_elem_of_singleton in Hh as ->. simpl. split; [done|].
          exists nm. split_and!; try done. by apply contains_occurs.
      - eexists. split; [done|]. by intros h ?%elem_of_nil. }
    simpl. eexists. split; [done|].
    intros h [Hh|Hh]%elem_of_app.
    + destruct (Hhs h Hh) as (Hs & nm & ?). split; [done|].
      exists c, nm. split; [by left|done].
    + destruct (Hrest h Hh) as (Hs & c' & nm & Hc' & ?). split; [done|].
      exists c', nm. split; [by right|done].
Qed.





(** X22 — [ensure_indexes] of [ingest.py] creates the two indexes on
    [ftm_id] and no fulltext index.  So on a database without the index
    [companyNameIndex], also after [ensure_indexes], every search is
    answered by the substring statement: the fulltext statement is tried
    and fails with a query error, and the result holds at most [limit]
    Company nodes whose lower-cased name contains the lower-cased query,
    each with score 0.0.  (Names are strings or null; the limit is not
    negative.) *)
Theorem search_without_fulltext_index (db : database) (q : string) (limit : Z)
    (ran : list statement) :
  "companyNameIndex" ∉ db_indexes db →
  (0 ≤ limit)%Z →
  (∀ c, c ∈ g_nodes (db_graph db) → "Company" ∈ p_labels c →
        textual (dict_get (p_props c) "name")) →
  ∃ hits,
    search_companies (store_read toLower query_nodes (ensure_indexes db)) q limit ran
    = (ran ++ [fulltext_cypher (q +:+ "*") limit; fallback_cypher q limit], Ok hits)
    ∧ (Z.of_nat (length hits) ≤ limit)%Z
    ∧ ∀ h, h ∈ hits →
        h_score h = zero_score
        ∧ ∃ c nm, c ∈ g_nodes (db_graph db) ∧ "Company" ∈ p_labels c
                  ∧ dict_get (p_props c) "name" = VStr nm
                  ∧ h_name h = VStr nm
                  ∧ h_id h = dict_get (p_props c) "ftm_id"
                  ∧ occurs (toLower q) (toLower nm).
Proof.
  intros Hix Hlimit Htext.
  destruct (substring_hits_ok q _ Htext) as (hits & Hhits & Hall).
  exists (take (Z.to_nat limit) hits). split_and!.
  - unfold search_companies, execute_read. simpl.
    rewrite decide_False.
    + rewrite Hhits. simpl. by rewrite <- app_assoc.
    + rewrite !elem_of_union, !elem_of_singleton. naive_solver.
  - rewrite length_take. lia.
  - intros h Hh. apply Hall. by eapply subseteq_take.
Qed.

End statements.



Lemma search_without_fulltext_index_witness :
  let db := {| db_graph := Examples.acme_graph; db_indexes := ∅ |} in
  ∃ hits,
    search_companies
      (store_read Examples.ascii_lower (λ _ _ _, Ok []) (ensure_indexes db))
      "ACME" 10 []
    = ([fulltext_cypher "ACME*" 10; fallback_cypher "ACME" 10], Ok hits)
    ∧ (Z.of_nat (length hits) ≤ 10)%Z
    ∧ ∀ h, h ∈ hits →
        h_score h = zero_score
        ∧ ∃ c nm, c ∈ g_nodes (db_graph db) ∧ "Company" ∈ p_labels c
                  ∧ dict_get (p_props c) "name" = VStr nm
                  ∧ h_name h = VStr nm
                  ∧ h_id h = dict_get (p_props c) "ftm_id"
                  ∧ occurs (Examples.ascii_lower "ACME") (Examples.ascii_lower nm).
Proof.
  apply (search_without_fulltext_index Examples.ascii_lower (λ _ _ _, Ok [])
           {| db_graph := Examples.acme_graph; db_indexes := ∅ |} "ACME" 10 []).
  - apply not_elem_of_empty.
  - lia.
  - intros c Hc _. vm_compute in Hc.
    apply elem_of_cons in Hc as [->|Hc]; [exact I|].
    apply elem_of_cons in Hc as [->|Hc]; [exact I|].
    by apply elem_of_nil in Hc.
Defined.

End DatabaseFacts.
